(** * g-SDDMM CUDA kernels (array/cuda/sddmm.cuh): a shallow embedding

    The development follows the header top-down:
    - machine integers ([Idx], [int], [int64_t], [unsigned int]) as [Z] with
      their wrap-around written out;
    - device pointers as a buffer (or null) together with an element offset;
      a load through [_ldg] or [p[i]] faults ([None]) on a null pointer or
      outside the buffer;
    - [BinarySearchSrc], [SDDMMCooKernel] and [SDDMMCsrKernel] as functions of
      one execution unit, returning the stores the unit performs; a launch
      runs every unit of the grid;
    - the host entry points [SDDMMCoo] and [SDDMMCsr].

    Loops carry an iteration budget ([fuel]); running out of budget is a
    fault.  The theorems show that a budget above the loop bound always
    suffices when no counter overflows. *)

From stdpp Require Import prelude sorting.
From Stdlib Require Import ZArith Lia.

Local Open Scope Z_scope.

(** ** Machine integers *)

Module MachineInt.

(** Value of a signed [w]-bit integer after an operation whose exact result is
    [z] (two's complement). *)
Definition wrap (w z : Z) : Z := (z + 2 ^ (w - 1)) `mod` 2 ^ w - 2 ^ (w - 1).

(** Value of an [unsigned int] (32 bits) after an operation whose exact result
    is [z]. *)
Definition uwrap32 (z : Z) : Z := z `mod` 2 ^ 32.

(** Largest value of a signed [w]-bit integer. *)
Definition max_signed (w : Z) : Z := 2 ^ (w - 1) - 1.

(** Width of the type in which the sum of two signed [w]-bit integers is
    computed: operands narrower than [int] (32 bits) are promoted to
    [int]. *)
Definition promoted (w : Z) : Z := Z.max w 32.

End MachineInt.
Import MachineInt.

(** ** Device memory *)

(** A device pointer: the buffer it points into ([None] for [nullptr]) and an
    element offset into that buffer.  Pointer arithmetic moves the offset and
    keeps the buffer, so [nullptr + k] still points into nothing. *)
Record ptr (A : Type) : Type := mkptr { buf : option (list A); off : Z }.
Arguments mkptr {A} _ _.
Arguments buf {A} _.
Arguments off {A} _.

Definition nullptr {A : Type} : ptr A := mkptr None 0.

(** A pointer to element 0 of a buffer. *)
Definition ptr_to {A : Type} (b : list A) : ptr A := mkptr (Some b) 0.

(** [p + k] *)
Definition padd {A : Type} (p : ptr A) (k : Z) : ptr A :=
  mkptr (buf p) (off p + k).

Infix "+ₚ" := padd (at level 50, left associativity).

(** [_ldg(p)]: the read-only load of [*p]. *)
Definition _ldg {A : Type} (p : ptr A) : option A :=
  b ← buf p;
  if off p <? 0 then None else b !! Z.to_nat (off p).

(** [p[i]] is [*(p + i)]. *)
Definition pindex {A : Type} (p : ptr A) (i : Z) : option A := _ldg (p +ₚ i).

(** [b[i] = v] on the output buffer; a store outside the buffer faults. *)
Definition store {A : Type} (b : list A) (i : Z) (v : A) : option (list A) :=
  if (i <? 0) || (Z.of_nat (length b) <=? i) then None
  else Some (<[Z.to_nat i := v]> b).

(** A sequence of stores, first to last. *)
Fixpoint store_all {A : Type} (b : list A) (ws : list (Z * A))
  : option (list A) :=
  match ws with
  | [] => Some b
  | (i, v) :: ws' => b' ← store b i v; store_all b' ws'
  end.

(** ** The operator functor *)

(** The [BinaryOp] template argument.  functor.cuh is not part of the sources
    at hand, so an operator is a parameter of the kernels: its two flags and
    its [Call(lhs, rhs, len)], which reads feature memory through the two
    pointers and faults when such a read does. *)
Record BinaryOp (DType : Type) : Type := {
  use_lhs : bool;
  use_rhs : bool;
  Call : ptr DType → ptr DType → Z → option DType
}.
Arguments use_lhs {DType} _.
Arguments use_rhs {DType} _.
Arguments Call {DType} _ _ _ _.

(** ** Execution geometry *)

Module dim3.

(** The [x] and [y] components of a [dim3] / [uint3]; the kernels never look
    at [z]. *)
Record t : Type := mk { x : Z; y : Z }.

End dim3.

(** The [(blockIdx, threadIdx)] pairs of a launch [<<<gridDim, blockDim>>>]. *)
Definition units (gridDim blockDim : dim3.t) : list (dim3.t * dim3.t) :=
  by_ ← seqZ 0 (dim3.y gridDim);
  bx ← seqZ 0 (dim3.x gridDim);
  ty ← seqZ 0 (dim3.y blockDim);
  tx ← seqZ 0 (dim3.x blockDim);
  [(dim3.mk bx by_, dim3.mk tx ty)].

(** All units of a grid, one after the other; the stores in that order. *)
Definition run_grid {W : Type}
    (kernel : dim3.t → dim3.t → dim3.t → dim3.t → option (list W))
    (gridDim blockDim : dim3.t) : option (list W) :=
  kss ← mapM (λ u, kernel gridDim blockDim u.1 u.2) (units gridDim blockDim);
  Some (mjoin kss).

(** ** BinarySearchSrc and the kernels *)

Section Kernels.

(** Width in bits of the index type [Idx]: 32 or 64 in the instantiations. *)
Variable iw : Z.

(** Iteration budget of each loop. *)
Variable fuel : nat.

(** The [while (lo < hi)] loop of [BinarySearchSrc], yielding [hi] at exit.
    [lo + hi] is computed in [Idx], or in [int] when [Idx] is narrower, then
    shifted, and the result is stored in the [Idx] variable [mid]. *)
Fixpoint BinarySearchSrc_loop (n : nat) (array : ptr Z) (eid lo hi : Z)
  : option Z :=
  match n with
  | O => None
  | S n' =>
    if lo <? hi then
      let mid := wrap iw (Z.shiftr (wrap (promoted iw) (lo + hi)) 1) in
      v ← _ldg (array +ₚ mid);
      if v <=? eid
      then BinarySearchSrc_loop n' array eid (wrap iw (mid + 1)) hi
      else BinarySearchSrc_loop n' array eid lo mid
    else Some hi
  end.

Definition BinarySearchSrc (array : ptr Z) (length eid : Z) : option Z :=
  hi ← BinarySearchSrc_loop fuel array eid 0 (wrap iw (length - 1));
  v ← _ldg (array +ₚ hi);
  if v =? eid then Some hi else Some (wrap iw (hi - 1)).

Context {DType : Type}.
Variable BinaryOp_ : BinaryOp DType.
Variables UseBcast UseIdx : bool.

(** [while (i < bound) { body; i += stride; }] for a counter [i] that is a
    signed [w]-bit integer compared against an [int64_t] bound.  The result
    lists the stores of the iterations in program order. *)
Fixpoint strided_loop {W : Type} (n : nat) (w bound stride : Z)
    (body : Z → option (list W)) (i : Z) : option (list W) :=
  match n with
  | O => None
  | S n' =>
    if i <? bound then
      ws ← body i;
      rest ← strided_loop n' w bound stride body (wrap w (i + stride));
      Some (ws ++ rest)
    else Some []
  end.

(** Body of the inner loop of both kernels (lines 53-59 and 116-122): one
    output position [tx] of one edge.  The store [outoff[tx] = val] is
    recorded as its element offset from [out] and the value. *)
Definition feature_body (reduce_size : Z) (ubcast_off vbcast_off : ptr Z)
    (lhsoff rhsoff : ptr DType) (outoff : Z) (tx : Z)
  : option (list (Z * DType)) :=
  lhs_add ← (if UseBcast then pindex ubcast_off tx else Some tx);
  rhs_add ← (if UseBcast then pindex vbcast_off tx else Some tx);
  let lhs_add := wrap iw lhs_add in
  let rhs_add := wrap iw rhs_add in
  val ← Call BinaryOp_
          (lhsoff +ₚ wrap 64 (lhs_add * reduce_size))
          (rhsoff +ₚ wrap 64 (rhs_add * reduce_size))
          reduce_size;
  Some [(outoff + tx, val)].

(** Body of the outer loop of [SDDMMCooKernel] (lines 42-61); [tx] is an
    [int]. *)
Definition SDDMMCoo_edge (ufeat vfeat : ptr DType) (row col edge_map : ptr Z)
    (reduce_size : Z) (ubcast_off vbcast_off : ptr Z)
    (ufeat_len vfeat_len out_len : Z)
    (gridDim blockDim blockIdx threadIdx : dim3.t) (ty : Z)
  : option (list (Z * DType)) :=
  src ← _ldg (row +ₚ ty);
  dst ← _ldg (col +ₚ ty);
  eid ← (if UseIdx then _ldg (edge_map +ₚ ty) else Some ty);
  let lhsoff := if use_lhs BinaryOp_
                then ufeat +ₚ wrap 64 (src * ufeat_len) else nullptr in
  let rhsoff := if use_rhs BinaryOp_
                then vfeat +ₚ wrap 64 (dst * vfeat_len) else nullptr in
  let outoff := wrap 64 (eid * out_len) in
  let tx := wrap 32 (uwrap32 (dim3.x blockIdx * dim3.x blockDim
                              + dim3.x threadIdx)) in
  let stride_x := wrap 32 (uwrap32 (dim3.x blockDim * dim3.x gridDim)) in
  strided_loop fuel 32 out_len stride_x
    (feature_body reduce_size ubcast_off vbcast_off lhsoff rhsoff outoff) tx.

(** [SDDMMCooKernel<Idx, DType, BinaryOp, UseBcast, UseIdx>] as run by the
    unit [(blockIdx, threadIdx)].  The [out] argument is implicit: stores are
    offsets from it. *)
Definition SDDMMCooKernel (ufeat vfeat : ptr DType) (row col edge_map : ptr Z)
    (N M E reduce_size : Z) (ubcast_off vbcast_off : ptr Z)
    (ufeat_len vfeat_len out_len : Z)
    (gridDim blockDim blockIdx threadIdx : dim3.t)
  : option (list (Z * DType)) :=
  let ty := wrap iw (uwrap32 (dim3.y blockIdx * dim3.y blockDim
                              + dim3.y threadIdx)) in
  let stride_y := wrap iw (uwrap32 (dim3.y blockDim * dim3.y gridDim)) in
  strided_loop fuel iw E stride_y
    (SDDMMCoo_edge ufeat vfeat row col edge_map reduce_size
       ubcast_off vbcast_off ufeat_len vfeat_len out_len
       gridDim blockDim blockIdx threadIdx) ty.

(** Body of the outer loop of [SDDMMCsrKernel] (lines 107-124); [tx] is an
    [int64_t], and the [int64_t] value [N + 1] is converted to [Idx] at the
    call of [BinarySearchSrc]. *)
Definition SDDMMCsr_edge (ufeat vfeat : ptr DType)
    (indptr indices edge_map : ptr Z)
    (N reduce_size : Z) (ubcast_off vbcast_off : ptr Z)
    (ufeat_len vfeat_len out_len : Z)
    (gridDim blockDim blockIdx threadIdx : dim3.t) (ty : Z)
  : option (list (Z * DType)) :=
  src ← BinarySearchSrc indptr (wrap iw (wrap 64 (N + 1))) ty;
  dst ← _ldg (indices +ₚ ty);
  eid ← (if UseIdx then _ldg (edge_map +ₚ ty) else Some ty);
  let tx := wrap 64 (uwrap32 (dim3.x blockIdx * dim3.x blockDim
                              + dim3.x threadIdx)) in
  let stride_x := wrap 64 (uwrap32 (dim3.x blockDim * dim3.x gridDim)) in
  let lhsoff := if use_lhs BinaryOp_
                then ufeat +ₚ wrap 64 (src * ufeat_len) else nullptr in
  let rhsoff := if use_rhs BinaryOp_
                then vfeat +ₚ wrap 64 (dst * vfeat_len) else nullptr in
  let outoff := wrap 64 (eid * out_len) in
  strided_loop fuel 64 out_len stride_x
    (feature_body reduce_size ubcast_off vbcast_off lhsoff rhsoff outoff) tx.

(** [SDDMMCsrKernel<Idx, DType, BinaryOp, UseBcast, UseIdx>] as run by the
    unit [(blockIdx, threadIdx)]. *)
Definition SDDMMCsrKernel (ufeat vfeat : ptr DType)
    (indptr indices edge_map : ptr Z)
    (N M E reduce_size : Z) (ubcast_off vbcast_off : ptr Z)
    (ufeat_len vfeat_len out_len : Z)
    (gridDim blockDim blockIdx threadIdx : dim3.t)
  : option (list (Z * DType)) :=
  let ty := wrap iw (uwrap32 (dim3.y blockIdx * dim3.y blockDim
                              + dim3.y threadIdx)) in
  let stride_y := wrap iw (uwrap32 (dim3.y blockDim * dim3.y gridDim)) in
  strided_loop fuel iw E stride_y
    (SDDMMCsr_edge ufeat vfeat indptr indices edge_map N reduce_size
       ubcast_off vbcast_off ufeat_len vfeat_len out_len
       gridDim blockDim blockIdx threadIdx) ty.

(** [Kernel<<<nblks, nthrs>>>(ufeat, vfeat, out, ...)]: the stores of the
    whole grid applied to the contents of the output buffer. *)
Definition launch_coo (nblks nthrs : dim3.t)
    (ufeat vfeat : ptr DType) (out : list DType) (row col edge_map : ptr Z)
    (N M E reduce_size : Z) (ubcast_off vbcast_off : ptr Z)
    (ufeat_len vfeat_len out_len : Z) : option (list DType) :=
  ws ← run_grid (SDDMMCooKernel ufeat vfeat row col edge_map N M E reduce_size
                   ubcast_off vbcast_off ufeat_len vfeat_len out_len)
         nblks nthrs;
  store_all out ws.

Definition launch_csr (nblks nthrs : dim3.t)
    (ufeat vfeat : ptr DType) (out : list DType)
    (indptr indices edge_map : ptr Z)
    (N M E reduce_size : Z) (ubcast_off vbcast_off : ptr Z)
    (ufeat_len vfeat_len out_len : Z) : option (list DType) :=
  ws ← run_grid (SDDMMCsrKernel ufeat vfeat indptr indices edge_map N M E
                   reduce_size ubcast_off vbcast_off ufeat_len vfeat_len
                   out_len)
         nblks nthrs;
  store_all out ws.

End Kernels.

(** ** Host entry points *)

(** [dgl/bcast.h] and [macro.cuh] are not part of the sources at hand. *)

Module BcastOff.

(** Modelled from the spec: the broadcast descriptor [BcastOff] of
    dgl/bcast.h, which is missing: [out_len], [lhs_len], [rhs_len],
    [reduce_size], the two offset tables of length [out_len], and whether the
    shapes require broadcasting at all. *)
Record t : Type := mk {
  use_bcast : bool;
  lhs_offset : list Z;
  rhs_offset : list Z;
  lhs_len : Z;
  rhs_len : Z;
  out_len : Z;
  reduce_size : Z
}.

End BcastOff.

(** An [NDArray]: its elements, or the null array. *)
Definition NDArray (A : Type) : Type := option (list A).

Definition IsNullArray {A : Type} (a : NDArray A) : bool :=
  match a with None => true | Some _ => false end.

(** [a.Ptr<T>()] *)
Definition Ptr {A : Type} (a : NDArray A) : ptr A :=
  match a with None => nullptr | Some b => ptr_to b end.

(** [a->shape[0]] *)
Definition shape0 {A : Type} (a : NDArray A) : Z :=
  match a with None => 0 | Some b => Z.of_nat (length b) end.

Record COOMatrix : Type := {
  coo_num_rows : Z;
  coo_num_cols : Z;
  coo_row : NDArray Z;
  coo_col : NDArray Z;
  coo_data : NDArray Z
}.

Record CSRMatrix : Type := {
  csr_num_rows : Z;
  csr_num_cols : Z;
  csr_indptr : NDArray Z;
  csr_indices : NDArray Z;
  csr_data : NDArray Z
}.

(** Modelled from the spec: the macro [BCAST_IDX_CTX_SWITCH] of macro.cuh,
    which is missing.  It selects the kernel specialization (broadcast or
    not, permutation or not) and materializes the two offset tables on the
    device only when the shapes require broadcasting; otherwise the two
    pointers keep the value the entry point gave them. *)
Definition BCAST_IDX_CTX_SWITCH {R : Type} (bcast : BcastOff.t)
    (use_idx : bool) (ubcast_off vbcast_off : ptr Z)
    (body : bool → bool → ptr Z → ptr Z → R) : R :=
  if BcastOff.use_bcast bcast
  then body true use_idx (ptr_to (BcastOff.lhs_offset bcast))
         (ptr_to (BcastOff.rhs_offset bcast))
  else body false use_idx ubcast_off vbcast_off.

Section Dispatch.

Variable iw : Z.
Variable fuel : nat.
Context {DType : Type}.
Variable Op : BinaryOp DType.

(** The geometry helpers of cuda_utils.h, which is missing, are parameters of
    the entry points. *)
Variable FindNumThreads : Z → Z.
Variable CUDA_MAX_NUM_THREADS : Z.
Variable FindNumBlocks_y : Z → Z.

Definition SDDMMCoo (bcast : BcastOff.t) (coo : COOMatrix)
    (ufeat vfeat : NDArray DType) (out : list DType) : option (list DType) :=
  let row := Ptr (coo_row coo) in
  let col := Ptr (coo_col coo) in
  let edge_map := Ptr (coo_data coo) in
  let ufeat_data := Ptr ufeat in
  let vfeat_data := Ptr vfeat in
  let ubcast_off : ptr Z := nullptr in
  let vbcast_off : ptr Z := nullptr in
  let len := BcastOff.out_len bcast in
  let lhs_len := BcastOff.lhs_len bcast in
  let rhs_len := BcastOff.rhs_len bcast in
  let reduce_dim := BcastOff.reduce_size bcast in
  let nnz := shape0 (coo_row coo) in
  let ntx := wrap 32 (FindNumThreads len) in
  let nty := wrap 32 (CUDA_MAX_NUM_THREADS `quot` ntx) in
  let nbx := wrap 32 (wrap 64 (len + ntx - 1) `quot` ntx) in
  let nby := wrap 32 (FindNumBlocks_y (wrap 64 (nnz + nty - 1) `quot` nty)) in
  let nblks := dim3.mk (uwrap32 nbx) (uwrap32 nby) in
  let nthrs := dim3.mk (uwrap32 ntx) (uwrap32 nty) in
  let use_idx := negb (IsNullArray (coo_data coo)) in
  BCAST_IDX_CTX_SWITCH bcast use_idx ubcast_off vbcast_off
    (λ UseBcast UseIdx ubcast_off vbcast_off,
       launch_coo iw fuel Op UseBcast UseIdx nblks nthrs
         ufeat_data vfeat_data out row col edge_map
         (coo_num_rows coo) (coo_num_cols coo) nnz reduce_dim
         ubcast_off vbcast_off lhs_len rhs_len len).

Definition SDDMMCsr (bcast : BcastOff.t) (csr : CSRMatrix)
    (ufeat vfeat : NDArray DType) (out : list DType) : option (list DType) :=
  let indptr := Ptr (csr_indptr csr) in
  let indices := Ptr (csr_indices csr) in
  let edge_map := Ptr (csr_data csr) in
  let ufeat_data := Ptr ufeat in
  let vfeat_data := Ptr vfeat in
  let N := csr_num_rows csr in
  let M := csr_num_cols csr in
  let E := shape0 (csr_indices csr) in
  let ubcast_off : ptr Z := nullptr in
  let vbcast_off : ptr Z := nullptr in
  let len := BcastOff.out_len bcast in
  let lhs_len := BcastOff.lhs_len bcast in
  let rhs_len := BcastOff.rhs_len bcast in
  let reduce_dim := BcastOff.reduce_size bcast in
  let ntx := wrap 32 (FindNumThreads len) in
  let nty := wrap 32 (CUDA_MAX_NUM_THREADS `quot` ntx) in
  let nbx := wrap 32 (wrap 64 (len + ntx - 1) `quot` ntx) in
  let nby := wrap 32 (FindNumBlocks_y (wrap 64 (E + nty - 1) `quot` nty)) in
  let nblks := dim3.mk (uwrap32 nbx) (uwrap32 nby) in
  let nthrs := dim3.mk (uwrap32 ntx) (uwrap32 nty) in
  let use_idx := negb (IsNullArray (csr_data csr)) in
  BCAST_IDX_CTX_SWITCH bcast use_idx ubcast_off vbcast_off
    (λ UseBcast UseIdx ubcast_off vbcast_off,
       launch_csr iw fuel Op UseBcast UseIdx nblks nthrs
         ufeat_data vfeat_data out indptr indices edge_map
         N M E reduce_dim ubcast_off vbcast_off lhs_len rhs_len len).

End Dispatch.

(** The launch geometry [(nblks, nthrs)] that both entry points compute
    (lines 159-165 and 209-214) for [len] output positions and [nnz] edges;
    [SDDMMCoo] and [SDDMMCsr] above inline it. *)
Definition launch_geometry (FindNumThreads : Z → Z)
    (CUDA_MAX_NUM_THREADS : Z) (FindNumBlocks_y : Z → Z) (len nnz : Z)
  : dim3.t * dim3.t :=
  let ntx := wrap 32 (FindNumThreads len) in
  let nty := wrap 32 (CUDA_MAX_NUM_THREADS `quot` ntx) in
  let nbx := wrap 32 (wrap 64 (len + ntx - 1) `quot` ntx) in
  let nby := wrap 32 (FindNumBlocks_y (wrap 64 (nnz + nty - 1) `quot` nty)) in
  (dim3.mk (uwrap32 nbx) (uwrap32 nby), dim3.mk (uwrap32 ntx) (uwrap32 nty)).

(** ** Specification vocabulary *)

(** A well-formed row-pointer array of the compressed encoding: [N + 1]
    entries, non-decreasing, from [0] to [E]. *)
Record wf_indptr (row_ptr : list Z) (N E : Z) : Prop := {
  indptr_length : Z.of_nat (length row_ptr) = N + 1;
  indptr_first : row_ptr !! 0%nat = Some 0;
  indptr_last : row_ptr !! Z.to_nat N = Some E;
  indptr_mono : Sorted Z.le row_ptr
}.

(** Row [i] holds edge [e]: [row_ptr[i] <= e < row_ptr[i+1]]. *)
Definition holds_edge (row_ptr : list Z) (i e : Z) : Prop :=
  0 ≤ i ∧ ∃ a b, row_ptr !! Z.to_nat i = Some a
                 ∧ row_ptr !! Z.to_nat (i + 1) = Some b ∧ a ≤ e < b.

(** The counter values of [for (i = i0; i < bound; i += stride)], in order. *)
Definition stride_seq (i0 stride bound : Z) : list Z :=
  (λ k, i0 + k * stride) <$> seqZ 0 ((bound - i0 + stride - 1) `div` stride).

(** The first edge and the first output position of a unit, as exact
    integers. *)
Definition first_y (blockDim blockIdx threadIdx : dim3.t) : Z :=
  dim3.y blockIdx * dim3.y blockDim + dim3.y threadIdx.

Definition first_x (blockDim blockIdx threadIdx : dim3.t) : Z :=
  dim3.x blockIdx * dim3.x blockDim + dim3.x threadIdx.

(** The (edge, output position) pairs of one unit, in the order of its two
    loops. *)
Definition unit_cells (E L : Z) (gridDim blockDim : dim3.t)
    (u : dim3.t * dim3.t) : list (Z * Z) :=
  e ← stride_seq (first_y blockDim u.1 u.2)
                 (dim3.y blockDim * dim3.y gridDim) E;
  p ← stride_seq (first_x blockDim u.1 u.2)
                 (dim3.x blockDim * dim3.x gridDim) L;
  [(e, p)].

(** The pairs of the whole grid, unit after unit. *)
Definition grid_cells (E L : Z) (gridDim blockDim : dim3.t) : list (Z * Z) :=
  units gridDim blockDim ≫= unit_cells E L gridDim blockDim.

(** The iteration space [[0, E) x [0, L)], each pair once. *)
Definition all_cells (E L : Z) : list (Z * Z) :=
  e ← seqZ 0 E; p ← seqZ 0 L; [(e, p)].

(** A launch in which no loop counter overflows: positive extents, strides
    that fit an [unsigned int], an [Idx] edge counter ([iw] bits) and a
    position counter ([xw] bits: [int] in the coordinate kernel, [int64_t] in
    the compressed one) that can step once past their bounds, and an
    iteration budget above both bounds. *)
Record launch_ok (iw xw : Z) (fuel : nat) (E L : Z)
    (gridDim blockDim : dim3.t) : Prop := {
  idx_bits : 1 ≤ iw;
  pos_bits : 1 ≤ xw;
  edges_nonneg : 0 ≤ E;
  positions_nonneg : 0 ≤ L;
  grid_x_pos : 0 < dim3.x gridDim;
  grid_y_pos : 0 < dim3.y gridDim;
  block_x_pos : 0 < dim3.x blockDim;
  block_y_pos : 0 < dim3.y blockDim;
  stride_x_u32 : dim3.x blockDim * dim3.x gridDim < 2 ^ 32;
  stride_y_u32 : dim3.y blockDim * dim3.y gridDim < 2 ^ 32;
  tx_no_overflow : L + dim3.x blockDim * dim3.x gridDim ≤ max_signed xw;
  ty_no_overflow : E + dim3.y blockDim * dim3.y gridDim ≤ max_signed iw;
  fuel_edges : (Z.to_nat E < fuel)%nat;
  fuel_positions : (Z.to_nat L < fuel)%nat
}.

Section Cells.

Variable iw : Z.
Variable fuel : nat.
Context {DType : Type}.
Variable BinaryOp_ : BinaryOp DType.
Variables UseBcast UseIdx : bool.

(** The endpoint resolver of the coordinate kernel (lines 42-44): source,
    destination and output row of edge [e]. *)
Definition coo_endpoints (row col edge_map : ptr Z) (e : Z)
  : option (Z * Z * Z) :=
  src ← _ldg (row +ₚ e);
  dst ← _ldg (col +ₚ e);
  eid ← (if UseIdx then _ldg (edge_map +ₚ e) else Some e);
  Some (src, dst, eid).

(** The endpoint resolver of the compressed kernel (lines 107-109). *)
Definition csr_endpoints (indptr indices edge_map : ptr Z) (N : Z) (e : Z)
  : option (Z * Z * Z) :=
  src ← BinarySearchSrc iw fuel indptr (wrap iw (wrap 64 (N + 1))) e;
  dst ← _ldg (indices +ₚ e);
  eid ← (if UseIdx then _ldg (edge_map +ₚ e) else Some e);
  Some (src, dst, eid).

(** The inner-loop body at the base pointers of an edge with endpoints
    [(src, dst, eid)]. *)
Definition cell_of (ufeat vfeat : ptr DType) (reduce_size : Z)
    (ubcast_off vbcast_off : ptr Z) (ufeat_len vfeat_len out_len : Z)
    (r : Z * Z * Z) (p : Z) : option (list (Z * DType)) :=
  feature_body iw BinaryOp_ UseBcast reduce_size ubcast_off vbcast_off
    (if use_lhs BinaryOp_
     then ufeat +ₚ wrap 64 (r.1.1 * ufeat_len) else nullptr)
    (if use_rhs BinaryOp_
     then vfeat +ₚ wrap 64 (r.1.2 * vfeat_len) else nullptr)
    (wrap 64 (r.2 * out_len)) p.

End Cells.

(** The common shape of the two kernels: an edge loop that resolves the
    endpoints of each edge and runs a position loop on them.  [xw] is the
    width of the position counter. *)
Definition two_level_kernel {R W : Type} (iw xw : Z) (fuel : nat) (E L : Z)
    (endpoints : Z → option R) (cellf : R → Z → option (list W))
    (gridDim blockDim blockIdx threadIdx : dim3.t) : option (list W) :=
  strided_loop fuel iw E
    (wrap iw (uwrap32 (dim3.y blockDim * dim3.y gridDim)))
    (λ e, r ← endpoints e;
          strided_loop fuel xw L
            (wrap xw (uwrap32 (dim3.x blockDim * dim3.x gridDim)))
            (cellf r)
            (wrap xw (uwrap32 (dim3.x blockIdx * dim3.x blockDim
                               + dim3.x threadIdx))))
    (wrap iw (uwrap32 (dim3.y blockIdx * dim3.y blockDim
                       + dim3.y threadIdx))).

(** The stores of the pair [c = (e, p)]; none if a load or the operator
    faults. *)
Definition cell_stores {R W : Type} (endpoints : Z → option R)
    (cellf : R → Z → option (list W)) (c : Z * Z) : list W :=
  default [] (r ← endpoints c.1; cellf r c.2).

(** The sparse relation in one of its two encodings: coordinate ([row],
    [col]) or compressed ([indptr], [indices]). *)
Inductive encoding : Type :=
  | Coo (row col : ptr Z)
  | Csr (indptr indices : ptr Z).

Section Encodings.

Variable iw : Z.
Variable fuel : nat.
Context {DType : Type}.
Variable BinaryOp_ : BinaryOp DType.
Variables UseBcast UseIdx : bool.

(** The kernel of an encoding. *)
Definition SDDMMKernel (enc : encoding) (ufeat vfeat : ptr DType)
    (edge_map : ptr Z) (N M E reduce_size : Z) (ubcast_off vbcast_off : ptr Z)
    (ufeat_len vfeat_len out_len : Z)
  : dim3.t → dim3.t → dim3.t → dim3.t → option (list (Z * DType)) :=
  match enc with
  | Coo row col =>
      SDDMMCooKernel iw fuel BinaryOp_ UseBcast UseIdx ufeat vfeat
        row col edge_map N M E reduce_size ubcast_off vbcast_off
        ufeat_len vfeat_len out_len
  | Csr indptr indices =>
      SDDMMCsrKernel iw fuel BinaryOp_ UseBcast UseIdx ufeat vfeat
        indptr indices edge_map N M E reduce_size ubcast_off vbcast_off
        ufeat_len vfeat_len out_len
  end.

(** Its launch on the output buffer [out]. *)
Definition launch (enc : encoding) (nblks nthrs : dim3.t)
    (ufeat vfeat : ptr DType) (out : list DType)
    (edge_map : ptr Z) (N M E reduce_size : Z) (ubcast_off vbcast_off : ptr Z)
    (ufeat_len vfeat_len out_len : Z) : option (list DType) :=
  match enc with
  | Coo row col =>
      launch_coo iw fuel BinaryOp_ UseBcast UseIdx nblks nthrs ufeat vfeat out
        row col edge_map N M E reduce_size ubcast_off vbcast_off
        ufeat_len vfeat_len out_len
  | Csr indptr indices =>
      launch_csr iw fuel BinaryOp_ UseBcast UseIdx nblks nthrs ufeat vfeat out
        indptr indices edge_map N M E reduce_size ubcast_off vbcast_off
        ufeat_len vfeat_len out_len
  end.

(** Its endpoint resolver. *)
Definition endpoints (enc : encoding) (edge_map : ptr Z) (N : Z)
  : Z → option (Z * Z * Z) :=
  match enc with
  | Coo row col => coo_endpoints UseIdx row col edge_map
  | Csr indptr indices =>
      csr_endpoints iw fuel UseIdx indptr indices edge_map N
  end.

(** The width of its position counter [tx]. *)
Definition tx_bits (enc : encoding) : Z :=
  match enc with Coo _ _ => 32 | Csr _ _ => 64 end.

End Encodings.



(** The contents of cell [i] after the stores [ws], given its contents [old]
    before them: the value of the last store to [i], if any. *)
Definition last_store {A : Type} (ws : list (Z * A)) (i : Z) (old : option A)
  : option A :=
  foldl (λ cur w, if w.1 =? i then Some w.2 else cur) old ws.

(** [z] is a value of a signed [w]-bit integer. *)
Definition fits (w z : Z) : Prop := - 2 ^ (w - 1) ≤ z ≤ max_signed w.

(** [UseBcast ? table[p] : p] *)
Definition offset_of (UseBcast : bool) (table : ptr Z) (p : Z) : option Z :=
  if UseBcast then pindex table p else Some p.


(** ** Operators and inputs of the examples *)

Module functor.

(** Modelled from the spec: the elementwise multiply operator of the catalog
    of functor.cuh, which is missing; elements are integers here, and with
    [reduce_size = 1] the operator combines the first element of each
    window. *)
Definition Mul : BinaryOp Z := {|
  use_lhs := true;
  use_rhs := true;
  Call := λ lhs rhs len, a ← pindex lhs 0; b ← pindex rhs 0; Some (a * b)
|}.

(** Modelled from the spec: the "copy source feature" operator of the
    catalog of functor.cuh, which is missing; it ignores its rhs. *)
Definition CopyLhs : BinaryOp Z := {|
  use_lhs := true;
  use_rhs := false;
  Call := λ lhs rhs len, pindex lhs 0
|}.

(** Modelled from the spec: the "copy destination feature" operator of the
    catalog of functor.cuh, which is missing; it ignores its lhs. *)
Definition CopyRhs : BinaryOp Z := {|
  use_lhs := false;
  use_rhs := true;
  Call := λ lhs rhs len, pindex rhs 0
|}.

(** Modelled from the spec: the dot-product operator of the catalog of
    functor.cuh, which is missing: the sum of the products over a window of
    [len] elements ([reduce_size > 1]). *)
Definition Dot : BinaryOp Z := {|
  use_lhs := true;
  use_rhs := true;
  Call := λ lhs rhs len,
    foldl (λ acc i, s ← acc; a ← pindex lhs i; b ← pindex rhs i;
                    Some (s + a * b))
          (Some 0) (seqZ 0 len)
|}.

End functor.

Module example.

(** Two sources with features [[1,2],[3,4]], two destinations with features
    [[10,20],[30,40]], the edges (0,0), (0,1), (1,1) in both encodings. *)
Definition ufeat : ptr Z := ptr_to [1; 2; 3; 4].
Definition vfeat : ptr Z := ptr_to [10; 20; 30; 40].
Definition coo : encoding := Coo (ptr_to [0; 0; 1]) (ptr_to [0; 1; 1]).
Definition csr : encoding := Csr (ptr_to [0; 2; 3]) (ptr_to [0; 1; 1]).

(** A permutation of the three edges. *)
Definition edge_map : ptr Z := ptr_to [2; 0; 1].

(** Identity offset tables for [out_len = 2]. *)
Definition identity_off : ptr Z := ptr_to [0; 1].

(** Two blocks of one unit along the edge axis, one block of one unit along
    the feature axis: both loops of every unit iterate. *)
Definition nblks : dim3.t := dim3.mk 1 2.
Definition nthrs : dim3.t := dim3.mk 1 1.

(** A freshly zeroed output buffer for three edges of width two. *)
Definition zeros : list Z := replicate 6 0.

(** The same inputs as the entry points receive them: no broadcasting, no
    edge map. *)
Definition bcast : BcastOff.t := BcastOff.mk false [] [] 2 2 2 1.

Definition coo_matrix : COOMatrix := {|
  coo_num_rows := 2; coo_num_cols := 2;
  coo_row := Some [0; 0; 1]; coo_col := Some [0; 1; 1]; coo_data := None
|}.

Definition csr_matrix : CSRMatrix := {|
  csr_num_rows := 2; csr_num_cols := 2;
  csr_indptr := Some [0; 2; 3]; csr_indices := Some [0; 1; 1];
  csr_data := None
|}.

(** Modelled from the spec: the helper [FindNumThreads] of cuda_utils.h,
    which is missing; an instance of the "threads-per-output-row heuristic
    bounded by a hardware-imposed maximum": the largest power of two that
    does not exceed the row width, at most 1024. *)
Definition FindNumThreads (dim : Z) : Z :=
  if dim <=? 0 then 1 else Z.min 1024 (2 ^ Z.log2 dim).

(** Modelled from the spec: the constant [CUDA_MAX_NUM_THREADS] of
    cuda_utils.h, which is missing; an instance of the "hardware-imposed
    maximum concurrent-execution-unit count per group". *)
Definition CUDA_MAX_NUM_THREADS : Z := 1024.

(** Modelled from the spec: the helper [FindNumBlocks<'y'>] of cuda_utils.h,
    which is missing; an instance of the grid extent "capped by a
    hardware-imposed maximum". *)
Definition FindNumBlocks_y (nblks : Z) : Z := Z.min nblks 65535.

End example.

(** * Facts *)

(** ** Machine integers *)

Section MachineIntFacts.

Lemma wrap_small (w z : Z) :
  1 ≤ w → - 2 ^ (w - 1) ≤ z ≤ max_signed w → wrap w z = z.
Proof.
  unfold wrap, max_signed. intros Hw Hz.
  assert (Hp : 2 ^ w = 2 * 2 ^ (w - 1)).
  { rewrite <- Z.pow_succ_r by lia. f_equal. lia. }
  rewrite Z.mod_small; lia.
Qed.

Lemma wrap_nonneg (w z : Z) : 1 ≤ w → 0 ≤ z ≤ max_signed w → wrap w z = z.
Proof.
  intros Hw Hz. apply wrap_small; [done|].
  assert (0 < 2 ^ (w - 1)) by (apply Z.pow_pos_nonneg; lia). lia.
Qed.

Lemma uwrap32_small (z : Z) : 0 ≤ z < 2 ^ 32 → uwrap32 z = z.
Proof. intros Hz. unfold uwrap32. by rewrite Z.mod_small. Qed.

Lemma max_signed_promoted (w : Z) : max_signed w ≤ max_signed (promoted w).
Proof.
  unfold max_signed, promoted.
  destruct (Z_lt_le_dec (w - 1) 0) as [Hneg|Hpos].
  - rewrite (Z.pow_neg_r 2 (w - 1)) by done.
    assert (0 ≤ 2 ^ (w `max` 32 - 1)) by (apply Z.pow_nonneg; lia). lia.
  - assert (2 ^ (w - 1) ≤ 2 ^ (w `max` 32 - 1)); [|lia].
    apply Z.pow_le_mono_r; lia.
Qed.

(** The midpoint [(lo + hi) >> 1] of two indices whose sum [s] is an [Idx]
    value. *)
Lemma mid_exact (w s : Z) :
  1 ≤ w → 0 ≤ s ≤ max_signed w →
  wrap w (Z.shiftr (wrap (promoted w) s) 1) = s `div` 2.
Proof.
  intros Hw Hs. pose proof (max_signed_promoted w).
  rewrite (wrap_nonneg (promoted w)); [|unfold promoted; lia|lia].
  rewrite Z.shiftr_div_pow2 by lia. change (2 ^ 1) with 2.
  apply wrap_nonneg; [done|].
  pose proof (Z.div_mod s 2 ltac:(lia)).
  pose proof (Z.mod_pos_bound s 2 ltac:(lia)). lia.
Qed.

End MachineIntFacts.

(** ** Loads *)

Section LoadFacts.

Context {A : Type}.

Lemma _ldg_ptr_to (b : list A) (i : Z) :
  0 ≤ i → _ldg (ptr_to b +ₚ i) = b !! Z.to_nat i.
Proof.
  intros Hi. unfold _ldg, ptr_to, padd. simpl.
  destruct (Z.ltb_spec (0 + i) 0); [lia|]. by rewrite Z.add_0_l.
Qed.

Lemma _ldg_null (k : Z) : _ldg (@nullptr A +ₚ k) = None.
Proof. reflexivity. Qed.

End LoadFacts.

(** ** Binary search *)

Section BinarySearchFacts.

Variable iw : Z.
Hypothesis iw_pos : 1 ≤ iw.

Variables (row_ptr : list Z) (N E : Z).
Hypothesis wf : wf_indptr row_ptr N E.

(** No overflow in [lo + hi]. *)
Hypothesis mid_fits : 2 * N ≤ max_signed iw.

Lemma sorted_lookup_le (l : list Z) (i j : nat) (a b : Z) :
  Sorted Z.le l → (i ≤ j)%nat → l !! i = Some a → l !! j = Some b → a ≤ b.
Proof.
  intros Hs. apply (Sorted_StronglySorted Z.le _) in Hs.
  revert i j. induction Hs as [|x l Hl IH Hx]; intros i j Hij Hi Hj.
  - by rewrite lookup_nil in Hi.
  - destruct i as [|i], j as [|j]; simpl in *; simplify_eq; try lia.
    + rewrite Forall_forall in Hx. apply Hx.
      by eapply list_elem_of_lookup_2.
    + eapply IH; [|done..]. lia.
Qed.

Lemma indptr_lookup (i : Z) :
  0 ≤ i ≤ N → is_Some (row_ptr !! Z.to_nat i).
Proof.
  intros Hi. apply lookup_lt_is_Some. pose proof (indptr_length _ _ _ wf). lia.
Qed.

Lemma indptr_le (i j a b : Z) :
  0 ≤ i ≤ j →
  row_ptr !! Z.to_nat i = Some a → row_ptr !! Z.to_nat j = Some b → a ≤ b.
Proof.
  intros Hij. apply sorted_lookup_le; [apply wf | lia].
Qed.

Lemma N_nonneg : 0 ≤ N.
Proof.
  pose proof (indptr_length _ _ _ wf).
  pose proof (lookup_lt_Some _ _ _ (indptr_first _ _ _ wf)). lia.
Qed.

(** The loop keeps [row_ptr[k] <= e] below [lo] and [e < row_ptr[hi]]. *)
Lemma BinarySearchSrc_loop_inv (e : Z) (n : nat) :
  ∀ lo hi,
    0 ≤ lo ≤ hi → hi ≤ N → (Z.to_nat (hi - lo) < n)%nat →
    (∀ k a, 0 ≤ k < lo → row_ptr !! Z.to_nat k = Some a → a ≤ e) →
    (∀ b, row_ptr !! Z.to_nat hi = Some b → e < b) →
    ∃ h, BinarySearchSrc_loop iw n (ptr_to row_ptr) e lo hi = Some h
         ∧ lo ≤ h ≤ hi
         ∧ (∀ k a, 0 ≤ k < h → row_ptr !! Z.to_nat k = Some a → a ≤ e)
         ∧ (∀ b, row_ptr !! Z.to_nat h = Some b → e < b).
Proof.
  induction n as [|n IH]; intros lo hi Hlo Hhi Hn Hbelow Habove; [lia|].
  simpl. destruct (Z.ltb_spec lo hi) as [Hlt|Hge].
  - rewrite (mid_exact iw (lo + hi)) by lia.
    set (mid := (lo + hi) `div` 2).
    assert (Hmid : lo ≤ mid < hi).
    { unfold mid. split.
      - apply Z.div_le_lower_bound; lia.
      - apply Z.div_lt_upper_bound; lia. }
    rewrite _ldg_ptr_to by lia.
    destruct (indptr_lookup mid) as [v Hv]; [lia|]. rewrite Hv. simpl.
    destruct (Z.leb_spec v e) as [Hle|Hgt].
    + rewrite wrap_nonneg by lia.
      destruct (IH (mid + 1) hi) as (h & Hrun & Hh & Hb & Ha);
        [lia | lia | lia | | done |].
      * intros k a Hk Hka. etrans; [|exact Hle].
        eapply (indptr_le k mid); [lia | done | done].
      * exists h. split; [done|]. split; [lia|]. done.
    + destruct (IH lo mid) as (h & Hrun & Hh & Hb & Ha);
        [lia | lia | lia | done | |].
      * intros b Hb. rewrite Hv in Hb. simplify_eq. lia.
      * exists h. split; [done|]. split; [lia|]. done.
  - exists hi. split; [done|]. split; [lia|]. split; [|done].
    intros k a Hk. apply Hbelow. lia.
Qed.

Lemma holds_edge_unique (e i j : Z) :
  i ≤ N → j ≤ N →
  holds_edge row_ptr i e → holds_edge row_ptr j e → j = i.
Proof.
  intros HiN HjN (Hi & a & b & Ha & Hb & Hab) (Hj & a' & b' & Ha' & Hb' & Hab').
  destruct (Z.lt_trichotomy j i) as [Hlt|[Heq|Hgt]]; [|done|].
  - assert (b' ≤ a) by (eapply (indptr_le (j + 1) i); [lia|done..]). lia.
  - assert (b ≤ a') by (eapply (indptr_le (i + 1) j); [lia|done..]). lia.
Qed.

Lemma BinarySearchSrc_spec (fuel : nat) (e : Z) :
  0 ≤ e < E → (Z.to_nat N < fuel)%nat →
  ∃ i, BinarySearchSrc iw fuel (ptr_to row_ptr) (N + 1) e = Some i
       ∧ 0 ≤ i < N ∧ holds_edge row_ptr i e.
Proof.
  intros He Hfuel. pose proof N_nonneg as HN.
  unfold BinarySearchSrc.
  replace (N + 1 - 1) with N by lia. rewrite wrap_nonneg by lia.
  destruct (BinarySearchSrc_loop_inv e fuel 0 N)
    as (h & Hrun & Hh & Hbelow & Habove); [lia | lia | lia | lia | |].
  { intros b Hb. rewrite (indptr_last _ _ _ wf) in Hb. simplify_eq. lia. }
  rewrite Hrun. simpl. rewrite _ldg_ptr_to by lia.
  destruct (indptr_lookup h) as [v Hv]; [lia|]. rewrite Hv. simpl.
  pose proof (Habove _ Hv) as Hev.
  assert (h ≠ 0) as Hh0.
  { intros ->. change (Z.to_nat 0) with 0%nat in Hv.
    rewrite (indptr_first _ _ _ wf) in Hv. simplify_eq. lia. }
  destruct (Z.eqb_spec v e) as [->|_]; [lia|].
  rewrite wrap_nonneg by lia.
  exists (h - 1). split; [done|]. split; [lia|].
  split; [lia|].
  destruct (indptr_lookup (h - 1)) as [a Ha]; [lia|].
  exists a, v. split; [done|]. replace (h - 1 + 1) with h by lia.
  split; [done|]. split; [|done]. eapply Hbelow; [|done]. lia.
Qed.

End BinarySearchFacts.

(** ** Binary search beyond the range of [lo + hi] *)

(** A sum of two [w]-bit values above the largest one wraps to a negative
    value. *)
Lemma wrap_overflow (w z : Z) :
  1 ≤ w → max_signed w < z ≤ 2 * max_signed w → wrap w z = z - 2 ^ w.
Proof.
  unfold wrap, max_signed. intros Hw Hz.
  assert (Hp : 2 ^ w = 2 * 2 ^ (w - 1)).
  { rewrite <- Z.pow_succ_r by lia. f_equal. lia. }
  replace (z + 2 ^ (w - 1)) with (z - 2 ^ (w - 1) + 1 * 2 ^ w) by lia.
  rewrite Z.mod_add by lia. rewrite Z.mod_small; lia.
Qed.

(** A row-pointer array of [N] rows whose only edge lies in the last
    row. *)
Lemma wf_indptr_last_row (N : Z) :
  1 ≤ N → wf_indptr (replicate (Z.to_nat N) 0 ++ [1]) N 1.
Proof.
  intros HN. split.
  - rewrite length_app, length_replicate. simpl. lia.
  - rewrite lookup_app_l by (rewrite length_replicate; lia).
    apply lookup_replicate_2. lia.
  - rewrite lookup_app_r by (rewrite length_replicate; lia).
    rewrite length_replicate. by rewrite Nat.sub_diag.
  - generalize (Z.to_nat N). intros n. induction n as [|n IH]; simpl.
    + repeat constructor.
    + constructor; [done|]. destruct n; simpl; constructor; lia.
Qed.

Lemma holds_edge_last_row (N : Z) :
  1 ≤ N → holds_edge (replicate (Z.to_nat N) 0 ++ [1]) (N - 1) 0.
Proof.
  intros HN. split; [lia|]. exists 0, 1. split; [|split; [|lia]].
  - rewrite lookup_app_l by (rewrite length_replicate; lia).
    apply lookup_replicate_2. lia.
  - replace (N - 1 + 1) with N by lia.
    rewrite lookup_app_r by (rewrite length_replicate; lia).
    rewrite length_replicate. by rewrite Nat.sub_diag.
Qed.

(** With an [Idx] at least as wide as [int]: when the first probe of the
    search moves right and [(N / 2 + 1) + N] is not an [Idx] value, the sum
    wraps to a negative value and the second probe loads [array[mid]] at a
    negative index. *)
Lemma BinarySearchSrc_second_probe_faults (iw : Z) (array : list Z)
    (N e v : Z) :
  32 ≤ iw → 3 ≤ N ≤ max_signed iw →
  max_signed iw < N `div` 2 + 1 + N →
  array !! Z.to_nat (N `div` 2) = Some v → v ≤ e →
  wrap iw (N `div` 2 + 1 + N) < 0
  ∧ _ldg (ptr_to array +ₚ Z.shiftr (wrap iw (N `div` 2 + 1 + N)) 1) = None
  ∧ ∀ fuel, BinarySearchSrc iw fuel (ptr_to array) (N + 1) e = None.
Proof.
  intros Hiw HN Hover Hv Hle.
  set (lo := N `div` 2 + 1) in *.
  assert (Hhalf : 2 * (N `div` 2) ≤ N).
  { apply Z.mul_div_le. lia. }
  assert (Hp : 2 ^ iw = 2 * 2 ^ (iw - 1)).
  { rewrite <- Z.pow_succ_r by lia. f_equal. lia. }
  assert (Hwrap : wrap iw (lo + N) = lo + N - 2 ^ iw).
  { apply wrap_overflow; [lia|]. unfold lo. lia. }
  assert (Hneg : wrap iw (lo + N) < 0).
  { rewrite Hwrap. unfold max_signed in *. unfold lo. lia. }
  assert (Hshift : - 2 ^ (iw - 1) ≤ Z.shiftr (wrap iw (lo + N)) 1 < 0).
  { rewrite Z.shiftr_div_pow2 by lia. change (2 ^ 1) with 2. split.
    - apply Z.div_le_lower_bound; [lia|].
      rewrite Hwrap. unfold max_signed in *. unfold lo. lia.
    - apply Z.div_lt_upper_bound; lia. }
  assert (Hload : _ldg (ptr_to array +ₚ Z.shiftr (wrap iw (lo + N)) 1)
                  = None).
  { unfold _ldg, ptr_to, padd. simpl.
    destruct (Z.ltb_spec (0 + Z.shiftr (wrap iw (lo + N)) 1) 0); [done|lia]. }
  split; [done|]. split; [done|].
  intros fuel. unfold BinarySearchSrc.
  replace (N + 1 - 1) with N by lia. rewrite (wrap_nonneg iw N) by lia.
  destruct fuel as [|fuel]; [done|]. simpl BinarySearchSrc_loop.
  destruct (Z.ltb_spec 0 N) as [_|]; [|lia].
  rewrite (mid_exact iw (0 + N)) by lia. rewrite Z.add_0_l.
  rewrite _ldg_ptr_to by (apply Z.div_pos; lia). rewrite Hv. simpl.
  destruct (Z.leb_spec v e) as [_|]; [|lia].
  rewrite (wrap_nonneg iw (N `div` 2 + 1)) by lia. fold lo.
  destruct fuel as [|fuel]; [done|]. simpl BinarySearchSrc_loop.
  destruct (Z.ltb_spec lo N) as [_|]; [|unfold lo in *; lia].
  replace (promoted iw) with iw by (unfold promoted; lia).
  rewrite (wrap_small iw (Z.shiftr _ 1)); [|lia|unfold max_signed; lia].
  by rewrite Hload.
Qed.

(** The only edge of a well-formed row-pointer array of [2^31 - 2] rows,
    searched with a 32-bit [Idx]. *)
Lemma large_row_count_search_faults (fuel : nat) :
  BinarySearchSrc 32 fuel
    (ptr_to (replicate (Z.to_nat 2147483646) 0 ++ [1]))
    (2147483646 + 1) 0 = None.
Proof.
  refine (proj2 (proj2 (BinarySearchSrc_second_probe_faults 32
            (replicate (Z.to_nat 2147483646) 0 ++ [1]) 2147483646 0 0
            _ _ _ _ _)) fuel).
  - lia.
  - unfold max_signed. lia.
  - unfold max_signed. change (2147483646 `div` 2) with 1073741823. lia.
  - change (2147483646 `div` 2) with 1073741823.
    rewrite lookup_app_l by (rewrite length_replicate; lia).
    apply lookup_replicate_2. lia.
  - lia.
Qed.

(** ** Strided loops *)

Section StridedLoopFacts.

Lemma ceil_div_gt (a s k : Z) : 0 < s → k < (a + s - 1) `div` s ↔ k * s < a.
Proof.
  intros Hs. split; intros Hk.
  - destruct (Z_lt_le_dec (k * s) a) as [|Hge]; [done|]. exfalso.
    assert ((a + s - 1) `div` s < k + 1); [|lia].
    apply Z.div_lt_upper_bound; lia.
  - assert (k + 1 ≤ (a + s - 1) `div` s); [|lia].
    apply Z.div_le_lower_bound; lia.
Qed.

Lemma elem_of_stride_seq (i0 s b x : Z) :
  0 < s →
  x ∈ stride_seq i0 s b ↔ i0 ≤ x < b ∧ (x - i0) `mod` s = 0.
Proof.
  intros Hs. unfold stride_seq. rewrite list_elem_of_fmap. split.
  - intros (k & -> & Hk). apply elem_of_seqZ in Hk.
    destruct Hk as [Hk0 Hk]. rewrite Z.add_0_l in Hk.
    apply ceil_div_gt in Hk; [|done].
    replace (i0 + k * s - i0) with (k * s) by lia.
    rewrite Z.mod_mul by lia. split; [nia|done].
  - intros [Hx Hmod]. exists ((x - i0) `div` s).
    pose proof (Z.div_mod (x - i0) s ltac:(lia)) as Hdm.
    rewrite Hmod in Hdm. split; [lia|].
    apply elem_of_seqZ. split.
    + apply Z.div_pos; lia.
    + rewrite Z.add_0_l. apply ceil_div_gt; [done|]. lia.
Qed.

Lemma stride_seq_done (i0 s b : Z) : 0 < s → b ≤ i0 → stride_seq i0 s b = [].
Proof.
  intros Hs Hb. unfold stride_seq. rewrite seqZ_nil; [done|].
  destruct (Z_le_gt_dec ((b - i0 + s - 1) `div` s) 0) as [|Hgt]; [done|].
  exfalso. assert (0 < (b - i0 + s - 1) `div` s) as H0 by lia.
  apply ceil_div_gt in H0; lia.
Qed.

Lemma stride_seq_step (i0 s b : Z) :
  0 < s → i0 < b → stride_seq i0 s b = i0 :: stride_seq (i0 + s) s b.
Proof.
  intros Hs Hb. unfold stride_seq.
  assert (0 < (b - i0 + s - 1) `div` s) as Hc by (apply ceil_div_gt; lia).
  rewrite seqZ_cons by done. rewrite fmap_cons. f_equal; [lia|].
  replace (b - (i0 + s) + s - 1) with (b - i0 + s - 1 + (-1) * s) by lia.
  rewrite Z.div_add by lia.
  replace (Z.pred ((b - i0 + s - 1) `div` s))
    with ((b - i0 + s - 1) `div` s + -1) by lia.
  rewrite <- (fmap_add_seqZ 1 0). rewrite <- list_fmap_compose.
  apply list_fmap_ext. intros _ k _. simpl. lia.
Qed.

Lemma NoDup_stride_seq (i0 s b : Z) : 0 < s → NoDup (stride_seq i0 s b).
Proof.
  intros Hs. unfold stride_seq. apply NoDup_fmap_2_strong; [|apply NoDup_seqZ].
  intros k1 k2 _ _ Heq. nia.
Qed.

(** A strided loop whose counter cannot overflow runs its body at the
    counter values of [stride_seq], in that order. *)
Lemma strided_loop_run {W : Type} (w b s : Z) (body : Z → option (list W))
    (f : Z → list W) (n : nat) :
  1 ≤ w → 0 < s → b + s ≤ max_signed w + 1 →
  ∀ i0, 0 ≤ i0 ≤ max_signed w → (Z.to_nat (b - i0) < n)%nat →
    (∀ i, i ∈ stride_seq i0 s b → body i = Some (f i)) →
    strided_loop n w b s body i0 = Some (stride_seq i0 s b ≫= f).
Proof.
  intros Hw Hs Hfit. induction n as [|n IH]; intros i0 Hi0 Hn Hbody; [lia|].
  simpl. destruct (Z.ltb_spec i0 b) as [Hlt|Hge].
  - rewrite stride_seq_step in * by done.
    rewrite (Hbody i0) by (apply elem_of_cons; by left). simpl.
    rewrite wrap_nonneg by lia.
    rewrite IH; [done | lia | lia |].
    intros i Hi. apply Hbody. apply elem_of_cons. by right.
  - by rewrite stride_seq_done.
Qed.

Lemma mapM_total {A B : Type} (g : A → option B) (f : A → B) (l : list A) :
  (∀ x, x ∈ l → g x = Some (f x)) → mapM g l = Some (f <$> l).
Proof.
  intros Hg. apply mapM_Some_2. induction l as [|x l IH]; simpl.
  - constructor.
  - constructor; [apply Hg, elem_of_cons; by left|]. apply IH. intros y Hy.
    apply Hg, elem_of_cons. by right.
Qed.

Lemma join_fmap_bind {A B : Type} (f : A → list B) (l : list A) :
  mjoin (f <$> l) = l ≫= f.
Proof. by rewrite list_join_bind, list_fmap_bind. Qed.

End StridedLoopFacts.

(** ** The grid covers the iteration space *)

Section GridFacts.

(** One axis: [gd] blocks of [bd] units, stride [bd * gd]. *)
Lemma axis_start_range (bd gd b t : Z) :
  0 ≤ b < gd → 0 ≤ t < bd → 0 ≤ b * bd + t < bd * gd.
Proof. intros Hb Ht. nia. Qed.

Lemma axis_start_inj (bd b t b' t' : Z) :
  0 ≤ t < bd → 0 ≤ t' < bd → b * bd + t = b' * bd + t' → b = b' ∧ t = t'.
Proof.
  intros Ht Ht' Heq.
  assert (b = b'); [|subst; lia].
  destruct (Z.lt_trichotomy b b') as [Hlt|[Heq'|Hgt]]; [|done|]; exfalso.
  - assert (b * bd + bd ≤ b' * bd) by nia. lia.
  - assert (b' * bd + bd ≤ b * bd) by nia. lia.
Qed.

Lemma congruent_starts (s i i' e : Z) :
  0 ≤ i < s → 0 ≤ i' < s →
  (e - i) `mod` s = 0 → (e - i') `mod` s = 0 → i = i'.
Proof.
  intros Hi Hi' Hm Hm'.
  apply Z.mod_divide in Hm as [k Hk]; [|lia].
  apply Z.mod_divide in Hm' as [k' Hk']; [|lia].
  assert (i' - i = (k - k') * s) as Hd by lia.
  assert (k - k' = 0) by nia. lia.
Qed.

Lemma axis_cover (bd gd e : Z) :
  0 < bd → 0 < gd → 0 ≤ e →
  ∃ b t, 0 ≤ b < gd ∧ 0 ≤ t < bd ∧ b * bd + t ≤ e
         ∧ (e - (b * bd + t)) `mod` (bd * gd) = 0.
Proof.
  intros Hbd Hgd He. set (s := bd * gd). assert (0 < s) as Hs by (unfold s; nia).
  set (r := e `mod` s).
  assert (0 ≤ r < s) as Hr by (apply Z.mod_pos_bound; lia).
  exists (r `div` bd), (r `mod` bd).
  pose proof (Z.div_mod r bd ltac:(lia)) as Hdm.
  pose proof (Z.mod_pos_bound r bd Hbd) as Hmb.
  assert (r `div` bd * bd + r `mod` bd = r) as Heq by lia.
  rewrite Heq. split; [|split; [done|split]].
  - split; [apply Z.div_pos; lia|]. apply Z.div_lt_upper_bound; [lia|].
    unfold s in Hr. lia.
  - unfold r. pose proof (Z.mod_le e s He Hs). lia.
  - unfold r. rewrite Zminus_mod_idemp_r. by rewrite Z.sub_diag.
Qed.

Variables (E L : Z) (gridDim blockDim : dim3.t).
Hypothesis grid_x : 0 < dim3.x gridDim.
Hypothesis grid_y : 0 < dim3.y gridDim.
Hypothesis block_x : 0 < dim3.x blockDim.
Hypothesis block_y : 0 < dim3.y blockDim.

Lemma elem_of_units (bi ti : dim3.t) :
  (bi, ti) ∈ units gridDim blockDim ↔
  (0 ≤ dim3.x bi < dim3.x gridDim ∧ 0 ≤ dim3.y bi < dim3.y gridDim)
  ∧ (0 ≤ dim3.x ti < dim3.x blockDim ∧ 0 ≤ dim3.y ti < dim3.y blockDim).
Proof.
  unfold units. destruct bi as [bx by_], ti as [tx ty]. simpl.
  repeat setoid_rewrite list_elem_of_bind.
  setoid_rewrite list_elem_of_singleton. setoid_rewrite elem_of_seqZ.
  split.
  - intros (by' & (bx' & (ty' & (tx' & Heq & Htx) & Hty) & Hbx) & Hby).
    simplify_eq. lia.
  - intros [[Hbx Hby] [Htx Hty]].
    exists by_. split; [|lia]. exists bx. split; [|lia].
    exists ty. split; [|lia]. exists tx. split; [done|lia].
Qed.

Lemma NoDup_units : NoDup (units gridDim blockDim).
Proof.
  unfold units.
  apply NoDup_bind; [| |apply NoDup_seqZ].
  { intros by1 by2 u _ _ H1 H2.
    repeat setoid_rewrite list_elem_of_bind in H1.
    repeat setoid_rewrite list_elem_of_bind in H2.
    destruct H1 as (? & (? & (? & H1 & _) & _) & _).
    destruct H2 as (? & (? & (? & H2 & _) & _) & _).
    apply list_elem_of_singleton in H1, H2. by simplify_eq. }
  intros by_ _. apply NoDup_bind; [| |apply NoDup_seqZ].
  { intros bx1 bx2 u _ _ H1 H2.
    repeat setoid_rewrite list_elem_of_bind in H1.
    repeat setoid_rewrite list_elem_of_bind in H2.
    destruct H1 as (? & (? & H1 & _) & _).
    destruct H2 as (? & (? & H2 & _) & _).
    apply list_elem_of_singleton in H1, H2. by simplify_eq. }
  intros bx _. apply NoDup_bind; [| |apply NoDup_seqZ].
  { intros ty1 ty2 u _ _ H1 H2.
    repeat setoid_rewrite list_elem_of_bind in H1.
    repeat setoid_rewrite list_elem_of_bind in H2.
    destruct H1 as (? & H1 & _). destruct H2 as (? & H2 & _).
    apply list_elem_of_singleton in H1, H2. by simplify_eq. }
  intros ty _. apply NoDup_bind; [| |apply NoDup_seqZ].
  { intros tx1 tx2 u _ _ H1 H2.
    apply list_elem_of_singleton in H1, H2. by simplify_eq. }
  intros tx _. apply NoDup_singleton.
Qed.

Lemma elem_of_unit_cells (u : dim3.t * dim3.t) (e p : Z) :
  (e, p) ∈ unit_cells E L gridDim blockDim u ↔
  e ∈ stride_seq (first_y blockDim u.1 u.2)
        (dim3.y blockDim * dim3.y gridDim) E
  ∧ p ∈ stride_seq (first_x blockDim u.1 u.2)
          (dim3.x blockDim * dim3.x gridDim) L.
Proof.
  unfold unit_cells. repeat setoid_rewrite list_elem_of_bind.
  setoid_rewrite list_elem_of_singleton. split.
  - intros (e' & (p' & Heq & Hp) & He). by simplify_eq.
  - intros [He Hp]. exists e. split; [|done]. exists p. done.
Qed.

Lemma NoDup_unit_cells (u : dim3.t * dim3.t) :
  NoDup (unit_cells E L gridDim blockDim u).
Proof.
  unfold unit_cells.
  apply NoDup_bind; [| |apply NoDup_stride_seq; nia].
  { intros e1 e2 c _ _ H1 H2. apply list_elem_of_bind in H1, H2.
    destruct H1 as (? & H1 & _). destruct H2 as (? & H2 & _).
    apply list_elem_of_singleton in H1, H2. by simplify_eq. }
  intros e _. apply NoDup_bind; [| |apply NoDup_stride_seq; nia].
  { intros p1 p2 c _ _ H1 H2.
    apply list_elem_of_singleton in H1, H2. by simplify_eq. }
  intros p _. apply NoDup_singleton.
Qed.

Lemma elem_of_all_cells (e p : Z) :
  (e, p) ∈ all_cells E L ↔ 0 ≤ e < E ∧ 0 ≤ p < L.
Proof.
  unfold all_cells. repeat setoid_rewrite list_elem_of_bind.
  setoid_rewrite list_elem_of_singleton. setoid_rewrite elem_of_seqZ. split.
  - intros (e' & (p' & Heq & Hp) & He). simplify_eq. lia.
  - intros [He Hp]. exists e. split; [|lia]. exists p. split; [done|lia].
Qed.

Lemma NoDup_all_cells : NoDup (all_cells E L).
Proof.
  unfold all_cells. apply NoDup_bind; [| |apply NoDup_seqZ].
  { intros e1 e2 c _ _ H1 H2. apply list_elem_of_bind in H1, H2.
    destruct H1 as (? & H1 & _). destruct H2 as (? & H2 & _).
    apply list_elem_of_singleton in H1, H2. by simplify_eq. }
  intros e _. apply NoDup_bind; [| |apply NoDup_seqZ].
  { intros p1 p2 c _ _ H1 H2.
    apply list_elem_of_singleton in H1, H2. by simplify_eq. }
  intros p _. apply NoDup_singleton.
Qed.

(** A pair belongs to one unit only. *)
Lemma unit_cells_disjoint (u1 u2 : dim3.t * dim3.t) (c : Z * Z) :
  u1 ∈ units gridDim blockDim → u2 ∈ units gridDim blockDim →
  c ∈ unit_cells E L gridDim blockDim u1 →
  c ∈ unit_cells E L gridDim blockDim u2 → u1 = u2.
Proof.
  destruct u1 as [bi1 ti1], u2 as [bi2 ti2], c as [e p].
  rewrite !elem_of_units, !elem_of_unit_cells. simpl.
  rewrite !elem_of_stride_seq by nia. unfold first_x, first_y.
  intros [[Hbx1 Hby1] [Htx1 Hty1]] [[Hbx2 Hby2] [Htx2 Hty2]].
  intros [[_ Hey1] [_ Hpx1]] [[_ Hey2] [_ Hpx2]].
  pose proof (axis_start_range _ _ _ _ Hby1 Hty1) as Ry1.
  pose proof (axis_start_range _ _ _ _ Hby2 Hty2) as Ry2.
  pose proof (axis_start_range _ _ _ _ Hbx1 Htx1) as Rx1.
  pose proof (axis_start_range _ _ _ _ Hbx2 Htx2) as Rx2.
  pose proof (congruent_starts _ _ _ _ Ry1 Ry2 Hey1 Hey2) as Hy.
  pose proof (congruent_starts _ _ _ _ Rx1 Rx2 Hpx1 Hpx2) as Hx.
  apply axis_start_inj in Hy as [??]; [|lia..].
  apply axis_start_inj in Hx as [??]; [|lia..].
  destruct bi1, bi2, ti1, ti2; simpl in *. by simplify_eq.
Qed.

(** Across all units every pair of the iteration space is visited exactly
    once. *)
Lemma grid_cells_cover :
  grid_cells E L gridDim blockDim ≡ₚ all_cells E L.
Proof.
  apply NoDup_Permutation.
  - unfold grid_cells. apply NoDup_bind; [| |apply NoDup_units].
    + intros u1 u2 c. apply unit_cells_disjoint.
    + intros u _. apply NoDup_unit_cells.
  - apply NoDup_all_cells.
  - intros [e p]. rewrite elem_of_all_cells. unfold grid_cells.
    rewrite list_elem_of_bind. split.
    + intros ([bi ti] & Hc & Hu). apply elem_of_units in Hu.
      apply elem_of_unit_cells in Hc. simpl in Hc.
      rewrite !elem_of_stride_seq in Hc by nia.
      unfold first_x, first_y in Hc. destruct Hu as [[??] [??]]. nia.
    + intros [He Hp].
      destruct (axis_cover (dim3.y blockDim) (dim3.y gridDim) e)
        as (by_ & ty & ? & ? & ? & ?); [lia..|].
      destruct (axis_cover (dim3.x blockDim) (dim3.x gridDim) p)
        as (bx & tx & ? & ? & ? & ?); [lia..|].
      exists (dim3.mk bx by_, dim3.mk tx ty). split.
      * apply elem_of_unit_cells. simpl.
        rewrite !elem_of_stride_seq by nia. unfold first_x, first_y. simpl.
        repeat split; (done || lia).
      * apply elem_of_units. simpl. lia.
Qed.

End GridFacts.

(** ** What a launch stores *)

Section KernelRun.

Context {R W : Type}.
Variables (iw xw : Z) (fuel : nat) (E L : Z) (gridDim blockDim : dim3.t).
Hypothesis ok : launch_ok iw xw fuel E L gridDim blockDim.

Variable endpoints : Z → option R.
Variable cellf : R → Z → option (list W).

(** No load and no operator call of the iteration space faults. *)
Hypothesis endpoints_ok : ∀ e, 0 ≤ e < E → is_Some (endpoints e).
Hypothesis cells_ok :
  ∀ e p r, 0 ≤ e < E → 0 ≤ p < L → endpoints e = Some r → is_Some (cellf r p).

Lemma list_bind_assoc {A B C : Type} (f : A → list B) (g : B → list C)
    (l : list A) :
  (l ≫= f) ≫= g = l ≫= (λ x, f x ≫= g).
Proof.
  induction l as [|x l IH]; [done|].
  rewrite !bind_cons, bind_app. by rewrite IH.
Qed.

Lemma fmap_list_bind {A B C : Type} (g : B → C) (f : A → list B)
    (l : list A) :
  g <$> (l ≫= f) = l ≫= (λ x, g <$> f x).
Proof.
  induction l as [|x l IH]; [done|].
  by rewrite !bind_cons, fmap_app, IH.
Qed.

Lemma NoDup_bind_inj {A B : Type} (f : A → list B) (l : list A)
    (x1 x2 : A) (y : B) :
  NoDup (l ≫= f) → x1 ∈ l → x2 ∈ l → y ∈ f x1 → y ∈ f x2 → x1 = x2.
Proof.
  induction l as [|x l IH]; intros Hnd H1 H2 Hy1 Hy2; [by inv H1|].
  rewrite bind_cons in Hnd. apply NoDup_app in Hnd as (_ & Hdisj & Hnd).
  apply elem_of_cons in H1 as [->|H1], H2 as [->|H2].
  - done.
  - exfalso. apply (Hdisj y Hy1). apply list_elem_of_bind. eauto.
  - exfalso. apply (Hdisj y Hy2). apply list_elem_of_bind. eauto.
  - by apply IH.
Qed.

Lemma strided_loop_ext {V : Type} (w b s : Z) (body body' : Z → option (list V))
    (n : nat) :
  (∀ i, body i = body' i) →
  ∀ i0, strided_loop n w b s body i0 = strided_loop n w b s body' i0.
Proof.
  intros Hext. induction n as [|n IH]; intros i0; [done|].
  simpl. rewrite Hext. destruct (i0 <? b); [|done].
  destruct (body' i0); [|done]. simpl. by rewrite IH.
Qed.

Lemma cell_stores_run (e p : Z) (r : R) :
  0 ≤ e < E → 0 ≤ p < L → endpoints e = Some r →
  cellf r p = Some (cell_stores endpoints cellf (e, p)).
Proof.
  intros He Hp Hr. unfold cell_stores. simpl. rewrite Hr. simpl.
  destruct (cells_ok e p r He Hp Hr) as [ws ->]. done.
Qed.

Lemma two_level_kernel_unit (blockIdx threadIdx : dim3.t) :
  (blockIdx, threadIdx) ∈ units gridDim blockDim →
  two_level_kernel iw xw fuel E L endpoints cellf
    gridDim blockDim blockIdx threadIdx
  = Some (unit_cells E L gridDim blockDim (blockIdx, threadIdx)
          ≫= cell_stores endpoints cellf).
Proof.
  intros Hu. destruct ok.
  apply elem_of_units in Hu as [[Hbx Hby] [Htx Hty]]; [|done..].
  pose proof (axis_start_range _ _ _ _ Hby Hty) as Ry.
  pose proof (axis_start_range _ _ _ _ Hbx Htx) as Rx.
  unfold two_level_kernel.
  rewrite !uwrap32_small by lia. rewrite !wrap_nonneg by lia.
  unfold unit_cells, first_x, first_y. simpl.
  rewrite list_bind_assoc.
  apply strided_loop_run; [done | nia | lia | lia | lia |].
  intros e He. apply elem_of_stride_seq in He as [He _]; [|nia].
  destruct (endpoints_ok e) as [r Hr]; [lia|]. rewrite Hr. simpl.
  rewrite list_bind_assoc.
  apply strided_loop_run; [done | nia | lia | lia | lia |].
  intros p Hp. apply elem_of_stride_seq in Hp as [Hp _]; [|nia].
  rewrite bind_singleton. apply cell_stores_run; [lia | lia | done].
Qed.

(** The stores of the whole grid, unit after unit. *)
Lemma two_level_kernel_grid :
  run_grid (two_level_kernel iw xw fuel E L endpoints cellf) gridDim blockDim
  = Some (grid_cells E L gridDim blockDim ≫= cell_stores endpoints cellf).
Proof.
  unfold run_grid, grid_cells.
  rewrite (mapM_total _
             (λ u, unit_cells E L gridDim blockDim u
                   ≫= cell_stores endpoints cellf)).
  - simpl. by rewrite join_fmap_bind, list_bind_assoc.
  - intros [bi ti] Hu. by apply two_level_kernel_unit.
Qed.

End KernelRun.

(** ** The two kernels *)

Section KernelShape.

Variables (iw : Z) (fuel : nat).
Context {DType : Type}.
Variables (op : BinaryOp DType) (UseBcast UseIdx : bool).
Variables (ufeat vfeat : ptr DType) (edge_map : ptr Z).
Variables (N M E reduce_size : Z) (ubcast_off vbcast_off : ptr Z).
Variables (ufeat_len vfeat_len out_len : Z).

Lemma SDDMMKernel_shape (enc : encoding)
    (gridDim blockDim blockIdx threadIdx : dim3.t) :
  SDDMMKernel iw fuel op UseBcast UseIdx enc ufeat vfeat edge_map
    N M E reduce_size ubcast_off vbcast_off ufeat_len vfeat_len out_len
    gridDim blockDim blockIdx threadIdx
  = two_level_kernel iw (tx_bits enc) fuel E out_len
      (endpoints iw fuel UseIdx enc edge_map N)
      (cell_of iw op UseBcast ufeat vfeat reduce_size ubcast_off vbcast_off
         ufeat_len vfeat_len out_len)
      gridDim blockDim blockIdx threadIdx.
Proof.
  destruct enc as [row col|indptr indices]; simpl.
  - unfold SDDMMCooKernel, two_level_kernel. apply strided_loop_ext.
    intros e. unfold SDDMMCoo_edge, coo_endpoints.
    destruct (_ldg (row +ₚ e)); [|done]. simpl.
    destruct (_ldg (col +ₚ e)); [|done]. simpl.
    destruct (if UseIdx then _ldg (edge_map +ₚ e) else Some e); done.
  - unfold SDDMMCsrKernel, two_level_kernel. apply strided_loop_ext.
    intros e. unfold SDDMMCsr_edge, csr_endpoints.
    destruct (BinarySearchSrc iw fuel indptr _ e); [|done]. simpl.
    destruct (_ldg (indices +ₚ e)); [|done]. simpl.
    destruct (if UseIdx then _ldg (edge_map +ₚ e) else Some e); done.
Qed.

Lemma run_grid_ext {W : Type}
    (k k' : dim3.t → dim3.t → dim3.t → dim3.t → option (list W))
    (gridDim blockDim : dim3.t) :
  (∀ bi ti, k gridDim blockDim bi ti = k' gridDim blockDim bi ti) →
  run_grid k gridDim blockDim = run_grid k' gridDim blockDim.
Proof.
  intros Hk. unfold run_grid. f_equal.
  induction (units gridDim blockDim) as [|u us IH]; [done|].
  simpl. by rewrite Hk, IH.
Qed.

Lemma launch_unfold (enc : encoding) (gridDim blockDim : dim3.t)
    (out : list DType) :
  launch iw fuel op UseBcast UseIdx enc gridDim blockDim ufeat vfeat out
    edge_map N M E reduce_size ubcast_off vbcast_off
    ufeat_len vfeat_len out_len
  = run_grid
      (SDDMMKernel iw fuel op UseBcast UseIdx enc ufeat vfeat edge_map
         N M E reduce_size ubcast_off vbcast_off ufeat_len vfeat_len out_len)
      gridDim blockDim
    ≫= store_all out.
Proof. by destruct enc. Qed.

End KernelShape.

(** ** Stores *)

Section StoreFacts.

Context {A : Type}.
Implicit Types (ws : list (Z * A)) (b : list A).

Lemma store_Some b (i : Z) (v : A) :
  0 ≤ i < Z.of_nat (length b) → store b i v = Some (<[Z.to_nat i := v]> b).
Proof.
  intros Hi. unfold store.
  destruct (Z.ltb_spec i 0); [lia|].
  destruct (Z.leb_spec (Z.of_nat (length b)) i); [lia|]. done.
Qed.

Lemma store_inv b (i : Z) (v : A) b' :
  store b i v = Some b' →
  0 ≤ i < Z.of_nat (length b) ∧ b' = <[Z.to_nat i := v]> b.
Proof.
  unfold store.
  destruct (Z.ltb_spec i 0); [done|].
  destruct (Z.leb_spec (Z.of_nat (length b)) i); [done|].
  simpl. intros [= <-]. split; [lia|done].
Qed.

Lemma store_all_total ws :
  ∀ b, (∀ w, w ∈ ws → 0 ≤ w.1 < Z.of_nat (length b)) →
       is_Some (store_all b ws).
Proof.
  induction ws as [|[i v] ws IH]; intros b Hin; simpl; [by eexists|].
  rewrite store_Some by (apply (Hin (i, v)), elem_of_cons; by left). simpl.
  apply IH. intros w Hw. rewrite length_insert.
  apply Hin, elem_of_cons. by right.
Qed.

Lemma store_all_in_bounds ws :
  ∀ b r, store_all b ws = Some r →
         ∀ w, w ∈ ws → 0 ≤ w.1 < Z.of_nat (length b).
Proof.
  induction ws as [|[i v] ws IH]; intros b r Hrun w Hw; [by inv Hw|].
  simpl in Hrun. destruct (store b i v) as [b1|] eqn:Hst; [|done].
  apply store_inv in Hst as [Hi ->]. simpl in Hrun.
  apply elem_of_cons in Hw as [->|Hw]; [done|].
  specialize (IH _ _ Hrun w Hw). by rewrite length_insert in IH.
Qed.

(** After a run of stores every cell holds the value last stored to it. *)
Lemma store_all_lookup ws :
  ∀ b r, store_all b ws = Some r →
         length r = length b
         ∧ ∀ i, 0 ≤ i → r !! Z.to_nat i = last_store ws i (b !! Z.to_nat i).
Proof.
  induction ws as [|[a v] ws IH]; intros b r Hrun; simpl in Hrun.
  - by simplify_eq.
  - destruct (store b a v) as [b1|] eqn:Hst; [|done].
    apply store_inv in Hst as [Ha ->]. simpl in Hrun.
    destruct (IH _ _ Hrun) as [Hlen Hlk]. rewrite length_insert in Hlen.
    split; [done|]. intros i Hi. rewrite Hlk by done.
    unfold last_store. simpl. f_equal.
    destruct (Z.eqb_spec a i) as [->|Hne].
    + apply list_lookup_insert_eq. lia.
    + apply list_lookup_insert_ne. lia.
Qed.

Lemma last_store_absent ws (i : Z) (old : option A) :
  i ∉ ws.*1 → last_store ws i old = old.
Proof.
  revert old. induction ws as [|[a v] ws IH]; intros old Hi; [done|].
  rewrite fmap_cons, not_elem_of_cons in Hi. destruct Hi as [Hne Hi].
  unfold last_store. simpl. destruct (Z.eqb_spec a i); [done|].
  by apply IH.
Qed.

Lemma last_store_present ws (i : Z) (old old' : option A) :
  i ∈ ws.*1 → last_store ws i old = last_store ws i old'.
Proof.
  revert old old'. induction ws as [|[a v] ws IH]; intros old old' Hi.
  - by inv Hi.
  - unfold last_store. simpl. destruct (Z.eqb_spec a i) as [->|Hne]; [done|].
    apply IH. rewrite fmap_cons in Hi. simpl in Hi.
    apply elem_of_cons in Hi as [?|?]; [congruence|done].
Qed.

Lemma last_store_idemp ws (i : Z) (old : option A) :
  last_store ws i (last_store ws i old) = last_store ws i old.
Proof.
  destruct (decide (i ∈ ws.*1)) as [Hin|Hout].
  - by apply last_store_present.
  - by rewrite !last_store_absent.
Qed.

Lemma last_store_unique ws (i : Z) (v : A) (old : option A) :
  NoDup ws.*1 → (i, v) ∈ ws → last_store ws i old = Some v.
Proof.
  revert old. induction ws as [|[a x] ws IH]; intros old Hnd Hin; [by inv Hin|].
  rewrite fmap_cons in Hnd. apply NoDup_cons in Hnd as [Hfresh Hnd].
  unfold last_store. simpl. apply elem_of_cons in Hin as [Heq|Hin].
  - simplify_eq. rewrite Z.eqb_refl. by apply last_store_absent.
  - by apply IH.
Qed.

(** The order of stores to pairwise distinct cells does not matter. *)
Lemma last_store_perm ws ws' (i : Z) (old : option A) :
  NoDup ws.*1 → ws ≡ₚ ws' → last_store ws i old = last_store ws' i old.
Proof.
  intros Hnd Hp. assert (NoDup ws'.*1) as Hnd' by by rewrite <- Hp.
  destruct (decide (i ∈ ws.*1)) as [Hin|Hout].
  - apply list_elem_of_fmap in Hin as ([a v] & -> & Hin). simpl.
    rewrite (last_store_unique ws a v) by done.
    rewrite (last_store_unique ws' a v); [done | done |by rewrite <- Hp].
  - rewrite last_store_absent by done.
    rewrite last_store_absent; [done|by rewrite <- Hp].
Qed.

Lemma lookup_Z_eq b b' :
  length b = length b' →
  (∀ i, 0 ≤ i → b !! Z.to_nat i = b' !! Z.to_nat i) → b = b'.
Proof.
  intros Hlen Hlk. apply list_eq. intros n.
  specialize (Hlk (Z.of_nat n)). rewrite Nat2Z.id in Hlk. apply Hlk. lia.
Qed.

Lemma store_all_perm ws ws' b :
  NoDup ws.*1 → ws ≡ₚ ws' → store_all b ws = store_all b ws'.
Proof.
  intros Hnd Hp.
  destruct (store_all b ws) as [r|] eqn:Hr.
  - destruct (store_all_total ws' b) as [r' Hr'].
    { intros w Hw. eapply store_all_in_bounds; [done|by rewrite Hp]. }
    rewrite Hr'. f_equal.
    apply store_all_lookup in Hr as [Hlen Hlk].
    apply store_all_lookup in Hr' as [Hlen' Hlk'].
    apply lookup_Z_eq; [congruence|]. intros i Hi.
    rewrite Hlk, Hlk' by done. by apply last_store_perm.
  - destruct (store_all b ws') as [r'|] eqn:Hr'; [|done].
    destruct (store_all_total ws b) as [r Hr2]; [|congruence].
    intros w Hw. eapply store_all_in_bounds; [done|by rewrite <- Hp].
Qed.

(** Running the same stores again changes nothing. *)
Lemma store_all_idemp ws b r :
  store_all b ws = Some r → store_all r ws = Some r.
Proof.
  intros Hr. pose proof (store_all_in_bounds _ _ _ Hr) as Hin.
  pose proof (store_all_lookup _ _ _ Hr) as [Hlen Hlk].
  destruct (store_all_total ws r) as [r' Hr'].
  { intros w Hw. rewrite Hlen. by apply Hin. }
  rewrite Hr'. f_equal.
  apply store_all_lookup in Hr' as [Hlen' Hlk'].
  apply lookup_Z_eq; [done|]. intros i Hi.
  by rewrite Hlk', !Hlk, last_store_idemp.
Qed.

End StoreFacts.

(** ** A launch of either kernel *)

Section SddmmFacts.

Variables (iw : Z) (fuel : nat).
Context {DType : Type}.
Variables (op : BinaryOp DType) (UseBcast UseIdx : bool).
Variables (enc : encoding) (ufeat vfeat : ptr DType) (edge_map : ptr Z).
Variables (N M E reduce_size : Z) (ubcast_off vbcast_off : ptr Z).
Variables (ufeat_len vfeat_len out_len : Z).
Variables (gridDim blockDim : dim3.t).

Local Abbreviation resolve := (endpoints iw fuel UseIdx enc edge_map N).
Local Abbreviation cellf :=
  (cell_of iw op UseBcast ufeat vfeat reduce_size ubcast_off vbcast_off
     ufeat_len vfeat_len out_len).
Local Abbreviation kernel :=
  (SDDMMKernel iw fuel op UseBcast UseIdx enc ufeat vfeat edge_map
     N M E reduce_size ubcast_off vbcast_off ufeat_len vfeat_len out_len).

Hypothesis ok : launch_ok iw (tx_bits enc) fuel E out_len gridDim blockDim.
Hypothesis endpoints_ok : ∀ e, 0 ≤ e < E → is_Some (resolve e).
Hypothesis cells_ok :
  ∀ e p r, 0 ≤ e < E → 0 ≤ p < out_len → resolve e = Some r →
           is_Some (cellf r p).

Lemma SDDMM_grid :
  run_grid kernel gridDim blockDim
  = Some (grid_cells E out_len gridDim blockDim ≫= cell_stores resolve cellf).
Proof.
  erewrite run_grid_ext; [|intros; apply SDDMMKernel_shape].
  by apply two_level_kernel_grid.
Qed.

Lemma SDDMM_stores_perm :
  grid_cells E out_len gridDim blockDim ≫= cell_stores resolve cellf
  ≡ₚ all_cells E out_len ≫= cell_stores resolve cellf.
Proof. destruct ok. by rewrite grid_cells_cover. Qed.

(** The store of one pair. *)
Lemma cell_stores_shape (e p : Z) :
  0 ≤ e < E → 0 ≤ p < out_len →
  ∃ src dst eid lhs_add rhs_add val,
    resolve e = Some (src, dst, eid)
    ∧ offset_of UseBcast ubcast_off p = Some lhs_add
    ∧ offset_of UseBcast vbcast_off p = Some rhs_add
    ∧ Call op
        ((if use_lhs op then ufeat +ₚ wrap 64 (src * ufeat_len) else nullptr)
         +ₚ wrap 64 (wrap iw lhs_add * reduce_size))
        ((if use_rhs op then vfeat +ₚ wrap 64 (dst * vfeat_len) else nullptr)
         +ₚ wrap 64 (wrap iw rhs_add * reduce_size))
        reduce_size = Some val
    ∧ cell_stores resolve cellf (e, p) = [(wrap 64 (eid * out_len) + p, val)].
Proof.
  intros He Hp. destruct (endpoints_ok e He) as [[[src dst] eid] Hr].
  destruct (cells_ok e p _ He Hp Hr) as [ws Hws].
  unfold cell_stores. simpl. rewrite Hr. simpl. rewrite Hws. simpl.
  unfold cell_of, feature_body in Hws. simpl in Hws. unfold offset_of.
  destruct (if UseBcast then pindex ubcast_off p else Some p)
    as [la|]; [|done].
  destruct (if UseBcast then pindex vbcast_off p else Some p)
    as [ra|]; [|done].
  simpl in Hws.
  destruct (Call op _ _ reduce_size) as [val|] eqn:Hcall; [|done].
  simpl in Hws. simplify_eq.
  exists src, dst, eid, la, ra, val. done.
Qed.

Lemma elem_of_SDDMM_stores (w : Z * DType) :
  w ∈ all_cells E out_len ≫= cell_stores resolve cellf ↔
  ∃ e p, 0 ≤ e < E ∧ 0 ≤ p < out_len ∧ cell_stores resolve cellf (e, p) = [w].
Proof.
  rewrite list_elem_of_bind. split.
  - intros ([e p] & Hw & Hc). apply elem_of_all_cells in Hc as [He Hp].
    destruct (cell_stores_shape e p He Hp)
      as (? & ? & ? & ? & ? & ? & _ & _ & _ & _ & Hst).
    rewrite Hst in Hw. apply list_elem_of_singleton in Hw as ->.
    by exists e, p.
  - intros (e & p & He & Hp & Hst). exists (e, p). split.
    + rewrite Hst. by apply list_elem_of_singleton.
    + by apply elem_of_all_cells.
Qed.

(** Distinct pairs store to distinct cells when the output rows of distinct
    edges are distinct and [eid * out_len] does not overflow. *)
Hypothesis rows_exact :
  ∀ e src dst eid, 0 ≤ e < E → resolve e = Some (src, dst, eid) →
                   fits 64 (eid * out_len).
Hypothesis rows_distinct :
  ∀ e e' r r', 0 ≤ e < E → 0 ≤ e' < E →
               resolve e = Some r → resolve e' = Some r' → r.2 = r'.2 → e = e'.

Lemma row_offset_inj (eid eid' p p' : Z) :
  0 ≤ p < out_len → 0 ≤ p' < out_len →
  eid * out_len + p = eid' * out_len + p' → eid = eid' ∧ p = p'.
Proof. intros Hp Hp' Heq. by apply (axis_start_inj out_len). Qed.

Lemma SDDMM_stores_NoDup :
  NoDup (all_cells E out_len ≫= cell_stores resolve cellf).*1.
Proof.
  assert (Hfst : ∀ c, c ∈ all_cells E out_len →
            ∃ src dst eid val, resolve c.1 = Some (src, dst, eid)
              ∧ cell_stores resolve cellf c = [(eid * out_len + c.2, val)]).
  { intros [e p] Hc. apply elem_of_all_cells in Hc as [He Hp]. simpl.
    destruct (cell_stores_shape e p He Hp)
      as (src & dst & eid & ? & ? & val & Hr & _ & _ & _ & Hst).
    exists src, dst, eid, val. split; [done|]. rewrite Hst.
    rewrite wrap_small; [done | lia |]. by eapply rows_exact. }
  rewrite fmap_list_bind.
  apply NoDup_bind; [| |apply NoDup_all_cells].
  - intros [e p] [e' p'] a Hc Hc' Ha Ha'.
    destruct (Hfst _ Hc) as (? & ? & eid & ? & Hr & Hst).
    destruct (Hfst _ Hc') as (? & ? & eid' & ? & Hr' & Hst').
    simpl in *. rewrite Hst in Ha. rewrite Hst' in Ha'. simpl in *.
    apply list_elem_of_singleton in Ha, Ha'. subst a.
    apply elem_of_all_cells in Hc as [He Hp].
    apply elem_of_all_cells in Hc' as [He' Hp'].
    apply row_offset_inj in Ha' as [-> ->]; [|done..].
    f_equal. by eapply (rows_distinct e e').
  - intros c Hc. destruct (Hfst _ Hc) as (? & ? & ? & ? & _ & ->).
    simpl. apply NoDup_singleton.
Qed.

Lemma SDDMM_unit (blockIdx threadIdx : dim3.t) :
  (blockIdx, threadIdx) ∈ units gridDim blockDim →
  kernel gridDim blockDim blockIdx threadIdx
  = Some (unit_cells E out_len gridDim blockDim (blockIdx, threadIdx)
          ≫= cell_stores resolve cellf).
Proof.
  intros Hu. rewrite SDDMMKernel_shape.
  by apply two_level_kernel_unit.
Qed.

(** The stores of two different units go to different cells. *)
Lemma SDDMM_units_disjoint (u1 u2 : dim3.t * dim3.t) (a : Z) :
  u1 ∈ units gridDim blockDim → u2 ∈ units gridDim blockDim → u1 ≠ u2 →
  a ∈ (unit_cells E out_len gridDim blockDim u1
       ≫= cell_stores resolve cellf).*1 →
  a ∉ (unit_cells E out_len gridDim blockDim u2
       ≫= cell_stores resolve cellf).*1.
Proof.
  intros Hu1 Hu2 Hne Ha1 Ha2. destruct ok.
  rewrite fmap_list_bind in Ha1, Ha2.
  apply list_elem_of_bind in Ha1 as (c1 & Ha1 & Hc1).
  apply list_elem_of_bind in Ha2 as (c2 & Ha2 & Hc2).
  assert (c1 ∈ all_cells E out_len) as Hin1.
  { rewrite <- (grid_cells_cover E out_len gridDim blockDim) by done.
    apply list_elem_of_bind. eauto. }
  assert (c2 ∈ all_cells E out_len) as Hin2.
  { rewrite <- (grid_cells_cover E out_len gridDim blockDim) by done.
    apply list_elem_of_bind. eauto. }
  assert (c1 = c2) as <-.
  { pose proof SDDMM_stores_NoDup as Hnd. rewrite fmap_list_bind in Hnd.
    by eapply (NoDup_bind_inj _ _ c1 c2 a Hnd). }
  apply Hne. by eapply (unit_cells_disjoint E out_len gridDim blockDim).
Qed.

(** The output of a launch: the stores of the iteration space applied to the
    buffer, in any order. *)
Lemma SDDMM_launch (out : list DType) :
  launch iw fuel op UseBcast UseIdx enc gridDim blockDim ufeat vfeat out
    edge_map N M E reduce_size ubcast_off vbcast_off
    ufeat_len vfeat_len out_len
  = store_all out (all_cells E out_len ≫= cell_stores resolve cellf).
Proof.
  rewrite launch_unfold, SDDMM_grid. simpl.
  symmetry. apply store_all_perm; [apply SDDMM_stores_NoDup|].
  symmetry. apply SDDMM_stores_perm.
Qed.

End SddmmFacts.

(** ** Comparing two launches *)

Section Comparison.

Context {R W : Type}.

Lemma two_level_kernel_ext (iw xw : Z) (fuel : nat) (E L : Z)
    (resolve resolve' : Z → option R) (cellf cellf' : R → Z → option (list W))
    (gridDim blockDim blockIdx threadIdx : dim3.t) :
  (∀ e, resolve e = resolve' e) →
  (∀ r p, cellf r p = cellf' r p) →
  two_level_kernel iw xw fuel E L resolve cellf
    gridDim blockDim blockIdx threadIdx
  = two_level_kernel iw xw fuel E L resolve' cellf'
      gridDim blockDim blockIdx threadIdx.
Proof.
  intros Hr Hc. unfold two_level_kernel. apply strided_loop_ext.
  intros e. rewrite Hr. destruct (resolve' e) as [r|]; [|done]. simpl.
  apply strided_loop_ext. intros p. apply Hc.
Qed.

Lemma list_bind_ext_in {A B : Type} (f g : A → list B) (l : list A) :
  (∀ x, x ∈ l → f x = g x) → l ≫= f = l ≫= g.
Proof. intros Hfg. apply Forall_bind_ext, Forall_forall, Hfg. Qed.

Lemma cell_stores_ext (resolve : Z → option R)
    (cellf cellf' : R → Z → option (list W)) (c : Z * Z) :
  (∀ r, resolve c.1 = Some r → cellf r c.2 = cellf' r c.2) →
  cell_stores resolve cellf c = cell_stores resolve cellf' c.
Proof.
  intros Hc. unfold cell_stores. destruct (resolve c.1) as [r|]; [|done].
  simpl. by rewrite Hc.
Qed.

End Comparison.

(** The output row of an edge: [UseIdx ? edge_map[e] : e], in both
    resolvers. *)
Lemma endpoints_eid (iw : Z) (fuel : nat) (UseIdx : bool) (enc : encoding)
    (edge_map : ptr Z) (N e src dst eid : Z) :
  endpoints iw fuel UseIdx enc edge_map N e = Some (src, dst, eid) →
  (if UseIdx then _ldg (edge_map +ₚ e) else Some e) = Some eid.
Proof.
  destruct enc as [row col|indptr indices]; simpl;
    unfold coo_endpoints, csr_endpoints; intros Hr.
  - destruct (_ldg (row +ₚ e)); [|done].
    destruct (_ldg (col +ₚ e)); [|done]. simpl in Hr.
    destruct (if UseIdx then _ldg (edge_map +ₚ e) else Some e); [|done].
    simpl in Hr. by simplify_eq.
  - destruct (BinarySearchSrc iw fuel indptr _ e); [|done].
    destruct (_ldg (indices +ₚ e)); [|done]. simpl in Hr.
    destruct (if UseIdx then _ldg (edge_map +ₚ e) else Some e); [|done].
    simpl in Hr. by simplify_eq.
Qed.

(** ** The output buffer of a launch *)

Section LaunchFacts.

Variables (iw : Z) (fuel : nat).
Context {DType : Type}.
Variables (op : BinaryOp DType) (UseBcast UseIdx : bool).
Variables (enc : encoding) (ufeat vfeat : ptr DType) (edge_map : ptr Z).
Variables (N M E reduce_size : Z) (ubcast_off vbcast_off : ptr Z).
Variables (ufeat_len vfeat_len out_len : Z).
Variables (gridDim blockDim : dim3.t).

Local Abbreviation resolve := (endpoints iw fuel UseIdx enc edge_map N).
Local Abbreviation cellf :=
  (cell_of iw op UseBcast ufeat vfeat reduce_size ubcast_off vbcast_off
     ufeat_len vfeat_len out_len).

Hypothesis ok : launch_ok iw (tx_bits enc) fuel E out_len gridDim blockDim.
Hypothesis endpoints_ok : ∀ e, 0 ≤ e < E → is_Some (resolve e).
Hypothesis cells_ok :
  ∀ e p r, 0 ≤ e < E → 0 ≤ p < out_len → resolve e = Some r →
           is_Some (cellf r p).
Hypothesis rows_distinct :
  ∀ e e' r r', 0 ≤ e < E → 0 ≤ e' < E →
               resolve e = Some r → resolve e' = Some r' → r.2 = r'.2 → e = e'.

(** The size of the output buffer: every output row lies inside it and its
    length is an [int64_t] value. *)
Variable size : nat.
Hypothesis size_fits : Z.of_nat size ≤ max_signed 64.
Hypothesis rows_in_bounds :
  ∀ e src dst eid, 0 ≤ e < E → resolve e = Some (src, dst, eid) →
                   0 ≤ eid ∧ eid * out_len + out_len ≤ Z.of_nat size.

Lemma rows_exact_of_bounds (e src dst eid : Z) :
  0 ≤ e < E → resolve e = Some (src, dst, eid) → fits 64 (eid * out_len).
Proof.
  intros He Hr. destruct (rows_in_bounds e src dst eid He Hr) as [H0 Hle].
  pose proof (positions_nonneg _ _ _ _ _ _ _ ok).
  assert (0 < 2 ^ (64 - 1)) by done.
  unfold fits. nia.
Qed.

Lemma SDDMM_stores_in_bounds (w : Z * DType) :
  w ∈ all_cells E out_len ≫= cell_stores resolve cellf →
  0 ≤ w.1 < Z.of_nat size.
Proof.
  intros Hw. eapply elem_of_SDDMM_stores in Hw; [|done..].
  destruct Hw as (e & p & He & Hp & Hst).
  edestruct cell_stores_shape
    as (src & dst & eid & la & ra & val & Hr & _ & _ & _ & Hst');
    [exact endpoints_ok | exact cells_ok | exact He | exact Hp |].
  rewrite Hst in Hst'. simplify_eq. simpl.
  rewrite wrap_small; [|lia|by eapply rows_exact_of_bounds].
  destruct (rows_in_bounds e src dst eid He Hr). nia.
Qed.

(** A launch on a buffer of that size succeeds; afterwards the cell of each
    pair holds the value stored for the pair and every other cell is
    unchanged. *)
Lemma SDDMM_launch_result (out : list DType) :
  length out = size →
  ∃ out1,
    launch iw fuel op UseBcast UseIdx enc gridDim blockDim ufeat vfeat out
      edge_map N M E reduce_size ubcast_off vbcast_off
      ufeat_len vfeat_len out_len = Some out1
    ∧ store_all out (all_cells E out_len ≫= cell_stores resolve cellf)
      = Some out1
    ∧ length out1 = size
    ∧ (∀ a v, (a, v) ∈ all_cells E out_len ≫= cell_stores resolve cellf →
              out1 !! Z.to_nat a = Some v)
    ∧ (∀ i, 0 ≤ i →
            i ∉ (all_cells E out_len ≫= cell_stores resolve cellf).*1 →
            out1 !! Z.to_nat i = out !! Z.to_nat i).
Proof.
  intros Hlen.
  pose proof (SDDMM_stores_NoDup iw fuel op UseBcast UseIdx enc ufeat vfeat
                edge_map N E reduce_size ubcast_off vbcast_off ufeat_len
                vfeat_len out_len endpoints_ok cells_ok rows_exact_of_bounds
                rows_distinct) as Hnd.
  rewrite SDDMM_launch by (done || apply rows_exact_of_bounds).
  destruct (store_all_total
              (all_cells E out_len ≫= cell_stores resolve cellf) out)
    as [out1 Hrun].
  { intros w Hw. rewrite Hlen. by apply SDDMM_stores_in_bounds. }
  exists out1. split; [done|]. split; [done|].
  destruct (store_all_lookup _ _ _ Hrun) as [Hl Hlk].
  split; [congruence|]. split.
  - intros a v Hav. rewrite Hlk.
    + by apply last_store_unique.
    + apply (SDDMM_stores_in_bounds (a, v) Hav).
  - intros i Hi Hout. rewrite Hlk by done. by apply last_store_absent.
Qed.

(** The units may run in any order: whatever the order of the stores of the
    grid, the output buffer is the same. *)
Lemma SDDMM_any_schedule (out : list DType) (schedule : list (Z * DType)) :
  schedule ≡ₚ grid_cells E out_len gridDim blockDim
              ≫= cell_stores resolve cellf →
  store_all out schedule
  = launch iw fuel op UseBcast UseIdx enc gridDim blockDim ufeat vfeat out
      edge_map N M E reduce_size ubcast_off vbcast_off
      ufeat_len vfeat_len out_len.
Proof.
  intros Hs. rewrite launch_unfold, SDDMM_grid by done. simpl.
  symmetry. apply store_all_perm; [|done].
  rewrite SDDMM_stores_perm by done.
  apply SDDMM_stores_NoDup; [done | done | apply rows_exact_of_bounds | done].
Qed.

End LaunchFacts.

(** The compressed resolver finds the row that holds the edge. *)
Lemma csr_endpoints_holds (iw : Z) (fuel : nat) (UseIdx : bool)
    (row_ptr : list Z) (indices edge_map : ptr Z) (N E e src dst : Z) :
  2 ≤ iw ≤ 64 → wf_indptr row_ptr N E → 2 * N ≤ max_signed iw →
  (Z.to_nat N < fuel)%nat → 0 ≤ e < E →
  holds_edge row_ptr src e → _ldg (indices +ₚ e) = Some dst →
  csr_endpoints iw fuel UseIdx (ptr_to row_ptr) indices edge_map N e
  = (eid ← (if UseIdx then _ldg (edge_map +ₚ e) else Some e);
     Some (src, dst, eid)).
Proof.
  intros Hiw Hwf Hfit Hfuel He Hsrc Hdst. unfold csr_endpoints.
  pose proof (N_nonneg _ _ _ Hwf) as HN.
  assert (N + 1 ≤ max_signed iw) as HN1.
  { assert (1 ≤ max_signed iw); [|lia]. unfold max_signed.
    assert (2 ^ 1 ≤ 2 ^ (iw - 1)) by (apply Z.pow_le_mono_r; lia). lia. }
  assert (max_signed iw ≤ max_signed 64) as Hle.
  { unfold max_signed.
    assert (2 ^ (iw - 1) ≤ 2 ^ (64 - 1)) by (apply Z.pow_le_mono_r; lia).
    lia. }
  rewrite (wrap_nonneg 64) by lia. rewrite (wrap_nonneg iw) by lia.
  destruct (BinarySearchSrc_spec iw ltac:(lia) row_ptr N E Hwf Hfit fuel e
              He Hfuel) as (i & -> & Hi & Hhold).
  simpl. rewrite Hdst. simpl.
  assert (src = i) as ->; [|done].
  apply (holds_edge_unique row_ptr N E Hwf e); [lia| |done..].
  destruct Hsrc as (_ & a & b & _ & Hb & _).
  apply lookup_lt_Some in Hb. pose proof (indptr_length _ _ _ Hwf). lia.
Qed.


(** ** Arrays of the right length never fault *)

Lemma _ldg_in_bounds {A : Type} (b : list A) (n i : Z) :
  Z.of_nat (length b) = n → 0 ≤ i < n → is_Some (_ldg (ptr_to b +ₚ i)).
Proof.
  intros Hlen Hi. rewrite _ldg_ptr_to by lia. apply lookup_lt_is_Some. lia.
Qed.

(** The coordinate resolver on arrays [row[E]], [col[E]] and, when an edge
    map is used, [edge_map[E]]. *)
Lemma coo_endpoints_total (UseIdx : bool) (row col : list Z)
    (edge_map : ptr Z) (E e : Z) :
  Z.of_nat (length row) = E → Z.of_nat (length col) = E →
  (UseIdx = true →
   ∃ m, edge_map = ptr_to m ∧ Z.of_nat (length m) = E) →
  0 ≤ e < E →
  is_Some (coo_endpoints UseIdx (ptr_to row) (ptr_to col) edge_map e).
Proof.
  intros Hrow Hcol Hmap He. unfold coo_endpoints.
  destruct (_ldg_in_bounds row E e Hrow He) as [src ->].
  destruct (_ldg_in_bounds col E e Hcol He) as [dst ->]. simpl.
  destruct UseIdx; [|by eexists].
  destruct (Hmap eq_refl) as (m & -> & Hm).
  destruct (_ldg_in_bounds m E e Hm He) as [eid ->]. by eexists.
Qed.

(** The compressed resolver on a well-formed [row_ptr[N+1]] and arrays
    [indices[E]] and, when an edge map is used, [edge_map[E]]. *)
Lemma csr_endpoints_total (iw : Z) (fuel : nat) (UseIdx : bool)
    (row_ptr indices : list Z) (edge_map : ptr Z) (N E e : Z) :
  2 ≤ iw ≤ 64 → wf_indptr row_ptr N E → 2 * N ≤ max_signed iw →
  (Z.to_nat N < fuel)%nat →
  Z.of_nat (length indices) = E →
  (UseIdx = true →
   ∃ m, edge_map = ptr_to m ∧ Z.of_nat (length m) = E) →
  0 ≤ e < E →
  is_Some (csr_endpoints iw fuel UseIdx (ptr_to row_ptr) (ptr_to indices)
             edge_map N e).
Proof.
  intros Hiw Hwf Hfit Hfuel Hind Hmap He.
  destruct (BinarySearchSrc_spec iw ltac:(lia) row_ptr N E Hwf Hfit fuel e
              He Hfuel) as (src & _ & _ & Hhold).
  destruct (_ldg_in_bounds indices E e Hind He) as [dst Hdst].
  rewrite (csr_endpoints_holds iw fuel UseIdx row_ptr (ptr_to indices)
             edge_map N E e src dst) by done.
  destruct UseIdx; [|by eexists].
  destruct (Hmap eq_refl) as (m & -> & Hm).
  destruct (_ldg_in_bounds m E e Hm He) as [eid ->]. by eexists.
Qed.

(** ** The entry points *)

Section DispatchFacts.

Variables (iw : Z) (fuel : nat).
Context {DType : Type}.
Variable op : BinaryOp DType.
Variables (FindNumThreads : Z → Z) (CUDA_MAX_NUM_THREADS : Z)
  (FindNumBlocks_y : Z → Z).
Variables (bcast : BcastOff.t) (ufeat vfeat : NDArray DType)
  (out : list DType).

(** Each entry point launches the specialization chosen by the descriptor
    and by the presence of an edge map, on the arrays of the sparse
    structure; the offset tables are null unless the shapes require
    broadcasting. *)
Lemma SDDMMCoo_specialization (coo : COOMatrix) :
  ∃ nblks nthrs,
    SDDMMCoo iw fuel op FindNumThreads CUDA_MAX_NUM_THREADS FindNumBlocks_y
      bcast coo ufeat vfeat out
    = launch_coo iw fuel op (BcastOff.use_bcast bcast)
        (negb (IsNullArray (coo_data coo))) nblks nthrs
        (Ptr ufeat) (Ptr vfeat) out
        (Ptr (coo_row coo)) (Ptr (coo_col coo)) (Ptr (coo_data coo))
        (coo_num_rows coo) (coo_num_cols coo) (shape0 (coo_row coo))
        (BcastOff.reduce_size bcast)
        (if BcastOff.use_bcast bcast
         then ptr_to (BcastOff.lhs_offset bcast) else nullptr)
        (if BcastOff.use_bcast bcast
         then ptr_to (BcastOff.rhs_offset bcast) else nullptr)
        (BcastOff.lhs_len bcast) (BcastOff.rhs_len bcast)
        (BcastOff.out_len bcast).
Proof.
  unfold SDDMMCoo, BCAST_IDX_CTX_SWITCH.
  destruct (BcastOff.use_bcast bcast); by do 2 eexists.
Qed.

Lemma SDDMMCsr_specialization (csr : CSRMatrix) :
  ∃ nblks nthrs,
    SDDMMCsr iw fuel op FindNumThreads CUDA_MAX_NUM_THREADS FindNumBlocks_y
      bcast csr ufeat vfeat out
    = launch_csr iw fuel op (BcastOff.use_bcast bcast)
        (negb (IsNullArray (csr_data csr))) nblks nthrs
        (Ptr ufeat) (Ptr vfeat) out
        (Ptr (csr_indptr csr)) (Ptr (csr_indices csr)) (Ptr (csr_data csr))
        (csr_num_rows csr) (csr_num_cols csr) (shape0 (csr_indices csr))
        (BcastOff.reduce_size bcast)
        (if BcastOff.use_bcast bcast
         then ptr_to (BcastOff.lhs_offset bcast) else nullptr)
        (if BcastOff.use_bcast bcast
         then ptr_to (BcastOff.rhs_offset bcast) else nullptr)
        (BcastOff.lhs_len bcast) (BcastOff.rhs_len bcast)
        (BcastOff.out_len bcast).
Proof.
  unfold SDDMMCsr, BCAST_IDX_CTX_SWITCH.
  destruct (BcastOff.use_bcast bcast); by do 2 eexists.
Qed.

End DispatchFacts.

(** ** Faults *)

Section Faults.

(** A load below the start of a buffer faults. *)
Lemma _ldg_negative {A : Type} (p : ptr A) (k : Z) :
  off p + k < 0 → _ldg (p +ₚ k) = None.
Proof.
  intros Hk. unfold _ldg, padd. simpl. destruct (buf p); [|done]. simpl.
  destruct (Z.ltb_spec (off p + k) 0); [done|lia].
Qed.

(** A unit that faults makes the launch fault. *)
Lemma run_grid_fault {W : Type}
    (k : dim3.t → dim3.t → dim3.t → dim3.t → option (list W))
    (gridDim blockDim blockIdx threadIdx : dim3.t) :
  (blockIdx, threadIdx) ∈ units gridDim blockDim →
  k gridDim blockDim blockIdx threadIdx = None →
  run_grid k gridDim blockDim = None.
Proof.
  intros Hu Hk. unfold run_grid.
  assert (mapM (λ u, k gridDim blockDim u.1 u.2) (units gridDim blockDim)
          = None) as ->; [|done].
  induction (units gridDim blockDim) as [|u us IH]; [by inv Hu|].
  apply elem_of_cons in Hu as [<-|Hu]; simpl.
  - by rewrite Hk.
  - rewrite (IH Hu). by destruct (k gridDim blockDim u.1 u.2).
Qed.

(** A loop whose body faults at the first counter value faults. *)
Lemma strided_loop_fault {W : Type} (n : nat) (w b s : Z)
    (body : Z → option (list W)) (i : Z) :
  i < b → body i = None → strided_loop n w b s body i = None.
Proof.
  intros Hi Hb. destruct n as [|n]; [done|]. simpl.
  destruct (Z.ltb_spec i b); [|lia]. by rewrite Hb.
Qed.

(** A loop whose counter steps past the largest [w]-bit value: after [m]
    further in-range iterations the counter wraps to a value that is again
    below the bound, and there the body faults. *)
Lemma strided_loop_wraps {W : Type} (w b s : Z)
    (body : Z → option (list W)) (m : nat) :
  1 ≤ w →
  ∀ i0,
    (∀ j : nat, (j ≤ m)%nat →
       0 ≤ i0 + Z.of_nat j * s ≤ max_signed w ∧ i0 + Z.of_nat j * s < b) →
    wrap w (i0 + (Z.of_nat m + 1) * s) < b →
    body (wrap w (i0 + (Z.of_nat m + 1) * s)) = None →
    ∀ n, strided_loop n w b s body i0 = None.
Proof.
  intros Hw. induction m as [|m IH]; intros i0 Hin Hlt Hbody n.
  - destruct n as [|n]; [done|]. simpl.
    destruct (Hin 0%nat ltac:(lia)) as [_ H0].
    destruct (Z.ltb_spec i0 b); [|lia].
    destruct (body i0) as [ws|]; [|done]. simpl.
    replace (i0 + (Z.of_nat 0 + 1) * s) with (i0 + s) in Hlt, Hbody by lia.
    by rewrite strided_loop_fault.
  - destruct n as [|n]; [done|]. simpl.
    destruct (Hin 0%nat ltac:(lia)) as [_ H0].
    destruct (Z.ltb_spec i0 b); [|lia].
    destruct (body i0) as [ws|]; [|done]. simpl.
    destruct (Hin 1%nat ltac:(lia)) as [H1 _].
    rewrite wrap_nonneg by lia.
    rewrite (IH (i0 + s)); [done| | |].
    + intros j Hj. destruct (Hin (S j) ltac:(lia)) as [Ha Hb].
      split; lia.
    + replace (i0 + s + (Z.of_nat m + 1) * s)
        with (i0 + (Z.of_nat (S m) + 1) * s) by lia. done.
    + replace (i0 + s + (Z.of_nat m + 1) * s)
        with (i0 + (Z.of_nat (S m) + 1) * s) by lia. done.
Qed.

End Faults.

(** ** Checking a launch on given inputs *)

Lemma forall_range (P : Z → Prop) (n : Z) (l : list Z) :
  seqZ 0 n = l → Forall P l → ∀ e, 0 ≤ e < n → P e.
Proof.
  intros <- HP e He. rewrite Forall_forall in HP. apply HP.
  apply elem_of_seqZ. lia.
Qed.

Ltac each_in_range :=
  lazymatch goal with
  | |- ∀ e, 0 ≤ e < ?n → @?P e =>
      refine (forall_range P n _ _ _);
      [vm_compute; reflexivity
      |repeat (apply Forall_cons_2; [|]); try apply Forall_nil_2; cbv beta]
  end.

Lemma example_launch_ok :
  launch_ok 32 32 4 3 2 example.nblks example.nthrs.
Proof. constructor; unfold max_signed; simpl; lia. Defined.

Lemma example_endpoints_ok (e : Z) :
  0 ≤ e < 3 → is_Some (endpoints 32 4 false example.coo nullptr 2 e).
Proof. revert e. each_in_range; by eexists. Qed.

Lemma example_cells_ok (e p : Z) (r : Z * Z * Z) :
  0 ≤ e < 3 → 0 ≤ p < 2 →
  endpoints 32 4 false example.coo nullptr 2 e = Some r →
  is_Some (cell_of 32 functor.Mul false example.ufeat example.vfeat 1
             nullptr nullptr 2 2 2 r p).
Proof.
  intros He Hp. revert r. revert p Hp. revert e He.
  each_in_range; each_in_range; intros r Hr; vm_compute in Hr;
    simplify_eq; by eexists.
Qed.

Lemma example_rows_exact (e src dst eid : Z) :
  0 ≤ e < 3 →
  endpoints 32 4 false example.coo nullptr 2 e = Some (src, dst, eid) →
  fits 64 (eid * 2).
Proof.
  intros He. revert src dst eid. revert e He.
  each_in_range; intros src dst eid Hr; vm_compute in Hr; simplify_eq;
    by vm_compute.
Qed.

Lemma example_rows_distinct (e e' : Z) (r r' : Z * Z * Z) :
  0 ≤ e < 3 → 0 ≤ e' < 3 →
  endpoints 32 4 false example.coo nullptr 2 e = Some r →
  endpoints 32 4 false example.coo nullptr 2 e' = Some r' →
  r.2 = r'.2 → e = e'.
Proof.
  intros He He'. revert r r'. revert e' He'. revert e He.
  each_in_range; each_in_range; intros r r' Hr Hr' Heq;
    vm_compute in Hr, Hr'; by simplify_eq.
Qed.

Lemma wf_indptr_example_csr : wf_indptr [0; 2; 3] 2 3.
Proof. split; [done | done | done |]. repeat constructor; lia. Defined.


(** * Properties of the specification *)

(** ** C2: the binary-search source resolver *)

(** C2, as stated, fails on the code.  With a 32-bit [Idx], take the
    well-formed row-pointer array of [N = 2^31 - 2] rows whose only edge
    ([E = 1]) lies in the last row: edge 0 belongs to row [2^31 - 3], but
    the search faults.  Its first probe, at [N / 2], moves [lo] to
    [N / 2 + 1 = 2^30]; the sum [lo + hi = 2^30 + 2^31 - 2] of the second
    probe exceeds the largest [int], wraps to a negative value, and
    [array[mid]] is loaded at a negative index.  No iteration budget
    helps. *)
Lemma BinarySearchSrc_faults_on_large_row_count :
  let row_ptr := replicate (Z.to_nat 2147483646) 0 ++ [1] in
  wf_indptr row_ptr 2147483646 1
  ∧ holds_edge row_ptr 2147483645 0
  ∧ ∀ fuel,
      BinarySearchSrc 32 fuel (ptr_to row_ptr) (2147483646 + 1) 0 = None.
Proof.
  intros row_ptr. assert (1 ≤ 2147483646) as HN by lia.
  split; [exact (wf_indptr_last_row 2147483646 HN)|].
  split; [exact (holds_edge_last_row 2147483646 HN)|].
  exact large_row_count_search_faults.
Qed.

(** C2, where [lo + hi] cannot overflow.  For a well-formed row-pointer
    array [row_ptr] of length [N + 1] (non-decreasing, [row_ptr[0] = 0],
    [row_ptr[N] = E]) such that [2 * N] is an [Idx] value ([Idx] has [iw]
    bits), and an edge index [e] in [[0, E)], [BinarySearchSrc] returns the
    unique [i] in [[0, N)] with [row_ptr[i] <= e < row_ptr[i+1]], empty rows
    included; for [row_ptr = [0,2,2,5]] that is source 0 for the edges 0 and
    1 and source 2 for the edges 2, 3 and 4.  The loop needs at most [N + 1]
    iterations. *)
Theorem BinarySearchSrc_resolves_source (iw : Z) (fuel : nat)
    (row_ptr : list Z) (N E e : Z) :
  1 ≤ iw →
  wf_indptr row_ptr N E →
  2 * N ≤ max_signed iw →
  (Z.to_nat N < fuel)%nat →
  0 ≤ e < E →
  ∃ i, BinarySearchSrc iw fuel (ptr_to row_ptr) (N + 1) e = Some i
       ∧ 0 ≤ i < N
       ∧ holds_edge row_ptr i e
       ∧ (∀ j, holds_edge row_ptr j e → j = i)
       ∧ (row_ptr = [0; 2; 2; 5] → i = if e <? 2 then 0 else 2).
Proof.
  intros Hiw Hwf Hfit Hfuel He.
  destruct (BinarySearchSrc_spec iw Hiw row_ptr N E Hwf Hfit fuel e He Hfuel)
    as (i & Hrun & Hi & Hhold).
  assert (Huniq : ∀ j, holds_edge row_ptr j e → j = i).
  { intros j Hj. apply (holds_edge_unique row_ptr N E Hwf e); [lia | | done..].
    destruct Hj as (Hj0 & a & b & _ & Hb & _).
    apply lookup_lt_Some in Hb. pose proof (indptr_length _ _ _ Hwf). lia. }
  exists i. split; [done|]. split; [done|]. split; [done|]. split; [done|].
  intros ->. destruct (Z.ltb_spec e 2).
  - symmetry. apply Huniq. split; [done|]. exists 0, 2. split; [done|].
    split; [done|]. lia.
  - symmetry. apply Huniq. split; [done|]. exists 2, 5. split; [done|].
    split; [done|].
    pose proof (indptr_last _ _ _ Hwf) as Hlast.
    pose proof (indptr_length _ _ _ Hwf) as Hlen. simpl in Hlen.
    assert (N = 3) as -> by lia. simpl in Hlast. simplify_eq. lia.
Qed.

Lemma wf_indptr_example : wf_indptr [0; 2; 2; 5] 3 5.
Proof. split; [done | done | done |]. repeat constructor; lia. Defined.

Lemma BinarySearchSrc_resolves_source_witness :
  ∃ i, BinarySearchSrc 32 4 (ptr_to [0; 2; 2; 5]) (3 + 1) 2 = Some i
       ∧ 0 ≤ i < 3
       ∧ holds_edge [0; 2; 2; 5] i 2
       ∧ (∀ j, holds_edge [0; 2; 2; 5] j 2 → j = i)
       ∧ ([0; 2; 2; 5] = [0; 2; 2; 5] → i = if 2 <? 2 then 0 else 2).
Proof.
  apply (BinarySearchSrc_resolves_source 32 4 [0; 2; 2; 5] 3 5 2).
  - lia.
  - exact wf_indptr_example.
  - by vm_compute.
  - simpl. lia.
  - lia.
Defined.

(** The five edges of the example, run with a 32-bit and a 64-bit [Idx]. *)
Example BinarySearchSrc_empty_row :
  BinarySearchSrc 32 4 (ptr_to [0; 2; 2; 5]) 4 <$> [0; 1; 2; 3; 4]
  = [Some 0; Some 0; Some 2; Some 2; Some 2]
  ∧ BinarySearchSrc 64 4 (ptr_to [0; 2; 2; 5]) 4 <$> [0; 1; 2; 3; 4]
    = [Some 0; Some 0; Some 2; Some 2; Some 2].
Proof. split; by vm_compute. Qed.

(** ** C1: the value stored for each pair *)




(** ** C4: the strided loops cover the iteration space once *)

(** C4, as stated, fails on the code: a loop counter can overflow in a
    geometry with positive extents.  (1) In the coordinate kernel the
    position counter [tx] is an [int]: in the grid of [2097153 x 1] blocks of
    [1024 x 1] units, the unit of block [2097152] starts at position [2^31],
    which no pair of the iteration space has; as an [int] that is [-2^31],
    below [out_len], so the unit enters its position loop and the operator
    reads the features at a negative offset.  The compressed kernel, whose
    [tx] is an [int64_t], does nothing in that unit.  (2) The edge counter
    [ty] is an [Idx]: with a 32-bit [Idx], [E = 2^31 - 1] edges, all of them
    loadable, and the geometry that [launch_geometry] gives for them with
    the limits of 1024 units to a block and 65535 blocks to the grid
    ([1 x 65535] blocks of [1 x 1024] units, a stride of 67107840 edges),
    the first unit handles the edges [0, 67107840, ..., 32 * 67107840]; the
    next value of the counter, [33 * 67107840], exceeds the largest [int],
    wraps to [-2080408576], below [E], and [row[ty]] is loaded at a negative
    index. *)
Lemma loop_counters_overflow :
  let gridDim := dim3.mk 2097153 1 in
  let blockDim := dim3.mk 1024 1 in
  let u := (dim3.mk 2097152 0, dim3.mk 0 0) in
  let edges := replicate (Z.to_nat 2147483647) 0 in
  (u ∈ units gridDim blockDim
   ∧ unit_cells 3 2 gridDim blockDim u = []
   ∧ SDDMMKernel 32 4 functor.Mul false false example.coo
       example.ufeat example.vfeat nullptr 2 2 3 1 nullptr nullptr 2 2 2
       gridDim blockDim u.1 u.2 = None
   ∧ SDDMMKernel 32 4 functor.Mul false false example.csr
       example.ufeat example.vfeat nullptr 2 2 3 1 nullptr nullptr 2 2 2
       gridDim blockDim u.1 u.2 = Some []
   ∧ run_grid
       (SDDMMKernel 32 4 functor.Mul false false example.coo
          example.ufeat example.vfeat nullptr 2 2 3 1 nullptr nullptr 2 2 2)
       gridDim blockDim = None)
  ∧ (launch_geometry example.FindNumThreads example.CUDA_MAX_NUM_THREADS
       example.FindNumBlocks_y 1 2147483647
     = (dim3.mk 1 65535, dim3.mk 1 1024)
     ∧ (∀ e, 0 ≤ e < 2147483647 →
          coo_endpoints false (ptr_to edges) (ptr_to edges) nullptr e
          = Some (0, 0, e))
     ∧ ∀ fuel,
         SDDMMCooKernel 32 fuel functor.Mul false false
           (ptr_to [2]) (ptr_to [5]) (ptr_to edges) (ptr_to edges) nullptr
           1 1 2147483647 1 nullptr nullptr 1 1 1
           (dim3.mk 1 65535) (dim3.mk 1 1024) (dim3.mk 0 0) (dim3.mk 0 0)
         = None
         ∧ run_grid
             (SDDMMCooKernel 32 fuel functor.Mul false false
                (ptr_to [2]) (ptr_to [5]) (ptr_to edges) (ptr_to edges)
                nullptr 1 1 2147483647 1 nullptr nullptr 1 1 1)
             (dim3.mk 1 65535) (dim3.mk 1 1024) = None).
Proof.
  intros gridDim blockDim u edges.
  assert (Hu : u ∈ units gridDim blockDim).
  { apply elem_of_units. simpl. lia. }
  assert (Hfault :
    SDDMMKernel 32 4 functor.Mul false false example.coo
      example.ufeat example.vfeat nullptr 2 2 3 1 nullptr nullptr 2 2 2
      gridDim blockDim u.1 u.2 = None) by (by vm_compute).
  split.
  { split; [done|]. split; [by vm_compute|]. split; [done|].
    split; [by vm_compute|].
    by apply (run_grid_fault _ _ _ u.1 u.2). }
  split; [by vm_compute|].
  split.
  { intros e He. unfold coo_endpoints.
    rewrite _ldg_ptr_to by lia. unfold edges.
    rewrite lookup_replicate_2 by lia. done. }
  assert (Hunit : ∀ fuel,
    SDDMMCooKernel 32 fuel functor.Mul false false
      (ptr_to [2]) (ptr_to [5]) (ptr_to edges) (ptr_to edges) nullptr
      1 1 2147483647 1 nullptr nullptr 1 1 1
      (dim3.mk 1 65535) (dim3.mk 1 1024) (dim3.mk 0 0) (dim3.mk 0 0)
    = None).
  { intros fuel. unfold SDDMMCooKernel.
    replace (wrap 32 (uwrap32 (dim3.y (dim3.mk 0 0) * dim3.y (dim3.mk 1 1024)
                               + dim3.y (dim3.mk 0 0))))
      with 0 by (by vm_compute).
    replace (wrap 32 (uwrap32 (dim3.y (dim3.mk 1 1024)
                               * dim3.y (dim3.mk 1 65535))))
      with 67107840 by (by vm_compute).
    apply (strided_loop_wraps 32 2147483647 67107840 _ 32%nat); [lia| | |].
    - intros j Hj. unfold max_signed. lia.
    - by vm_compute.
    - replace (wrap 32 (0 + (Z.of_nat 32 + 1) * 67107840))
        with (-2080408576) by (by vm_compute).
      unfold SDDMMCoo_edge. by rewrite _ldg_negative. }
  intros fuel. split; [done|].
  apply (run_grid_fault _ _ _ (dim3.mk 0 0) (dim3.mk 0 0)); [|done].
  apply elem_of_units. simpl. lia.
Qed.

(** C4, where no counter overflows.  In a launch with positive block and
    grid extents on both axes in which the strides fit an [unsigned int],
    [out_len + stride_x] fits the position counter and [E + stride_y] fits
    [Idx] ([launch_ok]), the two strided loops of the kernels visit every
    (edge, output position) pair of [[0, E) x [0, out_len)] exactly once
    across all execution units: the pairs of the units, put together, are a
    permutation of the iteration space, and each unit stores exactly the
    cells of its pairs.  Hence every cell [out[eid * out_len + p]] is stored
    once, and no two units store to the same cell.  The output rows [eid] of
    distinct edges are distinct (the edge map is a permutation). *)
Theorem strided_loops_cover_once (iw : Z) (fuel : nat) {DType : Type}
    (op : BinaryOp DType) (UseBcast UseIdx : bool) (enc : encoding)
    (ufeat vfeat : ptr DType) (edge_map : ptr Z) (N M E reduce_size : Z)
    (ubcast_off vbcast_off : ptr Z) (ufeat_len vfeat_len out_len : Z)
    (gridDim blockDim : dim3.t) :
  let resolve := endpoints iw fuel UseIdx enc edge_map N in
  let cellf := cell_of iw op UseBcast ufeat vfeat reduce_size
                 ubcast_off vbcast_off ufeat_len vfeat_len out_len in
  let kernel := SDDMMKernel iw fuel op UseBcast UseIdx enc ufeat vfeat
                  edge_map N M E reduce_size ubcast_off vbcast_off
                  ufeat_len vfeat_len out_len in
  launch_ok iw (tx_bits enc) fuel E out_len gridDim blockDim →
  (∀ e, 0 ≤ e < E → is_Some (resolve e)) →
  (∀ e p r, 0 ≤ e < E → 0 ≤ p < out_len → resolve e = Some r →
     is_Some (cellf r p)) →
  (∀ e src dst eid, 0 ≤ e < E → resolve e = Some (src, dst, eid) →
     fits 64 (eid * out_len)) →
  (∀ e e' r r', 0 ≤ e < E → 0 ≤ e' < E →
     resolve e = Some r → resolve e' = Some r' → r.2 = r'.2 → e = e') →
  grid_cells E out_len gridDim blockDim ≡ₚ all_cells E out_len
  ∧ (∀ u, u ∈ units gridDim blockDim →
       kernel gridDim blockDim u.1 u.2
       = Some (unit_cells E out_len gridDim blockDim u
               ≫= cell_stores resolve cellf))
  ∧ (∃ ws, run_grid kernel gridDim blockDim = Some ws
       ∧ ws ≡ₚ all_cells E out_len ≫= cell_stores resolve cellf
       ∧ NoDup ws.*1
       ∧ ∀ e p, 0 ≤ e < E → 0 ≤ p < out_len →
           ∃ src dst eid val, resolve e = Some (src, dst, eid)
                              ∧ (eid * out_len + p, val) ∈ ws)
  ∧ (∀ u1 u2 ws1 ws2 a,
       u1 ∈ units gridDim blockDim → u2 ∈ units gridDim blockDim → u1 ≠ u2 →
       kernel gridDim blockDim u1.1 u1.2 = Some ws1 →
       kernel gridDim blockDim u2.1 u2.2 = Some ws2 →
       a ∈ ws1.*1 → a ∉ ws2.*1).
Proof.
  intros resolve cellf kernel ok Hend Hcell Hexact Hdistinct.
  pose proof (SDDMM_stores_perm iw fuel op UseBcast UseIdx enc ufeat vfeat
                edge_map N E reduce_size ubcast_off vbcast_off ufeat_len
                vfeat_len out_len gridDim blockDim ok) as Hperm.
  pose proof (SDDMM_stores_NoDup iw fuel op UseBcast UseIdx enc ufeat vfeat
                edge_map N E reduce_size ubcast_off vbcast_off ufeat_len
                vfeat_len out_len Hend Hcell Hexact Hdistinct) as Hnd.
  assert (Hunit : ∀ u, u ∈ units gridDim blockDim →
            kernel gridDim blockDim u.1 u.2
            = Some (unit_cells E out_len gridDim blockDim u
                    ≫= cell_stores resolve cellf)).
  { intros [bi ti] Hu. by apply SDDMM_unit. }
  split; [|split; [done|split]].
  - destruct ok. by apply grid_cells_cover.
  - eexists. split; [by apply SDDMM_grid|]. split; [done|]. split.
    + by rewrite Hperm.
    + intros e p He Hp.
      edestruct cell_stores_shape
        as (src & dst & eid & la & ra & val & Hr & _ & _ & _ & Hst);
        [exact Hend | exact Hcell | exact He | exact Hp |].
      rewrite (wrap_small 64 (eid * _)) in Hst
        by (lia || by eapply Hexact).
      exists src, dst, eid, val. split; [done|]. rewrite Hperm.
      eapply elem_of_SDDMM_stores; [exact Hend | exact Hcell |].
      by exists e, p.
  - intros u1 u2 ws1 ws2 a Hu1 Hu2 Hne Hk1 Hk2.
    rewrite (Hunit u1 Hu1) in Hk1. rewrite (Hunit u2 Hu2) in Hk2.
    simplify_eq. by eapply SDDMM_units_disjoint.
Qed.

Lemma strided_loops_cover_once_witness :
  grid_cells 3 2 example.nblks example.nthrs ≡ₚ all_cells 3 2
  ∧ ∃ ws,
      run_grid
        (SDDMMKernel 32 4 functor.Mul false false example.coo
           example.ufeat example.vfeat nullptr 2 2 3 1 nullptr nullptr 2 2 2)
        example.nblks example.nthrs = Some ws
      ∧ NoDup ws.*1.
Proof.
  destruct (strided_loops_cover_once 32 4 functor.Mul false false
              example.coo example.ufeat example.vfeat nullptr 2 2 3 1
              nullptr nullptr 2 2 2 example.nblks example.nthrs
              example_launch_ok example_endpoints_ok example_cells_ok
              example_rows_exact example_rows_distinct)
    as (Hcover & _ & (ws & Hrun & _ & Hnd & _) & _).
  split; [exact Hcover|]. exists ws. split; [exact Hrun | exact Hnd].
Defined.

(** ** C6: the output row of an edge *)

(** C6.  The stores of edge [e] go to output row [eid], which is
    [edge_map[e]] when an edge map is supplied ([UseIdx]) and [e] itself
    otherwise, in both kernels; with [edge_map = [2,0,1]] the result of edge
    0 is stored in row 2 (cells [2 * out_len] to [3 * out_len - 1]), not in
    row 0. *)
Theorem output_row_follows_edge_map (iw : Z) (fuel : nat) {DType : Type}
    (op : BinaryOp DType) (UseBcast UseIdx : bool) (enc : encoding)
    (ufeat vfeat : ptr DType) (edge_map : ptr Z) (N M E reduce_size : Z)
    (ubcast_off vbcast_off : ptr Z) (ufeat_len vfeat_len out_len : Z)
    (gridDim blockDim : dim3.t) :
  let resolve := endpoints iw fuel UseIdx enc edge_map N in
  let cellf := cell_of iw op UseBcast ufeat vfeat reduce_size
                 ubcast_off vbcast_off ufeat_len vfeat_len out_len in
  launch_ok iw (tx_bits enc) fuel E out_len gridDim blockDim →
  (∀ e, 0 ≤ e < E → is_Some (resolve e)) →
  (∀ e p r, 0 ≤ e < E → 0 ≤ p < out_len → resolve e = Some r →
     is_Some (cellf r p)) →
  (∀ e src dst eid, 0 ≤ e < E → resolve e = Some (src, dst, eid) →
     fits 64 (eid * out_len)) →
  ∃ ws,
    run_grid
      (SDDMMKernel iw fuel op UseBcast UseIdx enc ufeat vfeat edge_map
         N M E reduce_size ubcast_off vbcast_off ufeat_len vfeat_len out_len)
      gridDim blockDim = Some ws
    ∧ ∀ e p, 0 ≤ e < E → 0 ≤ p < out_len →
        ∃ eid val,
          (if UseIdx then _ldg (edge_map +ₚ e) = Some eid else eid = e)
          ∧ cell_stores resolve cellf (e, p) = [(eid * out_len + p, val)]
          ∧ (eid * out_len + p, val) ∈ ws
          ∧ (UseIdx = true → edge_map = ptr_to [2; 0; 1] → e = 0 →
             eid = 2 ∧ 2 * out_len ≤ eid * out_len + p < 3 * out_len).
Proof.
  intros resolve cellf ok Hend Hcell Hexact.
  eexists. split; [by apply SDDMM_grid|].
  intros e p He Hp.
  edestruct cell_stores_shape
    as (src & dst & eid & la & ra & val & Hr & _ & _ & _ & Hst);
    [exact Hend | exact Hcell | exact He | exact Hp |].
  rewrite (wrap_small 64 (eid * _)) in Hst by (lia || by eapply Hexact).
  pose proof (endpoints_eid _ _ _ _ _ _ _ _ _ _ Hr) as Heid.
  exists eid, val. split; [|split; [done|split]].
  - destruct UseIdx; [done|]. by simplify_eq.
  - rewrite SDDMM_stores_perm by done.
    eapply elem_of_SDDMM_stores; [exact Hend | exact Hcell |].
    by exists e, p.
  - intros -> -> ->. vm_compute in Heid. simplify_eq. lia.
Qed.

Lemma example_permuted_endpoints_ok (e : Z) :
  0 ≤ e < 3 →
  is_Some (endpoints 32 4 true example.coo example.edge_map 2 e).
Proof. revert e. each_in_range; by eexists. Qed.

Lemma example_permuted_cells_ok (e p : Z) (r : Z * Z * Z) :
  0 ≤ e < 3 → 0 ≤ p < 2 →
  endpoints 32 4 true example.coo example.edge_map 2 e = Some r →
  is_Some (cell_of 32 functor.Mul false example.ufeat example.vfeat 1
             nullptr nullptr 2 2 2 r p).
Proof.
  intros He Hp. revert r. revert p Hp. revert e He.
  each_in_range; each_in_range; intros r Hr; vm_compute in Hr;
    simplify_eq; by eexists.
Qed.

Lemma example_permuted_rows_exact (e src dst eid : Z) :
  0 ≤ e < 3 →
  endpoints 32 4 true example.coo example.edge_map 2 e
  = Some (src, dst, eid) →
  fits 64 (eid * 2).
Proof.
  intros He. revert src dst eid. revert e He.
  each_in_range; intros src dst eid Hr; vm_compute in Hr; simplify_eq;
    by vm_compute.
Qed.

Lemma output_row_follows_edge_map_witness :
  ∃ ws,
    run_grid
      (SDDMMKernel 32 4 functor.Mul false true example.coo
         example.ufeat example.vfeat example.edge_map 2 2 3 1
         nullptr nullptr 2 2 2)
      example.nblks example.nthrs = Some ws
    ∧ (2 * 2 + 0, 10) ∈ ws ∧ (2 * 2 + 1, 40) ∈ ws.
Proof.
  destruct (output_row_follows_edge_map 32 4 functor.Mul false true
              example.coo example.ufeat example.vfeat example.edge_map
              2 2 3 1 nullptr nullptr 2 2 2 example.nblks example.nthrs
              example_launch_ok example_permuted_endpoints_ok
              example_permuted_cells_ok example_permuted_rows_exact)
    as (ws & Hrun & Hcells).
  exists ws. split; [exact Hrun|].
  destruct (Hcells 0 0 ltac:(lia) ltac:(lia))
    as (eid0 & val0 & Heid0 & Hst0 & Hin0 & _).
  destruct (Hcells 0 1 ltac:(lia) ltac:(lia))
    as (eid1 & val1 & Heid1 & Hst1 & Hin1 & _).
  vm_compute in Heid0, Heid1, Hst0, Hst1. simplify_eq.
  split; [exact Hin0 | exact Hin1].
Defined.

(** ** C5: identity fast path and identity offset tables *)

(** C5.  The kernel specialized without broadcasting ([UseBcast = false],
    which uses [p] for both offsets and is handed any two table pointers
    [ubcast_off0], [vbcast_off0]) and the kernel specialized with
    broadcasting and handed identity tables ([ubcast_off[p] = p],
    [vbcast_off[p] = p] for every output position) perform the same stores
    and produce the same output buffer, for every edge and every output
    position, in both encodings.  This holds in particular when
    [lhs_len = rhs_len = out_len], where the tables are the identity. *)
Theorem identity_tables_match_fast_path (iw : Z) (fuel : nat) {DType : Type}
    (op : BinaryOp DType) (UseIdx : bool) (enc : encoding)
    (ufeat vfeat : ptr DType) (edge_map : ptr Z) (N M E reduce_size : Z)
    (ubcast_off0 vbcast_off0 ubcast_off vbcast_off : ptr Z)
    (ufeat_len vfeat_len out_len : Z) (gridDim blockDim : dim3.t) :
  let resolve := endpoints iw fuel UseIdx enc edge_map N in
  launch_ok iw (tx_bits enc) fuel E out_len gridDim blockDim →
  (∀ e, 0 ≤ e < E → is_Some (resolve e)) →
  (∀ e p r, 0 ≤ e < E → 0 ≤ p < out_len → resolve e = Some r →
     is_Some (cell_of iw op false ufeat vfeat reduce_size
                ubcast_off0 vbcast_off0 ufeat_len vfeat_len out_len r p)) →
  (∀ p, 0 ≤ p < out_len →
     pindex ubcast_off p = Some p ∧ pindex vbcast_off p = Some p) →
  (∃ ws,
     run_grid
       (SDDMMKernel iw fuel op false UseIdx enc ufeat vfeat edge_map
          N M E reduce_size ubcast_off0 vbcast_off0
          ufeat_len vfeat_len out_len) gridDim blockDim = Some ws
     ∧ run_grid
         (SDDMMKernel iw fuel op true UseIdx enc ufeat vfeat edge_map
            N M E reduce_size ubcast_off vbcast_off
            ufeat_len vfeat_len out_len) gridDim blockDim = Some ws)
  ∧ ∀ out,
      launch iw fuel op false UseIdx enc gridDim blockDim ufeat vfeat out
        edge_map N M E reduce_size ubcast_off0 vbcast_off0
        ufeat_len vfeat_len out_len
      = launch iw fuel op true UseIdx enc gridDim blockDim ufeat vfeat out
          edge_map N M E reduce_size ubcast_off vbcast_off
          ufeat_len vfeat_len out_len.
Proof.
  intros resolve ok Hend Hcell Htab.
  assert (Hsame : ∀ r p, 0 ≤ p < out_len →
            cell_of iw op true ufeat vfeat reduce_size ubcast_off vbcast_off
              ufeat_len vfeat_len out_len r p
            = cell_of iw op false ufeat vfeat reduce_size
                ubcast_off0 vbcast_off0 ufeat_len vfeat_len out_len r p).
  { intros r p Hp. unfold cell_of, feature_body.
    destruct (Htab p Hp) as [-> ->]. done. }
  assert (Hcell' : ∀ e p r, 0 ≤ e < E → 0 ≤ p < out_len →
            resolve e = Some r →
            is_Some (cell_of iw op true ufeat vfeat reduce_size
                       ubcast_off vbcast_off ufeat_len vfeat_len out_len r p)).
  { intros e p r He Hp Hr. rewrite Hsame by done. by eapply Hcell. }
  assert (Hruns :
    run_grid
      (SDDMMKernel iw fuel op true UseIdx enc ufeat vfeat edge_map
         N M E reduce_size ubcast_off vbcast_off
         ufeat_len vfeat_len out_len) gridDim blockDim
    = run_grid
        (SDDMMKernel iw fuel op false UseIdx enc ufeat vfeat edge_map
           N M E reduce_size ubcast_off0 vbcast_off0
           ufeat_len vfeat_len out_len) gridDim blockDim).
  { rewrite !SDDMM_grid by done. f_equal. apply list_bind_ext_in.
    intros [e p] Hc. apply cell_stores_ext. intros r _. simpl.
    apply Hsame.
    assert ((e, p) ∈ all_cells E out_len) as Hin.
    { destruct ok. by rewrite <- (grid_cells_cover E out_len gridDim blockDim). }
    apply elem_of_all_cells in Hin. lia. }
  split.
  - eexists. split; [by apply SDDMM_grid|]. rewrite Hruns.
    by apply SDDMM_grid.
  - intros out. by rewrite !launch_unfold, Hruns.
Qed.

Lemma identity_tables_match_fast_path_witness :
  ∃ ws,
    run_grid
      (SDDMMKernel 32 4 functor.Mul false false example.coo
         example.ufeat example.vfeat nullptr 2 2 3 1 nullptr nullptr 2 2 2)
      example.nblks example.nthrs = Some ws
    ∧ run_grid
        (SDDMMKernel 32 4 functor.Mul true false example.coo
           example.ufeat example.vfeat nullptr 2 2 3 1
           example.identity_off example.identity_off 2 2 2)
        example.nblks example.nthrs = Some ws.
Proof.
  refine (proj1 (identity_tables_match_fast_path 32 4 functor.Mul false
                   example.coo example.ufeat example.vfeat nullptr 2 2 3 1
                   nullptr nullptr example.identity_off example.identity_off
                   2 2 2 example.nblks example.nthrs
                   example_launch_ok example_endpoints_ok example_cells_ok _)).
  each_in_range; by vm_compute.
Defined.

(** ** C7: an operator that ignores one side *)

(** C7.  For an operator with [use_lhs = false] the stores of every unit and
    the output buffer of a launch are the same whatever source-feature
    pointer [ufeat] the kernel is handed, the null pointer included: the lhs
    base pointer is the null sentinel and [ufeat] is never dereferenced.
    Symmetrically for [use_rhs = false] and [vfeat].  Both kernels. *)
Theorem unused_side_is_never_read (iw : Z) (fuel : nat) {DType : Type}
    (op : BinaryOp DType) (UseBcast UseIdx : bool) (enc : encoding)
    (ufeat ufeat' vfeat vfeat' : ptr DType) (edge_map : ptr Z)
    (N M E reduce_size : Z) (ubcast_off vbcast_off : ptr Z)
    (ufeat_len vfeat_len out_len : Z) (gridDim blockDim : dim3.t) :
  (use_lhs op = false →
     (∀ r p,
        cell_of iw op UseBcast ufeat vfeat reduce_size ubcast_off vbcast_off
          ufeat_len vfeat_len out_len r p
        = feature_body iw op UseBcast reduce_size ubcast_off vbcast_off
            nullptr
            (if use_rhs op
             then vfeat +ₚ wrap 64 (r.1.2 * vfeat_len) else nullptr)
            (wrap 64 (r.2 * out_len)) p)
     ∧ (∀ blockIdx threadIdx,
          SDDMMKernel iw fuel op UseBcast UseIdx enc ufeat vfeat edge_map
            N M E reduce_size ubcast_off vbcast_off
            ufeat_len vfeat_len out_len gridDim blockDim blockIdx threadIdx
          = SDDMMKernel iw fuel op UseBcast UseIdx enc ufeat' vfeat edge_map
              N M E reduce_size ubcast_off vbcast_off
              ufeat_len vfeat_len out_len gridDim blockDim blockIdx threadIdx)
     ∧ (∀ out,
          launch iw fuel op UseBcast UseIdx enc gridDim blockDim
            ufeat vfeat out edge_map N M E reduce_size
            ubcast_off vbcast_off ufeat_len vfeat_len out_len
          = launch iw fuel op UseBcast UseIdx enc gridDim blockDim
              ufeat' vfeat out edge_map N M E reduce_size
              ubcast_off vbcast_off ufeat_len vfeat_len out_len))
  ∧ (use_rhs op = false →
     (∀ r p,
        cell_of iw op UseBcast ufeat vfeat reduce_size ubcast_off vbcast_off
          ufeat_len vfeat_len out_len r p
        = feature_body iw op UseBcast reduce_size ubcast_off vbcast_off
            (if use_lhs op
             then ufeat +ₚ wrap 64 (r.1.1 * ufeat_len) else nullptr)
            nullptr
            (wrap 64 (r.2 * out_len)) p)
     ∧ (∀ blockIdx threadIdx,
          SDDMMKernel iw fuel op UseBcast UseIdx enc ufeat vfeat edge_map
            N M E reduce_size ubcast_off vbcast_off
            ufeat_len vfeat_len out_len gridDim blockDim blockIdx threadIdx
          = SDDMMKernel iw fuel op UseBcast UseIdx enc ufeat vfeat' edge_map
              N M E reduce_size ubcast_off vbcast_off
              ufeat_len vfeat_len out_len gridDim blockDim blockIdx threadIdx)
     ∧ (∀ out,
          launch iw fuel op UseBcast UseIdx enc gridDim blockDim
            ufeat vfeat out edge_map N M E reduce_size
            ubcast_off vbcast_off ufeat_len vfeat_len out_len
          = launch iw fuel op UseBcast UseIdx enc gridDim blockDim
              ufeat vfeat' out edge_map N M E reduce_size
              ubcast_off vbcast_off ufeat_len vfeat_len out_len)).
Proof.
  split; intros Hflag.
  - assert (Hk : ∀ blockIdx threadIdx,
      SDDMMKernel iw fuel op UseBcast UseIdx enc ufeat vfeat edge_map
        N M E reduce_size ubcast_off vbcast_off
        ufeat_len vfeat_len out_len gridDim blockDim blockIdx threadIdx
      = SDDMMKernel iw fuel op UseBcast UseIdx enc ufeat' vfeat edge_map
          N M E reduce_size ubcast_off vbcast_off
          ufeat_len vfeat_len out_len gridDim blockDim blockIdx threadIdx).
    { intros bi ti. rewrite !SDDMMKernel_shape.
      apply two_level_kernel_ext; [done|]. intros r p.
      unfold cell_of. by rewrite Hflag. }
    split; [|split; [done|]].
    + intros r p. unfold cell_of. by rewrite Hflag.
    + intros out. rewrite !launch_unfold. f_equal. by apply run_grid_ext.
  - assert (Hk : ∀ blockIdx threadIdx,
      SDDMMKernel iw fuel op UseBcast UseIdx enc ufeat vfeat edge_map
        N M E reduce_size ubcast_off vbcast_off
        ufeat_len vfeat_len out_len gridDim blockDim blockIdx threadIdx
      = SDDMMKernel iw fuel op UseBcast UseIdx enc ufeat vfeat' edge_map
          N M E reduce_size ubcast_off vbcast_off
          ufeat_len vfeat_len out_len gridDim blockDim blockIdx threadIdx).
    { intros bi ti. rewrite !SDDMMKernel_shape.
      apply two_level_kernel_ext; [done|]. intros r p.
      unfold cell_of. by rewrite Hflag. }
    split; [|split; [done|]].
    + intros r p. unfold cell_of. by rewrite Hflag.
    + intros out. rewrite !launch_unfold. f_equal. by apply run_grid_ext.
Qed.

Lemma unused_side_is_never_read_witness :
  launch 32 4 functor.CopyRhs false false example.coo
    example.nblks example.nthrs example.ufeat example.vfeat example.zeros
    nullptr 2 2 3 1 nullptr nullptr 2 2 2
  = launch 32 4 functor.CopyRhs false false example.coo
      example.nblks example.nthrs nullptr example.vfeat example.zeros
      nullptr 2 2 3 1 nullptr nullptr 2 2 2
  ∧ launch 32 4 functor.CopyLhs false false example.coo
      example.nblks example.nthrs example.ufeat example.vfeat example.zeros
      nullptr 2 2 3 1 nullptr nullptr 2 2 2
    = launch 32 4 functor.CopyLhs false false example.coo
        example.nblks example.nthrs example.ufeat nullptr example.zeros
        nullptr 2 2 3 1 nullptr nullptr 2 2 2.
Proof.
  split.
  - exact (proj2 (proj2 (proj1
             (unused_side_is_never_read 32 4 functor.CopyRhs false false
                example.coo example.ufeat nullptr example.vfeat example.vfeat
                nullptr 2 2 3 1 nullptr nullptr 2 2 2
                example.nblks example.nthrs) eq_refl)) example.zeros).
  - exact (proj2 (proj2 (proj2
             (unused_side_is_never_read 32 4 functor.CopyLhs false false
                example.coo example.ufeat example.ufeat example.vfeat nullptr
                nullptr 2 2 3 1 nullptr nullptr 2 2 2
                example.nblks example.nthrs) eq_refl)) example.zeros).
Defined.

(** The copy operators on the example, with the unused feature pointer null:
    the launch succeeds and copies the used side. *)
Example copy_with_null_unused_side :
  launch 32 4 functor.CopyRhs false false example.coo
    example.nblks example.nthrs nullptr example.vfeat example.zeros
    nullptr 2 2 3 1 nullptr nullptr 2 2 2
  = Some [10; 20; 30; 40; 30; 40]
  ∧ launch 32 4 functor.CopyLhs false false example.csr
      example.nblks example.nthrs example.ufeat nullptr example.zeros
      nullptr 2 2 3 1 nullptr nullptr 2 2 2
    = Some [1; 2; 1; 2; 3; 4].
Proof. split; by vm_compute. Qed.

(** ** C10: the offset tables of the non-broadcast specialization *)

(** C10.  The kernels specialized with [UseBcast = false] never read
    [ubcast_off] and [vbcast_off]: the stores of every unit and the output
    of a launch are the same with any two table pointers as with two null
    pointers (a load through a null pointer would fault).  The entry points
    initialize both pointers to null and, when the shapes require no
    broadcasting, launch that specialization with them. *)
Theorem null_offset_tables_without_broadcast (iw : Z) (fuel : nat)
    {DType : Type} (op : BinaryOp DType) (UseIdx : bool) (enc : encoding)
    (ufeat vfeat : ptr DType) (edge_map : ptr Z) (N M E reduce_size : Z)
    (ubcast_off vbcast_off : ptr Z) (ufeat_len vfeat_len out_len : Z)
    (gridDim blockDim : dim3.t)
    (FindNumThreads : Z → Z) (CUDA_MAX_NUM_THREADS : Z)
    (FindNumBlocks_y : Z → Z)
    (bcast : BcastOff.t) (coo : COOMatrix) (csr : CSRMatrix)
    (ufeat_array vfeat_array : NDArray DType) (out : list DType) :
  (∀ blockIdx threadIdx,
     SDDMMKernel iw fuel op false UseIdx enc ufeat vfeat edge_map
       N M E reduce_size ubcast_off vbcast_off
       ufeat_len vfeat_len out_len gridDim blockDim blockIdx threadIdx
     = SDDMMKernel iw fuel op false UseIdx enc ufeat vfeat edge_map
         N M E reduce_size nullptr nullptr
         ufeat_len vfeat_len out_len gridDim blockDim blockIdx threadIdx)
  ∧ launch iw fuel op false UseIdx enc gridDim blockDim ufeat vfeat out
      edge_map N M E reduce_size ubcast_off vbcast_off
      ufeat_len vfeat_len out_len
    = launch iw fuel op false UseIdx enc gridDim blockDim ufeat vfeat out
        edge_map N M E reduce_size nullptr nullptr
        ufeat_len vfeat_len out_len
  ∧ (BcastOff.use_bcast bcast = false →
     (∃ nblks nthrs,
        SDDMMCoo iw fuel op FindNumThreads CUDA_MAX_NUM_THREADS
          FindNumBlocks_y bcast coo ufeat_array vfeat_array out
        = launch_coo iw fuel op false (negb (IsNullArray (coo_data coo)))
            nblks nthrs (Ptr ufeat_array) (Ptr vfeat_array) out
            (Ptr (coo_row coo)) (Ptr (coo_col coo)) (Ptr (coo_data coo))
            (coo_num_rows coo) (coo_num_cols coo) (shape0 (coo_row coo))
            (BcastOff.reduce_size bcast) nullptr nullptr
            (BcastOff.lhs_len bcast) (BcastOff.rhs_len bcast)
              (BcastOff.out_len bcast))
     ∧ (∃ nblks nthrs,
          SDDMMCsr iw fuel op FindNumThreads CUDA_MAX_NUM_THREADS
            FindNumBlocks_y bcast csr ufeat_array vfeat_array out
          = launch_csr iw fuel op false (negb (IsNullArray (csr_data csr)))
              nblks nthrs (Ptr ufeat_array) (Ptr vfeat_array) out
              (Ptr (csr_indptr csr)) (Ptr (csr_indices csr))
              (Ptr (csr_data csr))
              (csr_num_rows csr) (csr_num_cols csr)
              (shape0 (csr_indices csr))
              (BcastOff.reduce_size bcast) nullptr nullptr
              (BcastOff.lhs_len bcast) (BcastOff.rhs_len bcast)
              (BcastOff.out_len bcast))).
Proof.
  assert (Hk : ∀ blockIdx threadIdx,
     SDDMMKernel iw fuel op false UseIdx enc ufeat vfeat edge_map
       N M E reduce_size ubcast_off vbcast_off
       ufeat_len vfeat_len out_len gridDim blockDim blockIdx threadIdx
     = SDDMMKernel iw fuel op false UseIdx enc ufeat vfeat edge_map
         N M E reduce_size nullptr nullptr
         ufeat_len vfeat_len out_len gridDim blockDim blockIdx threadIdx).
  { intros bi ti. rewrite !SDDMMKernel_shape.
    by apply two_level_kernel_ext. }
  split; [done|]. split.
  - rewrite !launch_unfold. by rewrite (run_grid_ext _ _ _ _ Hk).
  - intros Hb. split.
    + destruct (SDDMMCoo_specialization iw fuel op FindNumThreads
                  CUDA_MAX_NUM_THREADS FindNumBlocks_y bcast
                  ufeat_array vfeat_array out coo) as (nblks & nthrs & Hrun).
      rewrite Hb in Hrun. by exists nblks, nthrs.
    + destruct (SDDMMCsr_specialization iw fuel op FindNumThreads
                  CUDA_MAX_NUM_THREADS FindNumBlocks_y bcast
                  ufeat_array vfeat_array out csr) as (nblks & nthrs & Hrun).
      rewrite Hb in Hrun. by exists nblks, nthrs.
Qed.

Lemma null_offset_tables_without_broadcast_witness :
  launch 32 4 functor.Mul false false example.csr
    example.nblks example.nthrs example.ufeat example.vfeat example.zeros
    nullptr 2 2 3 1 example.identity_off example.identity_off 2 2 2
  = launch 32 4 functor.Mul false false example.csr
      example.nblks example.nthrs example.ufeat example.vfeat example.zeros
      nullptr 2 2 3 1 nullptr nullptr 2 2 2
  ∧ ∃ nblks nthrs,
      SDDMMCoo 32 4 functor.Mul example.FindNumThreads
        example.CUDA_MAX_NUM_THREADS example.FindNumBlocks_y
        example.bcast example.coo_matrix
        (Some [1; 2; 3; 4]) (Some [10; 20; 30; 40]) example.zeros
      = launch_coo 32 4 functor.Mul false false nblks nthrs
          example.ufeat example.vfeat example.zeros
          (ptr_to [0; 0; 1]) (ptr_to [0; 1; 1]) nullptr
          2 2 3 1 nullptr nullptr 2 2 2.
Proof.
  destruct (null_offset_tables_without_broadcast 32 4 functor.Mul false
              example.csr example.ufeat example.vfeat nullptr 2 2 3 1
              example.identity_off example.identity_off 2 2 2
              example.nblks example.nthrs
              example.FindNumThreads example.CUDA_MAX_NUM_THREADS
              example.FindNumBlocks_y example.bcast example.coo_matrix
              example.csr_matrix (Some [1; 2; 3; 4]) (Some [10; 20; 30; 40])
              example.zeros)
    as (_ & Hlaunch & Hdispatch).
  split; [exact Hlaunch|]. exact (proj1 (Hdispatch eq_refl)).
Defined.

(** Both entry points on the example, where no broadcasting is required:
    the launches with null offset tables succeed. *)
Example dispatch_without_broadcast :
  SDDMMCoo 32 4 functor.Mul example.FindNumThreads
    example.CUDA_MAX_NUM_THREADS example.FindNumBlocks_y
    example.bcast example.coo_matrix
    (Some [1; 2; 3; 4]) (Some [10; 20; 30; 40]) example.zeros
  = Some [10; 40; 30; 80; 90; 160]
  ∧ SDDMMCsr 64 4 functor.Mul example.FindNumThreads
      example.CUDA_MAX_NUM_THREADS example.FindNumBlocks_y
      example.bcast example.csr_matrix
      (Some [1; 2; 3; 4]) (Some [10; 20; 30; 40]) example.zeros
    = Some [10; 40; 30; 80; 90; 160].
Proof. split; by vm_compute. Qed.

(** ** C8: the end-to-end example *)

(** C8, as stated, fails: on the example the coordinate kernel stores
    [[30, 80]] in output row 1, not [[20, 80]] (edge 1 joins source 0, with
    features [[1, 2]], to destination 1, with features [[30, 40]]). *)
Lemma coo_example_row_1_is_30_80 :
  launch_coo 32 4 functor.Mul false false example.nblks example.nthrs
    (ptr_to [1; 2; 3; 4]) (ptr_to [10; 20; 30; 40]) example.zeros
    (ptr_to [0; 0; 1]) (ptr_to [0; 1; 1]) nullptr 2 2 3 1
    nullptr nullptr 2 2 2
  = Some [10; 40; 30; 80; 90; 160]
  ∧ launch_coo 32 4 functor.Mul false false example.nblks example.nthrs
      (ptr_to [1; 2; 3; 4]) (ptr_to [10; 20; 30; 40]) example.zeros
      (ptr_to [0; 0; 1]) (ptr_to [0; 1; 1]) nullptr 2 2 3 1
      nullptr nullptr 2 2 2
    ≠ Some [10; 40; 20; 80; 90; 160].
Proof. split; by vm_compute. Qed.

(** C8, amended.  For [N = 2] sources with features [[1,2],[3,4]], [M = 2]
    destinations with features [[10,20],[30,40]], the coordinate edges
    [row = [0,0,1]], [col = [0,1,1]], no edge map, elementwise multiply,
    [reduce_size = 1] and [out_len = 2], the coordinate kernel produces
    output row 0 = [[10,40]], row 1 = [[30,80]], row 2 = [[90,160]]: for a
    32-bit and a 64-bit [Idx], for every launch geometry without counter
    overflow, and whatever the six cells of the output buffer held before.
    Elements are integers, which the small values of the example are exactly
    in every floating-point width. *)
Theorem coo_example_output (iw : Z) (fuel : nat) (gridDim blockDim : dim3.t)
    (out : list Z) :
  iw = 32 ∨ iw = 64 →
  launch_ok iw 32 fuel 3 2 gridDim blockDim →
  length out = 6%nat →
  launch_coo iw fuel functor.Mul false false gridDim blockDim
    (ptr_to [1; 2; 3; 4]) (ptr_to [10; 20; 30; 40]) out
    (ptr_to [0; 0; 1]) (ptr_to [0; 1; 1]) nullptr 2 2 3 1
    nullptr nullptr 2 2 2
  = Some [10; 40; 30; 80; 90; 160].
Proof.
  intros Hiw ok Hlen.
  change (launch_coo iw fuel functor.Mul false false gridDim blockDim
            (ptr_to [1; 2; 3; 4]) (ptr_to [10; 20; 30; 40]) out
            (ptr_to [0; 0; 1]) (ptr_to [0; 1; 1]) nullptr 2 2 3 1
            nullptr nullptr 2 2 2)
    with (launch iw fuel functor.Mul false false example.coo
            gridDim blockDim example.ufeat example.vfeat out
            nullptr 2 2 3 1 nullptr nullptr 2 2 2).
  rewrite SDDMM_launch; [|done|..].
  - do 6 (destruct out as [|? out]; [done|]). destruct out; [|done].
    destruct Hiw as [-> | ->]; by vm_compute.
  - each_in_range; by eexists.
  - intros e p r He Hp. revert r. revert p Hp. revert e He.
    destruct Hiw as [-> | ->];
      each_in_range; each_in_range; intros r Hr; vm_compute in Hr;
      simplify_eq; by eexists.
  - intros e src dst eid He. revert src dst eid. revert e He.
    each_in_range; intros src dst eid Hr; vm_compute in Hr; simplify_eq;
      by vm_compute.
  - intros e e' r r' He He'. revert r r'. revert e' He'. revert e He.
    each_in_range; each_in_range; intros r r' Hr Hr' Heq;
      vm_compute in Hr, Hr'; by simplify_eq.
Qed.

Lemma coo_example_output_witness :
  launch_coo 32 4 functor.Mul false false example.nblks example.nthrs
    (ptr_to [1; 2; 3; 4]) (ptr_to [10; 20; 30; 40]) example.zeros
    (ptr_to [0; 0; 1]) (ptr_to [0; 1; 1]) nullptr 2 2 3 1
    nullptr nullptr 2 2 2
  = Some [10; 40; 30; 80; 90; 160].
Proof.
  apply (coo_example_output 32 4 example.nblks example.nthrs example.zeros).
  - by left.
  - exact example_launch_ok.
  - reflexivity.
Defined.

(** ** C3: the two encodings give the same output *)

(** C3, as stated, fails on the code.  With a 32-bit [Idx], take
    [N = 2^31 - 2] sources, one destination with feature [[10]], and the one
    edge from the last source to that destination: [row = [2^31 - 3]],
    [col = [0]] in the coordinate encoding, the well-formed row-pointer
    array of the failing input of C2 and [indices = [0]] in the compressed
    one.  With the operator that copies the destination feature, the
    coordinate kernel stores [[10]]; the compressed kernel faults in
    [BinarySearchSrc], whatever its budget. *)
Lemma coo_and_csr_differ_on_large_row_count :
  let row_ptr := replicate (Z.to_nat 2147483646) 0 ++ [1] in
  wf_indptr row_ptr 2147483646 1
  ∧ holds_edge row_ptr 2147483645 0
  ∧ launch_coo 32 32 functor.CopyRhs false false (dim3.mk 1 1) (dim3.mk 1 1)
      nullptr (ptr_to [10]) [0] (ptr_to [2147483645]) (ptr_to [0]) nullptr
      2147483646 1 1 1 nullptr nullptr 1 1 1 = Some [10]
  ∧ ∀ fuel,
      launch_csr 32 fuel functor.CopyRhs false false
        (dim3.mk 1 1) (dim3.mk 1 1)
        nullptr (ptr_to [10]) [0] (ptr_to row_ptr) (ptr_to [0]) nullptr
        2147483646 1 1 1 nullptr nullptr 1 1 1 = None.
Proof.
  intros row_ptr. assert (1 ≤ 2147483646) as HN by lia.
  split; [exact (wf_indptr_last_row 2147483646 HN)|].
  split; [exact (holds_edge_last_row 2147483646 HN)|].
  split; [by vm_compute|].
  intros fuel. unfold launch_csr.
  rewrite (run_grid_fault _ _ _ (dim3.mk 0 0) (dim3.mk 0 0)); [done| |].
  - apply elem_of_units. simpl. lia.
  - unfold SDDMMCsrKernel. apply strided_loop_fault.
    + by vm_compute.
    + unfold SDDMMCsr_edge.
      replace (wrap 32 (uwrap32 _)) with 0 by (by vm_compute).
      replace (wrap 32 (wrap 64 (2147483646 + 1))) with (2147483646 + 1)
        by (by vm_compute).
      unfold row_ptr. by rewrite large_row_count_search_faults.
Qed.

(** C3, where the search and the counters cannot overflow.  A coordinate
    encoding ([row], [col]) and a well-formed compressed encoding
    ([row_ptr], [indices], with [2 * N] an [Idx] value) that describe the
    same edges (for every edge index [e], [col[e] = indices[e]] and
    [row[e]] is the row of [row_ptr] that holds [e]), run with the same edge map, operator, feature
    buffers and broadcast descriptor on the same output buffer, produce the
    same output buffer, whatever the geometry of each of the two launches.
    The edge map is a permutation (distinct edges have distinct output rows),
    every output row lies in the buffer, no load and no operator call
    faults, and no counter overflows. *)
Theorem coo_and_csr_agree (iw : Z) (fuel : nat) {DType : Type}
    (op : BinaryOp DType) (UseBcast UseIdx : bool)
    (row col : ptr Z) (row_ptr : list Z) (indices : ptr Z)
    (ufeat vfeat : ptr DType) (edge_map : ptr Z) (N M E reduce_size : Z)
    (ubcast_off vbcast_off : ptr Z) (ufeat_len vfeat_len out_len : Z)
    (nblks nthrs nblks' nthrs' : dim3.t) (out : list DType) :
  let resolve := coo_endpoints UseIdx row col edge_map in
  let cellf := cell_of iw op UseBcast ufeat vfeat reduce_size
                 ubcast_off vbcast_off ufeat_len vfeat_len out_len in
  2 ≤ iw ≤ 64 →
  launch_ok iw 32 fuel E out_len nblks nthrs →
  launch_ok iw 64 fuel E out_len nblks' nthrs' →
  wf_indptr row_ptr N E →
  2 * N ≤ max_signed iw →
  (Z.to_nat N < fuel)%nat →
  (∀ e, 0 ≤ e < E →
     ∃ src dst, _ldg (row +ₚ e) = Some src ∧ _ldg (col +ₚ e) = Some dst
                ∧ holds_edge row_ptr src e
                ∧ _ldg (indices +ₚ e) = Some dst) →
  (UseIdx = true → ∀ e, 0 ≤ e < E → is_Some (_ldg (edge_map +ₚ e))) →
  (∀ e p r, 0 ≤ e < E → 0 ≤ p < out_len → resolve e = Some r →
     is_Some (cellf r p)) →
  (∀ e e' r r', 0 ≤ e < E → 0 ≤ e' < E →
     resolve e = Some r → resolve e' = Some r' → r.2 = r'.2 → e = e') →
  Z.of_nat (length out) ≤ max_signed 64 →
  (∀ e src dst eid, 0 ≤ e < E → resolve e = Some (src, dst, eid) →
     0 ≤ eid ∧ eid * out_len + out_len ≤ Z.of_nat (length out)) →
  ∃ out',
    launch_coo iw fuel op UseBcast UseIdx nblks nthrs ufeat vfeat out
      row col edge_map N M E reduce_size ubcast_off vbcast_off
      ufeat_len vfeat_len out_len = Some out'
    ∧ launch_csr iw fuel op UseBcast UseIdx nblks' nthrs' ufeat vfeat out
        (ptr_to row_ptr) indices edge_map N M E reduce_size
        ubcast_off vbcast_off ufeat_len vfeat_len out_len = Some out'.
Proof.
  intros resolve cellf Hiw ok ok' Hwf Hfit Hfuel Hsame Hmap Hcell Hdistinct
    Hsize Hbounds.
  assert (Hcoo : ∀ e, 0 ≤ e < E → is_Some (resolve e)).
  { intros e He. destruct (Hsame e He) as (src & dst & Hs & Hd & _).
    unfold resolve, coo_endpoints. rewrite Hs, Hd. simpl.
    destruct UseIdx; [|by eexists].
    destruct (Hmap eq_refl e He) as [eid ->]. by eexists. }
  assert (Hres : ∀ e, 0 ≤ e < E →
            csr_endpoints iw fuel UseIdx (ptr_to row_ptr) indices edge_map N e
            = resolve e).
  { intros e He. destruct (Hsame e He) as (src & dst & Hs & Hd & Hh & Hi).
    rewrite (csr_endpoints_holds iw fuel UseIdx row_ptr indices edge_map
               N E e src dst) by done.
    unfold resolve, coo_endpoints. by rewrite Hs, Hd. }
  destruct (SDDMM_launch_result iw fuel op UseBcast UseIdx (Coo row col)
              ufeat vfeat edge_map N M E reduce_size ubcast_off vbcast_off
              ufeat_len vfeat_len out_len nblks nthrs ok Hcoo Hcell Hdistinct
              (length out) Hsize Hbounds out eq_refl)
    as (out1 & Hrun1 & Hst1 & _).
  destruct (SDDMM_launch_result iw fuel op UseBcast UseIdx
              (Csr (ptr_to row_ptr) indices)
              ufeat vfeat edge_map N M E reduce_size ubcast_off vbcast_off
              ufeat_len vfeat_len out_len nblks' nthrs' ok')
    with (size := length out) (out := out)
    as (out2 & Hrun2 & Hst2 & _); simpl; try done.
  - intros e He. rewrite Hres by done. by apply Hcoo.
  - intros e p r He Hp. rewrite Hres by done. by apply Hcell.
  - intros e e' r r' He He'. rewrite !Hres by done. by apply Hdistinct.
  - intros e src dst eid He. rewrite Hres by done. by apply Hbounds.
  - exists out1. split; [exact Hrun1|]. simpl in Hrun2. rewrite Hrun2.
    rewrite <- Hst1, <- Hst2. f_equal. apply list_bind_ext_in.
    intros [e p] Hc. apply elem_of_all_cells in Hc as [He _].
    unfold cell_stores. simpl. by rewrite Hres.
Qed.

Lemma example_other_launch_ok :
  launch_ok 32 64 4 3 2 (dim3.mk 2 1) (dim3.mk 1 2).
Proof. constructor; unfold max_signed; simpl; lia. Defined.

Lemma example_same_edges (e : Z) :
  0 ≤ e < 3 →
  ∃ src dst, _ldg (ptr_to [0; 0; 1] +ₚ e) = Some src
             ∧ _ldg (ptr_to [0; 1; 1] +ₚ e) = Some dst
             ∧ holds_edge [0; 2; 3] src e
             ∧ _ldg (ptr_to [0; 1; 1] +ₚ e) = Some dst.
Proof.
  revert e. each_in_range.
  - exists 0, 0. split; [done|]. split; [done|]. split; [|done].
    split; [done|]. exists 0, 2. split; [done|]. split; [done|]. lia.
  - exists 0, 1. split; [done|]. split; [done|]. split; [|done].
    split; [done|]. exists 0, 2. split; [done|]. split; [done|]. lia.
  - exists 1, 1. split; [done|]. split; [done|]. split; [|done].
    split; [done|]. exists 2, 3. split; [done|]. split; [done|]. lia.
Qed.

Lemma example_permuted_rows_distinct (e e' : Z) (r r' : Z * Z * Z) :
  0 ≤ e < 3 → 0 ≤ e' < 3 →
  endpoints 32 4 true example.coo example.edge_map 2 e = Some r →
  endpoints 32 4 true example.coo example.edge_map 2 e' = Some r' →
  r.2 = r'.2 → e = e'.
Proof.
  intros He He'. revert r r'. revert e' He'. revert e He.
  each_in_range; each_in_range; intros r r' Hr Hr' Heq;
    vm_compute in Hr, Hr'; by simplify_eq.
Qed.

Lemma example_permuted_rows_in_bounds (e src dst eid : Z) :
  0 ≤ e < 3 →
  endpoints 32 4 true example.coo example.edge_map 2 e
  = Some (src, dst, eid) →
  0 ≤ eid ∧ eid * 2 + 2 ≤ Z.of_nat (length example.zeros).
Proof.
  intros He. revert src dst eid. revert e He.
  each_in_range; intros src dst eid Hr; vm_compute in Hr; simplify_eq;
    simpl; lia.
Qed.

Lemma coo_and_csr_agree_witness :
  ∃ out',
    launch_coo 32 4 functor.Mul false true example.nblks example.nthrs
      example.ufeat example.vfeat example.zeros
      (ptr_to [0; 0; 1]) (ptr_to [0; 1; 1]) example.edge_map 2 2 3 1
      nullptr nullptr 2 2 2 = Some out'
    ∧ launch_csr 32 4 functor.Mul false true (dim3.mk 2 1) (dim3.mk 1 2)
        example.ufeat example.vfeat example.zeros
        (ptr_to [0; 2; 3]) (ptr_to [0; 1; 1]) example.edge_map 2 2 3 1
        nullptr nullptr 2 2 2 = Some out'.
Proof.
  apply (coo_and_csr_agree 32 4 functor.Mul false true
           (ptr_to [0; 0; 1]) (ptr_to [0; 1; 1]) [0; 2; 3] (ptr_to [0; 1; 1])
           example.ufeat example.vfeat example.edge_map 2 2 3 1
           nullptr nullptr 2 2 2 example.nblks example.nthrs
           (dim3.mk 2 1) (dim3.mk 1 2) example.zeros).
  - lia.
  - exact example_launch_ok.
  - exact example_other_launch_ok.
  - exact wf_indptr_example_csr.
  - by vm_compute.
  - simpl. lia.
  - exact example_same_edges.
  - intros _. each_in_range; by eexists.
  - exact example_permuted_cells_ok.
  - exact example_permuted_rows_distinct.
  - by vm_compute.
  - exact example_permuted_rows_in_bounds.
Defined.

(** The two launches of the example, evaluated: the edge map [[2,0,1]] sends
    the result of edge 0 to row 2. *)
Example coo_and_csr_on_example :
  launch_coo 32 4 functor.Mul false true example.nblks example.nthrs
    example.ufeat example.vfeat example.zeros
    (ptr_to [0; 0; 1]) (ptr_to [0; 1; 1]) example.edge_map 2 2 3 1
    nullptr nullptr 2 2 2 = Some [30; 80; 90; 160; 10; 40]
  ∧ launch_csr 32 4 functor.Mul false true (dim3.mk 2 1) (dim3.mk 1 2)
      example.ufeat example.vfeat example.zeros
      (ptr_to [0; 2; 3]) (ptr_to [0; 1; 1]) example.edge_map 2 2 3 1
      nullptr nullptr 2 2 2 = Some [30; 80; 90; 160; 10; 40].
Proof. split; by vm_compute. Qed.

(** ** C9: a launch assigns, it does not accumulate *)

(** C9.  A launch assigns each output cell its value outright.  On the
    buffer it produced, a second launch on the same inputs changes nothing;
    started on any other buffer of the same size (freshly zeroed or not) it
    succeeds as well, the cell of every (edge, position) pair holds the same
    value, the operator's result for the pair, and the cells outside the
    output rows keep what they held.  When the output rows cover the buffer,
    the two output buffers are identical; they are identical as well when
    the two launches start from identical buffers, such as two freshly
    zeroed ones. *)
Theorem launch_overwrites_output (iw : Z) (fuel : nat) {DType : Type}
    (op : BinaryOp DType) (UseBcast UseIdx : bool) (enc : encoding)
    (ufeat vfeat : ptr DType) (edge_map : ptr Z) (N M E reduce_size : Z)
    (ubcast_off vbcast_off : ptr Z) (ufeat_len vfeat_len out_len : Z)
    (gridDim blockDim : dim3.t) (out : list DType) :
  let resolve := endpoints iw fuel UseIdx enc edge_map N in
  let cellf := cell_of iw op UseBcast ufeat vfeat reduce_size
                 ubcast_off vbcast_off ufeat_len vfeat_len out_len in
  let run := λ buffer,
    launch iw fuel op UseBcast UseIdx enc gridDim blockDim ufeat vfeat buffer
      edge_map N M E reduce_size ubcast_off vbcast_off
      ufeat_len vfeat_len out_len in
  let stored := (all_cells E out_len ≫= cell_stores resolve cellf).*1 in
  launch_ok iw (tx_bits enc) fuel E out_len gridDim blockDim →
  (∀ e, 0 ≤ e < E → is_Some (resolve e)) →
  (∀ e p r, 0 ≤ e < E → 0 ≤ p < out_len → resolve e = Some r →
     is_Some (cellf r p)) →
  (∀ e e' r r', 0 ≤ e < E → 0 ≤ e' < E →
     resolve e = Some r → resolve e' = Some r' → r.2 = r'.2 → e = e') →
  Z.of_nat (length out) ≤ max_signed 64 →
  (∀ e src dst eid, 0 ≤ e < E → resolve e = Some (src, dst, eid) →
     0 ≤ eid ∧ eid * out_len + out_len ≤ Z.of_nat (length out)) →
  ∃ out1,
    run out = Some out1
    ∧ run out1 = Some out1
    ∧ ∀ out', length out' = length out →
        ∃ out1',
          run out' = Some out1'
          ∧ (∀ e p, 0 ≤ e < E → 0 ≤ p < out_len →
               ∃ eid val,
                 cell_stores resolve cellf (e, p) = [(eid * out_len + p, val)]
                 ∧ out1 !! Z.to_nat (eid * out_len + p) = Some val
                 ∧ out1' !! Z.to_nat (eid * out_len + p) = Some val)
          ∧ (∀ i, 0 ≤ i → i ∉ stored →
                  out1' !! Z.to_nat i = out' !! Z.to_nat i)
          ∧ ((∀ i, 0 ≤ i < Z.of_nat (length out) → i ∈ stored) →
             out1' = out1)
          ∧ (out' = out → out1' = out1).
Proof.
  intros resolve cellf run stored ok Hend Hcell Hdistinct Hsize Hbounds.
  pose proof (SDDMM_launch_result iw fuel op UseBcast UseIdx enc
                ufeat vfeat edge_map N M E reduce_size ubcast_off vbcast_off
                ufeat_len vfeat_len out_len gridDim blockDim ok Hend Hcell
                Hdistinct (length out) Hsize Hbounds) as Hresult.
  destruct (Hresult out eq_refl) as (out1 & Hrun & Hst & Hlen1 & Hin1 & _).
  exists out1. split; [done|]. split.
  { destruct (Hresult out1 Hlen1) as (out2 & Hrun2 & Hst2 & _).
    unfold run. rewrite Hrun2. rewrite <- Hst2. by eapply store_all_idemp. }
  intros out' Hlen'.
  destruct (Hresult out' Hlen') as (out1' & Hrun' & _ & Hlen1' & Hin' & Hout').
  exists out1'. split; [done|]. split; [|split; [done|split]].
  3: { intros ->. unfold run in Hrun, Hrun'. congruence. }
  - intros e p He Hp.
    edestruct cell_stores_shape
      as (src & dst & eid & la & ra & val & Hr & _ & _ & _ & Hstore);
      [exact Hend | exact Hcell | exact He | exact Hp |].
    rewrite (wrap_small 64 (eid * _)) in Hstore.
    2: lia.
    2: { destruct (Hbounds e src dst eid He Hr).
         pose proof (positions_nonneg _ _ _ _ _ _ _ ok).
         assert (0 < 2 ^ (64 - 1)) by done. unfold fits. nia. }
    assert ((eid * out_len + p, val)
            ∈ all_cells E out_len ≫= cell_stores resolve cellf) as Hmem.
    { eapply elem_of_SDDMM_stores; [exact Hend | exact Hcell |].
      by exists e, p. }
    exists eid, val. split; [done|]. split; [by apply Hin1 | by apply Hin'].
  - intros Hcover. apply lookup_Z_eq; [congruence|]. intros i Hi.
    destruct (decide (i < Z.of_nat (length out))) as [Hlt|Hge].
    + pose proof (Hcover i ltac:(lia)) as Hmem.
      apply list_elem_of_fmap in Hmem as ([a v] & -> & Hav).
      simpl. by rewrite (Hin1 a v), (Hin' a v).
    + rewrite !lookup_ge_None_2; [done|lia..].
Qed.

Lemma example_rows_in_bounds (e src dst eid : Z) :
  0 ≤ e < 3 →
  endpoints 32 4 false example.coo nullptr 2 e = Some (src, dst, eid) →
  0 ≤ eid ∧ eid * 2 + 2 ≤ Z.of_nat (length example.zeros).
Proof.
  intros He. revert src dst eid. revert e He.
  each_in_range; intros src dst eid Hr; vm_compute in Hr; simplify_eq;
    simpl; lia.
Qed.

Lemma launch_overwrites_output_witness :
  ∃ out1,
    launch 32 4 functor.Mul false false example.coo
      example.nblks example.nthrs example.ufeat example.vfeat example.zeros
      nullptr 2 2 3 1 nullptr nullptr 2 2 2 = Some out1
    ∧ launch 32 4 functor.Mul false false example.coo
        example.nblks example.nthrs example.ufeat example.vfeat out1
        nullptr 2 2 3 1 nullptr nullptr 2 2 2 = Some out1.
Proof.
  destruct (launch_overwrites_output 32 4 functor.Mul false false
              example.coo example.ufeat example.vfeat nullptr 2 2 3 1
              nullptr nullptr 2 2 2 example.nblks example.nthrs example.zeros
              example_launch_ok example_endpoints_ok example_cells_ok
              example_rows_distinct ltac:(by vm_compute)
              example_rows_in_bounds)
    as (out1 & Hrun & Hagain & _).
  exists out1. split; [exact Hrun | exact Hagain].
Defined.

(** A launch on a zeroed buffer and on a buffer full of other values. *)
Example launch_ignores_prior_contents :
  launch 32 4 functor.Mul false false example.coo
    example.nblks example.nthrs example.ufeat example.vfeat example.zeros
    nullptr 2 2 3 1 nullptr nullptr 2 2 2
  = launch 32 4 functor.Mul false false example.coo
      example.nblks example.nthrs example.ufeat example.vfeat
      [7; 7; 7; 7; 7; 7] nullptr 2 2 3 1 nullptr nullptr 2 2 2.
Proof. by vm_compute. Qed.

(** ** Further runs of the two kernels *)

(** A windowed reduction: the dot product over windows of two elements
    ([reduce_size = 2], [out_len = 1]) on the features of the example. *)
Example dot_product_on_example :
  launch 32 4 functor.Dot false false example.coo
    example.nblks example.nthrs example.ufeat example.vfeat [0; 0; 0]
    nullptr 2 2 3 2 nullptr nullptr 2 2 1
  = Some [50; 110; 250]
  ∧ launch 64 4 functor.Dot false false example.csr
      example.nblks example.nthrs example.ufeat example.vfeat [0; 0; 0]
      nullptr 2 2 3 2 nullptr nullptr 2 2 1
    = Some [50; 110; 250].
Proof. split; by vm_compute. Qed.

(** Broadcasting: destination features of width one ([[10], [30]]) against
    source features of width two, with the offset tables [[0, 1]] and
    [[0, 0]]. *)
Example broadcast_on_example :
  launch 32 4 functor.Mul true false example.coo
    example.nblks example.nthrs example.ufeat (ptr_to [10; 30]) example.zeros
    nullptr 2 2 3 1 (ptr_to [0; 1]) (ptr_to [0; 0]) 2 1 2
  = Some [10; 20; 30; 60; 90; 120].
Proof. by vm_compute. Qed.

(** A fault: with broadcasting and a null offset table the first load of
    the table faults. *)
Example broadcast_needs_tables :
  launch 32 4 functor.Mul true false example.coo
    example.nblks example.nthrs example.ufeat example.vfeat example.zeros
    nullptr 2 2 3 1 nullptr nullptr 2 2 2
  = None.
Proof. by vm_compute. Qed.

(** * Further properties of the code *)

(** ** BinarySearchSrc on any key and any array *)

Section BinarySearchAnyKey.

Variable iw : Z.
Hypothesis iw_pos : 1 ≤ iw.

(** An array of [N + 1] entries; [N] is the initial [hi]. *)
Variables (array : list Z) (N : Z).
Hypothesis array_length : Z.of_nat (length array) = N + 1.
Hypothesis mid_fits : 2 * N ≤ max_signed iw.

Lemma array_lookup (i : Z) : 0 ≤ i ≤ N → is_Some (array !! Z.to_nat i).
Proof. intros Hi. apply lookup_lt_is_Some. lia. Qed.

(** Every iteration at least halves [hi - lo], so [n] iterations suffice
    when [hi - lo < 2 ^ (n - 1)]; the loop reads entries between [lo] and
    [hi - 1] only.  On a sorted array it keeps the entries below [lo] at most
    [e] and the entries from [hi] to [N - 1] above [e]. *)
Lemma BinarySearchSrc_loop_halves (e : Z) (n : nat) :
  ∀ lo hi,
    0 ≤ lo ≤ hi → hi ≤ N → hi - lo < 2 ^ (Z.of_nat n - 1) →
    ∃ h, BinarySearchSrc_loop iw n (ptr_to array) e lo hi = Some h
         ∧ lo ≤ h ≤ hi
         ∧ (Sorted Z.le array →
            (∀ k a, 0 ≤ k < lo → array !! Z.to_nat k = Some a → a ≤ e) →
            (∀ k b, hi ≤ k < N → array !! Z.to_nat k = Some b → e < b) →
            (∀ k a, 0 ≤ k < h → array !! Z.to_nat k = Some a → a ≤ e)
            ∧ (∀ k b, h ≤ k < N → array !! Z.to_nat k = Some b → e < b)).
Proof.
  induction n as [|n IH]; intros lo hi Hlo Hhi Hn.
  { change (Z.of_nat 0 - 1) with (-1) in Hn. rewrite Z.pow_neg_r in Hn; lia. }
  simpl BinarySearchSrc_loop. destruct (Z.ltb_spec lo hi) as [Hlt|Hge].
  - rewrite (mid_exact iw (lo + hi)) by lia.
    set (mid := (lo + hi) `div` 2).
    assert (Hmid : lo ≤ mid < hi).
    { unfold mid. split.
      - apply Z.div_le_lower_bound; lia.
      - apply Z.div_lt_upper_bound; lia. }
    assert (Hhalf : 2 * mid ≤ lo + hi < 2 * mid + 2).
    { unfold mid. pose proof (Z.div_mod (lo + hi) 2 ltac:(lia)).
      pose proof (Z.mod_pos_bound (lo + hi) 2 ltac:(lia)). lia. }
    assert (Hpow : 2 ^ (Z.of_nat (S n) - 1) = 2 * 2 ^ (Z.of_nat n - 1)).
    { destruct n as [|n].
      - change (2 ^ (Z.of_nat 1 - 1)) with 1 in Hn. lia.
      - rewrite <- Z.pow_succ_r by lia. f_equal. lia. }
    rewrite _ldg_ptr_to by lia.
    destruct (array_lookup mid) as [v Hv]; [lia|]. rewrite Hv. simpl.
    destruct (Z.leb_spec v e) as [Hle|Hgt].
    + rewrite wrap_nonneg by lia.
      destruct (IH (mid + 1) hi) as (h & Hrun & Hh & Hinv); [lia | lia | lia |].
      exists h. split; [done|]. split; [lia|].
      intros Hs Hbelow Habove. apply Hinv; [done| |done].
      intros k a Hk Hka. etrans; [|exact Hle].
      eapply (sorted_lookup_le array (Z.to_nat k) (Z.to_nat mid));
        [done | lia | done | done].
    + destruct (IH lo mid) as (h & Hrun & Hh & Hinv); [lia | lia | lia |].
      exists h. split; [done|]. split; [lia|].
      intros Hs Hbelow Habove. apply Hinv; [done|done|].
      intros k b Hk Hkb. eapply Z.lt_le_trans; [exact Hgt|].
      eapply (sorted_lookup_le array (Z.to_nat mid) (Z.to_nat k));
        [done | lia | done | done].
  - exists hi. split; [done|]. split; [lia|].
    intros _ Hbelow Habove. split; [|done].
    intros k a Hk. apply Hbelow. lia.
Qed.

Lemma log2_up_budget (n : nat) :
  0 ≤ N → Z.log2_up (N + 1) < Z.of_nat n → N < 2 ^ (Z.of_nat n - 1).
Proof.
  intros HN Hn.
  pose proof (Z.log2_log2_up_spec (N + 1) ltac:(lia)) as [_ Hup].
  assert (2 ^ Z.log2_up (N + 1) ≤ 2 ^ (Z.of_nat n - 1)).
  { apply Z.pow_le_mono_r; lia. }
  lia.
Qed.

(** The search on an array of [N + 1 >= 1] entries, sorted or not. *)
Lemma BinarySearchSrc_run (fuel : nat) (e : Z) :
  0 ≤ N → Z.log2_up (N + 1) < Z.of_nat fuel →
  ∃ h v,
    BinarySearchSrc_loop iw fuel (ptr_to array) e 0 N = Some h
    ∧ 0 ≤ h ≤ N
    ∧ array !! Z.to_nat h = Some v
    ∧ BinarySearchSrc iw fuel (ptr_to array) (N + 1) e
      = Some (if v =? e then h else h - 1)
    ∧ (Sorted Z.le array →
       (∀ k a, 0 ≤ k < h → array !! Z.to_nat k = Some a → a ≤ e)
       ∧ (∀ k b, h ≤ k < N → array !! Z.to_nat k = Some b → e < b)).
Proof.
  intros HN Hfuel.
  destruct (BinarySearchSrc_loop_halves e fuel 0 N)
    as (h & Hrun & Hh & Hinv); [lia | lia | |].
  { rewrite Z.sub_0_r. by apply log2_up_budget. }
  destruct (array_lookup h) as [v Hv]; [lia|].
  exists h, v. split; [done|]. split; [lia|]. split; [done|]. split.
  - unfold BinarySearchSrc. replace (N + 1 - 1) with N by lia.
    rewrite wrap_nonneg by lia. rewrite Hrun. simpl.
    rewrite _ldg_ptr_to by lia. rewrite Hv. simpl.
    destruct (v =? e); [done|]. rewrite wrap_small; [done | lia |].
    assert (0 < 2 ^ (iw - 1)) by (apply Z.pow_pos_nonneg; lia). lia.
  - intros Hs. apply Hinv; [done | intros; lia | intros; lia].
Qed.

(** On a sorted array the result [r] splits the first [N] entries: those up
    to [r] are at most [e], those after [r] are above [e]; and [r] is the
    last index [N] exactly when the last entry is [e]. *)
Lemma BinarySearchSrc_sorted (fuel : nat) (e : Z) :
  0 ≤ N → Z.log2_up (N + 1) < Z.of_nat fuel → Sorted Z.le array →
  ∃ r, BinarySearchSrc iw fuel (ptr_to array) (N + 1) e = Some r
       ∧ -1 ≤ r ≤ N
       ∧ (∀ k a, 0 ≤ k ≤ r → array !! Z.to_nat k = Some a → a ≤ e)
       ∧ (∀ k b, r < k < N → array !! Z.to_nat k = Some b → e < b)
       ∧ (r = N ↔ array !! Z.to_nat N = Some e).
Proof.
  intros HN Hfuel Hs.
  destruct (BinarySearchSrc_run fuel e HN Hfuel)
    as (h & v & _ & Hh & Hv & -> & Hinv).
  destruct (Hinv Hs) as [Hbelow Habove].
  destruct (Z.eqb_spec v e) as [->|Hne].
  - assert (h = N) as ->.
    { destruct (decide (h = N)) as [|Hn]; [done|].
      pose proof (Habove h e ltac:(lia) Hv). lia. }
    eexists. split; [done|]. split; [lia|]. split; [|split; [intros; lia|done]].
    intros k a Hk Hka. destruct (decide (k = N)) as [->|Hn].
    + rewrite Hv in Hka. simplify_eq. lia.
    + eapply Hbelow; [|done]. lia.
  - eexists. split; [done|]. split; [lia|]. split; [|split].
    + intros k a Hk. apply Hbelow. lia.
    + intros k b Hk. apply Habove. lia.
    + split.
      * intros Heq. assert (h = N + 1) by lia. lia.
      * intros HN'. destruct (decide (h = N)) as [->|Hn].
        -- rewrite Hv in HN'. by simplify_eq.
        -- destruct (array_lookup N) as [b Hb]; [lia|].
           rewrite Hb in HN'. simplify_eq.
           pose proof (Habove h v ltac:(lia) Hv).
           assert (v ≤ e); [|lia].
           eapply (sorted_lookup_le array (Z.to_nat h) (Z.to_nat N));
             [done | lia | done | done].
Qed.

End BinarySearchAnyKey.

(** X1.  [BinarySearchSrc] on an array of [len >= 1] entries, whatever
    their order and whatever the key: it returns a position between [-1] and
    [len - 1] without reading outside the array (a load outside would
    fault), within a budget of [log2_up len + 1] iterations, and the last
    position is returned only when the last entry is the key.  With
    [len = 0] it reads [array[-1]] and faults.  [lo + hi] does not
    overflow. *)
Theorem BinarySearchSrc_stays_in_array (iw : Z) (fuel : nat)
    (array : list Z) (eid : Z) :
  let len := Z.of_nat (length array) in
  1 ≤ iw →
  2 * (len - 1) ≤ max_signed iw →
  Z.log2_up len < Z.of_nat fuel →
  (len = 0 → BinarySearchSrc iw fuel (ptr_to array) len eid = None)
  ∧ (1 ≤ len →
     ∃ r, BinarySearchSrc iw fuel (ptr_to array) len eid = Some r
          ∧ -1 ≤ r < len
          ∧ (r = len - 1 → array !! Z.to_nat r = Some eid)).
Proof.
  intros len Hiw Hfit Hfuel. split.
  - intros Hlen. rewrite Hlen. unfold BinarySearchSrc.
    rewrite wrap_small; [|done|].
    2: { assert (0 < 2 ^ (iw - 1)) by (apply Z.pow_pos_nonneg; lia).
         unfold max_signed. lia. }
    destruct fuel as [|fuel]; [done|]. done.
  - intros Hlen.
    assert (Z.of_nat (length array) = len - 1 + 1) as Hlength
      by (unfold len; lia).
    destruct (BinarySearchSrc_run iw Hiw array (len - 1) Hlength Hfit
                fuel eid)
      as (h & v & _ & Hh & Hv & Hrun & _); [lia| |].
    { by replace (len - 1 + 1) with len by lia. }
    replace (len - 1 + 1) with len in Hrun by lia. rewrite Hrun.
    eexists. split; [done|].
    destruct (Z.eqb_spec v eid) as [->|Hne].
    + split; [lia|]. intros _. done.
    + split; [lia|]. intros Heq. lia.
Qed.

Lemma BinarySearchSrc_stays_in_array_witness :
  ∃ r, BinarySearchSrc 32 3 (ptr_to [9; 4; 7; 1]) 4 5 = Some r
       ∧ -1 ≤ r < 4.
Proof.
  destruct (BinarySearchSrc_stays_in_array 32 3 [9; 4; 7; 1] 5
              ltac:(lia) ltac:(by vm_compute) ltac:(by vm_compute))
    as [_ Hrun].
  destruct (Hrun ltac:(simpl; lia)) as (r & Hr & Hrange & _).
  exists r. split; [exact Hr | exact Hrange].
Defined.

(** X2.  On a non-decreasing array of [N + 1] entries and for any key
    [eid], [BinarySearchSrc] returns the position [r] that splits the first
    [N] entries: the entries at positions up to [r] are at most [eid], the
    entries after [r] and before [N] are above [eid]; [r] is the last
    position [N] exactly when the last entry equals [eid].  The budget is
    logarithmic in the length; [lo + hi] does not overflow ([2 * N] is an
    [Idx] value). *)
Theorem BinarySearchSrc_splits_sorted_array (iw : Z) (fuel : nat)
    (array : list Z) (N eid : Z) :
  1 ≤ iw →
  Z.of_nat (length array) = N + 1 → 0 ≤ N →
  Sorted Z.le array →
  2 * N ≤ max_signed iw →
  Z.log2_up (N + 1) < Z.of_nat fuel →
  ∃ r, BinarySearchSrc iw fuel (ptr_to array) (N + 1) eid = Some r
       ∧ -1 ≤ r ≤ N
       ∧ (∀ k a, 0 ≤ k ≤ r → array !! Z.to_nat k = Some a → a ≤ eid)
       ∧ (∀ k b, r < k < N → array !! Z.to_nat k = Some b → eid < b)
       ∧ (r = N ↔ array !! Z.to_nat N = Some eid).
Proof.
  intros Hiw Hlen HN Hs Hfit Hfuel.
  by apply BinarySearchSrc_sorted.
Qed.

Lemma sorted_example : Sorted Z.le [3; 5; 5; 8; 13].
Proof. repeat constructor; lia. Qed.

Lemma BinarySearchSrc_splits_sorted_array_witness :
  ∃ r, BinarySearchSrc 32 4 (ptr_to [3; 5; 5; 8; 13]) (4 + 1) 6 = Some r
       ∧ -1 ≤ r ≤ 4.
Proof.
  destruct (BinarySearchSrc_splits_sorted_array 32 4 [3; 5; 5; 8; 13] 4 6
              ltac:(lia) eq_refl ltac:(lia) sorted_example
              ltac:(by vm_compute) ltac:(by vm_compute))
    as (r & Hr & Hrange & _).
  exists r. split; [exact Hr | exact Hrange].
Defined.

(** X3.  Outside the edge range of a well-formed row-pointer array
    [BinarySearchSrc] still returns, but not a row that holds the key: [-1]
    for a negative edge index, the row count [N] for the index [E] one past
    the last edge, and the last row [N - 1] for every index above [E].
    [lo + hi] does not overflow ([2 * N] is an [Idx] value). *)
Theorem BinarySearchSrc_outside_edge_range (iw : Z) (fuel : nat)
    (row_ptr : list Z) (N E e : Z) :
  1 ≤ iw →
  wf_indptr row_ptr N E →
  2 * N ≤ max_signed iw →
  Z.log2_up (N + 1) < Z.of_nat fuel →
  (e < 0 → BinarySearchSrc iw fuel (ptr_to row_ptr) (N + 1) e = Some (-1))
  ∧ (e = E → BinarySearchSrc iw fuel (ptr_to row_ptr) (N + 1) e = Some N)
  ∧ (E < e →
     BinarySearchSrc iw fuel (ptr_to row_ptr) (N + 1) e = Some (N - 1)).
Proof.
  intros Hiw Hwf Hfit Hfuel.
  pose proof (N_nonneg _ _ _ Hwf) as HN.
  destruct (BinarySearchSrc_sorted iw Hiw row_ptr N (indptr_length _ _ _ Hwf)
              Hfit fuel e HN Hfuel (indptr_mono _ _ _ Hwf))
    as (r & -> & Hr & Hbelow & Habove & Hlast).
  pose proof (indptr_first _ _ _ Hwf) as H0.
  pose proof (indptr_last _ _ _ Hwf) as HE.
  split; [|split].
  - intros He. f_equal. destruct (decide (r = -1)) as [|Hne]; [done|].
    pose proof (Hbelow 0 0 ltac:(lia) H0). lia.
  - intros ->. f_equal. by apply Hlast.
  - intros He. f_equal.
    assert (r ≠ N) as HrN.
    { intros Heq. apply Hlast in Heq. rewrite HE in Heq. simplify_eq. lia. }
    destruct (decide (r = N - 1)) as [|Hne]; [done|]. exfalso.
    destruct (indptr_lookup row_ptr N E Hwf (N - 1)) as [b Hb]; [lia|].
    pose proof (Habove (N - 1) b ltac:(lia) Hb).
    assert (b ≤ E); [|lia].
    eapply (indptr_le row_ptr N E Hwf (N - 1) N); [lia | done | done].
Qed.

Lemma BinarySearchSrc_outside_edge_range_witness :
  BinarySearchSrc 32 4 (ptr_to [0; 2; 2; 5]) (3 + 1) (-1) = Some (-1)
  ∧ BinarySearchSrc 32 4 (ptr_to [0; 2; 2; 5]) (3 + 1) 5 = Some 3
  ∧ BinarySearchSrc 32 4 (ptr_to [0; 2; 2; 5]) (3 + 1) 6 = Some (3 - 1).
Proof.
  pose proof (λ e, BinarySearchSrc_outside_edge_range 32 4 [0; 2; 2; 5] 3 5 e
                     ltac:(lia) wf_indptr_example ltac:(by vm_compute)
                     ltac:(by vm_compute)) as Hrun.
  split; [|split].
  - apply (Hrun (-1)). lia.
  - by apply (Hrun 5).
  - apply (Hrun 6). lia.
Defined.

(** X4.  [BinarySearchSrc] is monotone on the edges of a well-formed
    row-pointer array: a larger edge index never resolves to a smaller row.
    (At [E] itself this fails: [E] resolves to [N] and [E + 1] to
    [N - 1].)  [lo + hi] does not overflow ([2 * N] is an [Idx] value). *)
Theorem BinarySearchSrc_monotone (iw : Z) (fuel : nat)
    (row_ptr : list Z) (N E e1 e2 : Z) :
  1 ≤ iw →
  wf_indptr row_ptr N E →
  2 * N ≤ max_signed iw →
  Z.log2_up (N + 1) < Z.of_nat fuel →
  e1 ≤ e2 → e1 < E →
  ∃ r1 r2,
    BinarySearchSrc iw fuel (ptr_to row_ptr) (N + 1) e1 = Some r1
    ∧ BinarySearchSrc iw fuel (ptr_to row_ptr) (N + 1) e2 = Some r2
    ∧ r1 ≤ r2.
Proof.
  intros Hiw Hwf Hfit Hfuel Hle He1.
  pose proof (N_nonneg _ _ _ Hwf) as HN.
  destruct (BinarySearchSrc_sorted iw Hiw row_ptr N (indptr_length _ _ _ Hwf)
              Hfit fuel e1 HN Hfuel (indptr_mono _ _ _ Hwf))
    as (r1 & -> & Hr1 & Hbelow1 & _ & Hlast1).
  destruct (BinarySearchSrc_sorted iw Hiw row_ptr N (indptr_length _ _ _ Hwf)
              Hfit fuel e2 HN Hfuel (indptr_mono _ _ _ Hwf))
    as (r2 & -> & Hr2 & _ & Habove2 & _).
  exists r1, r2. split; [done|]. split; [done|].
  assert (r1 ≠ N) as HrN.
  { intros Heq. apply Hlast1 in Heq.
    rewrite (indptr_last _ _ _ Hwf) in Heq. simplify_eq. lia. }
  destruct (Z_le_gt_dec r1 r2) as [|Hgt]; [done|]. exfalso.
  destruct (indptr_lookup row_ptr N E Hwf r1) as [a Ha]; [lia|].
  pose proof (Hbelow1 r1 a ltac:(lia) Ha).
  pose proof (Habove2 r1 a ltac:(lia) Ha). lia.
Qed.

Lemma BinarySearchSrc_monotone_witness :
  ∃ r1 r2,
    BinarySearchSrc 32 4 (ptr_to [0; 2; 2; 5]) (3 + 1) 1 = Some r1
    ∧ BinarySearchSrc 32 4 (ptr_to [0; 2; 2; 5]) (3 + 1) 2 = Some r2
    ∧ r1 ≤ r2.
Proof.
  apply (BinarySearchSrc_monotone 32 4 [0; 2; 2; 5] 3 5 1 2);
    [lia | exact wf_indptr_example | by vm_compute | by vm_compute
    | lia | lia].
Defined.

(** ** What the search reads *)

Section BinarySearchFrame.

Variable iw : Z.
Hypothesis iw_pos : 1 ≤ iw.

(** Two arrays that hold the same entries at the positions [0 .. H]. *)
Variables (array array' : ptr Z) (H : Z).
Hypothesis same_entries :
  ∀ i, 0 ≤ i ≤ H → _ldg (array +ₚ i) = _ldg (array' +ₚ i).
Hypothesis mid_fits : 2 * H ≤ max_signed iw.

Lemma BinarySearchSrc_loop_ext_in (e : Z) (n : nat) :
  ∀ lo hi, 0 ≤ lo ≤ hi → hi ≤ H →
    BinarySearchSrc_loop iw n array e lo hi
    = BinarySearchSrc_loop iw n array' e lo hi
    ∧ ∀ h, BinarySearchSrc_loop iw n array' e lo hi = Some h → lo ≤ h ≤ hi.
Proof.
  induction n as [|n IH]; intros lo hi Hlo Hhi; [done|].
  simpl. destruct (Z.ltb_spec lo hi) as [Hlt|Hge].
  - rewrite (mid_exact iw (lo + hi)) by lia.
    set (mid := (lo + hi) `div` 2).
    assert (Hmid : lo ≤ mid < hi).
    { unfold mid. split.
      - apply Z.div_le_lower_bound; lia.
      - apply Z.div_lt_upper_bound; lia. }
    rewrite same_entries by lia.
    destruct (_ldg (array' +ₚ mid)) as [v|]; [|done]. simpl.
    rewrite (wrap_nonneg iw (mid + 1)) by lia.
    destruct (v <=? e).
    + destruct (IH (mid + 1) hi) as [Heq Hrange]; [lia | lia |].
      split; [done|]. intros h Hh. specialize (Hrange h Hh). lia.
    + destruct (IH lo mid) as [Heq Hrange]; [lia | lia |].
      split; [done|]. intros h Hh. specialize (Hrange h Hh). lia.
  - split; [done|]. intros h [= <-]. lia.
Qed.

Lemma BinarySearchSrc_ext_in (fuel : nat) (e : Z) :
  0 ≤ H →
  BinarySearchSrc iw fuel array (H + 1) e
  = BinarySearchSrc iw fuel array' (H + 1) e.
Proof.
  intros HH. unfold BinarySearchSrc.
  replace (H + 1 - 1) with H by lia. rewrite (wrap_nonneg iw H) by lia.
  destruct (BinarySearchSrc_loop_ext_in e fuel 0 H) as [-> Hrange];
    [lia | lia |].
  destruct (BinarySearchSrc_loop iw fuel array' e 0 H) as [h|]; [|done].
  simpl. specialize (Hrange h eq_refl). by rewrite same_entries by lia.
Qed.

End BinarySearchFrame.

(** X5.  [BinarySearchSrc] reads the entries [array[0 .. length - 1]] only:
    on two arrays that hold the same entries there it returns the same
    result (or faults alike) for every key and every budget, whatever the
    arrays hold elsewhere.  [lo + hi] does not overflow. *)
Theorem BinarySearchSrc_reads_first_entries (iw : Z) (fuel : nat)
    (array array' : ptr Z) (length eid : Z) :
  1 ≤ iw →
  1 ≤ length →
  2 * (length - 1) ≤ max_signed iw →
  (∀ i, 0 ≤ i < length → _ldg (array +ₚ i) = _ldg (array' +ₚ i)) →
  BinarySearchSrc iw fuel array length eid
  = BinarySearchSrc iw fuel array' length eid.
Proof.
  intros Hiw Hlen Hfit Hsame.
  replace length with (length - 1 + 1) by lia.
  apply BinarySearchSrc_ext_in; [done| |done|lia].
  intros i Hi. apply Hsame. lia.
Qed.

Lemma BinarySearchSrc_reads_first_entries_witness :
  BinarySearchSrc 32 4 (ptr_to [0; 2; 2; 5]) 4 3
  = BinarySearchSrc 32 4 (ptr_to [7; 0; 2; 2; 5; 7; 7] +ₚ 1) 4 3.
Proof.
  apply BinarySearchSrc_reads_first_entries;
    [lia | lia | by vm_compute |].
  each_in_range; by vm_compute.
Defined.

(** ** The midpoint of the search can overflow *)

(** X6.  With an [Idx] at least as wide as [int] (32 or 64 bits): when the
    row count is so large that [(N / 2 + 1) + N] exceeds the largest [Idx]
    value, a search that moves right at its first probe computes a second
    midpoint [(lo + hi) >> 1] from a wrapped, negative sum and loads
    [array[mid]] at a negative index: the search faults, whatever the
    budget.  With a 32-bit [Idx] this happens for the only edge of a
    well-formed array of [2^31 - 2] rows. *)
Theorem BinarySearchSrc_midpoint_overflow (iw : Z) (row_ptr : list Z)
    (N E e v : Z) :
  let lo := N `div` 2 + 1 in
  32 ≤ iw →
  wf_indptr row_ptr N E →
  0 ≤ e < E →
  3 ≤ N ≤ max_signed iw →
  max_signed iw < lo + N →
  row_ptr !! Z.to_nat (N `div` 2) = Some v → v ≤ e →
  wrap iw (lo + N) < 0
  ∧ _ldg (ptr_to row_ptr +ₚ Z.shiftr (wrap iw (lo + N)) 1) = None
  ∧ ∀ fuel, BinarySearchSrc iw fuel (ptr_to row_ptr) (N + 1) e = None.
Proof.
  intros lo Hiw Hwf He HN Hover Hv Hle.
  by apply (BinarySearchSrc_second_probe_faults iw row_ptr N e v).
Qed.

Lemma BinarySearchSrc_midpoint_overflow_witness :
  wf_indptr (replicate (Z.to_nat 2147483646) 0 ++ [1]) 2147483646 1
  ∧ BinarySearchSrc 32 32
      (ptr_to (replicate (Z.to_nat 2147483646) 0 ++ [1]))
      (2147483646 + 1) 0 = None.
Proof.
  assert (1 ≤ 2147483646) as HN by lia.
  split; [exact (wf_indptr_last_row 2147483646 HN)|].
  refine (proj2 (proj2 (BinarySearchSrc_midpoint_overflow 32
            (replicate (Z.to_nat 2147483646) 0 ++ [1]) 2147483646 1 0 0
            _ (wf_indptr_last_row 2147483646 HN) _ _ _ _ _)) 32%nat).
  - lia.
  - lia.
  - unfold max_signed. lia.
  - unfold max_signed. change (2147483646 `div` 2) with 1073741823. lia.
  - change (2147483646 `div` 2) with 1073741823.
    rewrite lookup_app_l by (rewrite length_replicate; lia).
    apply lookup_replicate_2. lia.
  - lia.
Defined.

(** ** Launches: what is read, and when nothing is stored *)

Section LaunchFrame.

(** A strided loop whose counter cannot overflow runs its body below the
    bound only. *)
Lemma strided_loop_ext_in {V : Type} (w b s : Z)
    (body body' : Z → option (list V)) (n : nat) :
  1 ≤ w → 0 < s → b + s ≤ max_signed w + 1 →
  (∀ i, 0 ≤ i < b → body i = body' i) →
  ∀ i0, 0 ≤ i0 →
    strided_loop n w b s body i0 = strided_loop n w b s body' i0.
Proof.
  intros Hw Hs Hfit Hext. induction n as [|n IH]; intros i0 Hi0; [done|].
  simpl. destruct (Z.ltb_spec i0 b) as [Hlt|]; [|done].
  rewrite Hext by lia. destruct (body' i0) as [ws|]; [|done]. simpl.
  rewrite wrap_nonneg by lia. by rewrite IH by lia.
Qed.

Lemma two_level_kernel_ext_in {R W : Type} (iw xw : Z) (fuel : nat) (E L : Z)
    (resolve resolve' : Z → option R) (cellf cellf' : R → Z → option (list W))
    (gridDim blockDim blockIdx threadIdx : dim3.t) :
  launch_ok iw xw fuel E L gridDim blockDim →
  (blockIdx, threadIdx) ∈ units gridDim blockDim →
  (∀ e, 0 ≤ e < E → resolve e = resolve' e) →
  (∀ e r p, 0 ≤ e < E → 0 ≤ p < L → resolve' e = Some r →
     cellf r p = cellf' r p) →
  two_level_kernel iw xw fuel E L resolve cellf
    gridDim blockDim blockIdx threadIdx
  = two_level_kernel iw xw fuel E L resolve' cellf'
      gridDim blockDim blockIdx threadIdx.
Proof.
  intros ok Hu Hr Hc. destruct ok.
  apply elem_of_units in Hu as [[Hbx Hby] [Htx Hty]].
  pose proof (axis_start_range _ _ _ _ Hby Hty) as Ry.
  pose proof (axis_start_range _ _ _ _ Hbx Htx) as Rx.
  unfold two_level_kernel.
  rewrite !uwrap32_small by lia. rewrite !wrap_nonneg by lia.
  apply strided_loop_ext_in; [done | nia | lia | | lia].
  intros e He. rewrite Hr by done.
  destruct (resolve' e) as [r|] eqn:Hre; [|done]. simpl.
  apply strided_loop_ext_in; [done | nia | lia | | lia].
  intros p Hp. by eapply Hc.
Qed.

Lemma run_grid_ext_in {W : Type}
    (k k' : dim3.t → dim3.t → dim3.t → dim3.t → option (list W))
    (gridDim blockDim : dim3.t) :
  (∀ u, u ∈ units gridDim blockDim →
        k gridDim blockDim u.1 u.2 = k' gridDim blockDim u.1 u.2) →
  run_grid k gridDim blockDim = run_grid k' gridDim blockDim.
Proof.
  intros Hk. unfold run_grid. f_equal.
  induction (units gridDim blockDim) as [|u us IH]; [done|].
  simpl. rewrite Hk by (apply elem_of_cons; by left).
  rewrite IH; [done|]. intros u' Hu'. apply Hk, elem_of_cons. by right.
Qed.

Lemma bind_const_nil {A B : Type} (l : list A) : l ≫= (λ _, @nil B) = [].
Proof. induction l as [|x l IH]; [done|]. by rewrite bind_cons, IH. Qed.

Lemma all_cells_empty (E L : Z) : E = 0 ∨ L = 0 → all_cells E L = [].
Proof.
  intros [-> | ->]; unfold all_cells; [done|].
  change (seqZ 0 0) with (@nil Z). apply bind_const_nil.
Qed.

End LaunchFrame.

(** X7.  A launch over an empty iteration space, in a geometry in which
    no counter overflows, stores nothing and returns the output buffer as it
    was.  With no edges ([E = 0]) nothing is
    loaded either, so every pointer may be null; with [out_len = 0] the
    endpoints of each edge are still loaded. *)
Theorem empty_iteration_space_stores_nothing (iw : Z) (fuel : nat)
    {DType : Type} (op : BinaryOp DType) (UseBcast UseIdx : bool)
    (enc : encoding) (ufeat vfeat : ptr DType) (edge_map : ptr Z)
    (N M E reduce_size : Z) (ubcast_off vbcast_off : ptr Z)
    (ufeat_len vfeat_len out_len : Z) (gridDim blockDim : dim3.t)
    (out : list DType) :
  launch_ok iw (tx_bits enc) fuel E out_len gridDim blockDim →
  E = 0 ∨ out_len = 0 →
  (∀ e, 0 ≤ e < E → is_Some (endpoints iw fuel UseIdx enc edge_map N e)) →
  run_grid
    (SDDMMKernel iw fuel op UseBcast UseIdx enc ufeat vfeat edge_map
       N M E reduce_size ubcast_off vbcast_off ufeat_len vfeat_len out_len)
    gridDim blockDim = Some []
  ∧ launch iw fuel op UseBcast UseIdx enc gridDim blockDim ufeat vfeat out
      edge_map N M E reduce_size ubcast_off vbcast_off
      ufeat_len vfeat_len out_len = Some out.
Proof.
  intros ok Hempty Hend.
  assert (Hrun : run_grid
    (SDDMMKernel iw fuel op UseBcast UseIdx enc ufeat vfeat edge_map
       N M E reduce_size ubcast_off vbcast_off ufeat_len vfeat_len out_len)
    gridDim blockDim = Some []).
  { rewrite SDDMM_grid; [|done|done|intros; lia]. f_equal.
    assert (grid_cells E out_len gridDim blockDim = []) as ->; [|done].
    apply Permutation_nil_r. rewrite <- (all_cells_empty E out_len Hempty).
    destruct ok. by apply grid_cells_cover. }
  split; [done|]. by rewrite launch_unfold, Hrun.
Qed.

Lemma no_edges_launch_ok :
  launch_ok 32 32 4 0 2 example.nblks example.nthrs.
Proof. constructor; unfold max_signed; simpl; lia. Qed.

Lemma empty_iteration_space_stores_nothing_witness :
  launch 32 4 functor.Mul true true (Coo nullptr nullptr)
    example.nblks example.nthrs nullptr nullptr [7; 7] nullptr
    0 0 0 1 nullptr nullptr 2 2 2 = Some [7; 7].
Proof.
  refine (proj2 (empty_iteration_space_stores_nothing 32 4 functor.Mul
                   true true (Coo nullptr nullptr) nullptr nullptr nullptr
                   0 0 0 1 nullptr nullptr 2 2 2
                   example.nblks example.nthrs [7; 7]
                   no_edges_launch_ok (or_introl eq_refl) _)).
  intros e He. lia.
Defined.

(** X8.  The kernels specialized with [UseIdx = false] never read
    [edge_map]: the stores of every unit and the output of a launch are the
    same with any edge-map pointer as with the null pointer (a load through
    a null pointer would fault).  Both kernels. *)
Theorem edge_map_never_read_without_idx (iw : Z) (fuel : nat)
    {DType : Type} (op : BinaryOp DType) (UseBcast : bool) (enc : encoding)
    (ufeat vfeat : ptr DType) (edge_map : ptr Z) (N M E reduce_size : Z)
    (ubcast_off vbcast_off : ptr Z) (ufeat_len vfeat_len out_len : Z)
    (gridDim blockDim : dim3.t) (out : list DType) :
  (∀ blockIdx threadIdx,
     SDDMMKernel iw fuel op UseBcast false enc ufeat vfeat edge_map
       N M E reduce_size ubcast_off vbcast_off
       ufeat_len vfeat_len out_len gridDim blockDim blockIdx threadIdx
     = SDDMMKernel iw fuel op UseBcast false enc ufeat vfeat nullptr
         N M E reduce_size ubcast_off vbcast_off
         ufeat_len vfeat_len out_len gridDim blockDim blockIdx threadIdx)
  ∧ launch iw fuel op UseBcast false enc gridDim blockDim ufeat vfeat out
      edge_map N M E reduce_size ubcast_off vbcast_off
      ufeat_len vfeat_len out_len
    = launch iw fuel op UseBcast false enc gridDim blockDim ufeat vfeat out
        nullptr N M E reduce_size ubcast_off vbcast_off
        ufeat_len vfeat_len out_len.
Proof.
  assert (Hk : ∀ blockIdx threadIdx,
     SDDMMKernel iw fuel op UseBcast false enc ufeat vfeat edge_map
       N M E reduce_size ubcast_off vbcast_off
       ufeat_len vfeat_len out_len gridDim blockDim blockIdx threadIdx
     = SDDMMKernel iw fuel op UseBcast false enc ufeat vfeat nullptr
         N M E reduce_size ubcast_off vbcast_off
         ufeat_len vfeat_len out_len gridDim blockDim blockIdx threadIdx).
  { intros bi ti. rewrite !SDDMMKernel_shape.
    apply two_level_kernel_ext; [|done]. intros e. by destruct enc. }
  split; [done|].
  rewrite !launch_unfold. by rewrite (run_grid_ext _ _ _ _ Hk).
Qed.

(** X9.  A launch without edge map ([UseIdx = false], any pointer
    [edge_map0]) and a launch with the identity edge map ([UseIdx = true],
    [edge_map[e] = e] for every edge) perform the same stores in every unit
    and give the same output buffer, in both encodings, in a geometry in
    which no counter overflows. *)
Theorem identity_edge_map_matches_no_map (iw : Z) (fuel : nat)
    {DType : Type} (op : BinaryOp DType) (UseBcast : bool) (enc : encoding)
    (ufeat vfeat : ptr DType) (edge_map0 edge_map : ptr Z)
    (N M E reduce_size : Z) (ubcast_off vbcast_off : ptr Z)
    (ufeat_len vfeat_len out_len : Z) (gridDim blockDim : dim3.t) :
  launch_ok iw (tx_bits enc) fuel E out_len gridDim blockDim →
  (∀ e, 0 ≤ e < E → _ldg (edge_map +ₚ e) = Some e) →
  (∀ u, u ∈ units gridDim blockDim →
     SDDMMKernel iw fuel op UseBcast false enc ufeat vfeat edge_map0
       N M E reduce_size ubcast_off vbcast_off
       ufeat_len vfeat_len out_len gridDim blockDim u.1 u.2
     = SDDMMKernel iw fuel op UseBcast true enc ufeat vfeat edge_map
         N M E reduce_size ubcast_off vbcast_off
         ufeat_len vfeat_len out_len gridDim blockDim u.1 u.2)
  ∧ ∀ out,
      launch iw fuel op UseBcast false enc gridDim blockDim ufeat vfeat out
        edge_map0 N M E reduce_size ubcast_off vbcast_off
        ufeat_len vfeat_len out_len
      = launch iw fuel op UseBcast true enc gridDim blockDim ufeat vfeat out
          edge_map N M E reduce_size ubcast_off vbcast_off
          ufeat_len vfeat_len out_len.
Proof.
  intros ok Hid.
  assert (Hk : ∀ u, u ∈ units gridDim blockDim →
     SDDMMKernel iw fuel op UseBcast false enc ufeat vfeat edge_map0
       N M E reduce_size ubcast_off vbcast_off
       ufeat_len vfeat_len out_len gridDim blockDim u.1 u.2
     = SDDMMKernel iw fuel op UseBcast true enc ufeat vfeat edge_map
         N M E reduce_size ubcast_off vbcast_off
         ufeat_len vfeat_len out_len gridDim blockDim u.1 u.2).
  { intros [bi ti] Hu. rewrite !SDDMMKernel_shape.
    apply two_level_kernel_ext_in; [done | done | | done].
    intros e He. destruct enc as [row col|indptr indices]; simpl;
      unfold coo_endpoints, csr_endpoints; by rewrite (Hid e He). }
  split; [done|]. intros out.
  rewrite !launch_unfold. by rewrite (run_grid_ext_in _ _ _ _ Hk).
Qed.

Lemma identity_edge_map_matches_no_map_witness :
  launch 32 4 functor.Mul false false example.csr
    example.nblks example.nthrs example.ufeat example.vfeat example.zeros
    nullptr 2 2 3 1 nullptr nullptr 2 2 2
  = launch 32 4 functor.Mul false true example.csr
      example.nblks example.nthrs example.ufeat example.vfeat example.zeros
      (ptr_to [0; 1; 2]) 2 2 3 1 nullptr nullptr 2 2 2.
Proof.
  refine (proj2 (identity_edge_map_matches_no_map 32 4 functor.Mul false
                   example.csr example.ufeat example.vfeat nullptr
                   (ptr_to [0; 1; 2]) 2 2 3 1 nullptr nullptr 2 2 2
                   example.nblks example.nthrs _ _) example.zeros).
  - constructor; unfold max_signed; simpl; lia.
  - each_in_range; by vm_compute.
Defined.

(** X10.  The output of a launch does not depend on the launch geometry:
    two launches of the same kernel on the same inputs with different grid
    and block extents perform the same stores up to their order and give
    the same output buffer.  No load and no operator call faults, distinct
    edges have distinct output rows, and no counter overflows. *)
Theorem launch_independent_of_geometry (iw : Z) (fuel : nat)
    {DType : Type} (op : BinaryOp DType) (UseBcast UseIdx : bool)
    (enc : encoding) (ufeat vfeat : ptr DType) (edge_map : ptr Z)
    (N M E reduce_size : Z) (ubcast_off vbcast_off : ptr Z)
    (ufeat_len vfeat_len out_len : Z)
    (nblks nthrs nblks' nthrs' : dim3.t) (out : list DType) :
  let resolve := endpoints iw fuel UseIdx enc edge_map N in
  let cellf := cell_of iw op UseBcast ufeat vfeat reduce_size
                 ubcast_off vbcast_off ufeat_len vfeat_len out_len in
  let kernel := SDDMMKernel iw fuel op UseBcast UseIdx enc ufeat vfeat
                  edge_map N M E reduce_size ubcast_off vbcast_off
                  ufeat_len vfeat_len out_len in
  launch_ok iw (tx_bits enc) fuel E out_len nblks nthrs →
  launch_ok iw (tx_bits enc) fuel E out_len nblks' nthrs' →
  (∀ e, 0 ≤ e < E → is_Some (resolve e)) →
  (∀ e p r, 0 ≤ e < E → 0 ≤ p < out_len → resolve e = Some r →
     is_Some (cellf r p)) →
  (∀ e src dst eid, 0 ≤ e < E → resolve e = Some (src, dst, eid) →
     fits 64 (eid * out_len)) →
  (∀ e e' r r', 0 ≤ e < E → 0 ≤ e' < E →
     resolve e = Some r → resolve e' = Some r' → r.2 = r'.2 → e = e') →
  (∃ ws ws', run_grid kernel nblks nthrs = Some ws
             ∧ run_grid kernel nblks' nthrs' = Some ws'
             ∧ ws ≡ₚ ws')
  ∧ launch iw fuel op UseBcast UseIdx enc nblks nthrs ufeat vfeat out
      edge_map N M E reduce_size ubcast_off vbcast_off
      ufeat_len vfeat_len out_len
    = launch iw fuel op UseBcast UseIdx enc nblks' nthrs' ufeat vfeat out
        edge_map N M E reduce_size ubcast_off vbcast_off
        ufeat_len vfeat_len out_len.
Proof.
  intros resolve cellf kernel ok ok' Hend Hcell Hexact Hdistinct. split.
  - do 2 eexists. split; [by apply SDDMM_grid|].
    split; [by apply SDDMM_grid|].
    rewrite (SDDMM_stores_perm _ _ _ _ _ _ _ _ _ _ _ _ _ _ _ _ _ _ _ ok).
    by rewrite (SDDMM_stores_perm _ _ _ _ _ _ _ _ _ _ _ _ _ _ _ _ _ _ _ ok').
  - by rewrite !SDDMM_launch.
Qed.

Lemma launch_independent_of_geometry_witness :
  launch 32 4 functor.Mul false false example.coo
    example.nblks example.nthrs example.ufeat example.vfeat example.zeros
    nullptr 2 2 3 1 nullptr nullptr 2 2 2
  = launch 32 4 functor.Mul false false example.coo
      (dim3.mk 2 1) (dim3.mk 1 2) example.ufeat example.vfeat example.zeros
      nullptr 2 2 3 1 nullptr nullptr 2 2 2.
Proof.
  refine (proj2 (launch_independent_of_geometry 32 4 functor.Mul false false
                   example.coo example.ufeat example.vfeat nullptr 2 2 3 1
                   nullptr nullptr 2 2 2 example.nblks example.nthrs
                   (dim3.mk 2 1) (dim3.mk 1 2) example.zeros
                   example_launch_ok _ example_endpoints_ok example_cells_ok
                   example_rows_exact example_rows_distinct)).
  constructor; unfold max_signed; simpl; lia.
Defined.

(** X11.  The kernels read [row], [col] (or [indices]) and, under
    [UseIdx], [edge_map] at the edge indices [0 .. E - 1] only, and, under
    [UseBcast], the two offset tables at the positions [0 .. out_len - 1]
    only: two launches whose arrays agree there (on the same row-pointer
    array, in the compressed encoding) perform the same stores in every unit
    and give the same output, faults included, whatever the arrays hold
    elsewhere, in a geometry in which no counter overflows. *)
Theorem kernel_reads_within_extents (iw : Z) (fuel : nat)
    {DType : Type} (op : BinaryOp DType) (UseBcast UseIdx : bool)
    (enc enc' : encoding) (ufeat vfeat : ptr DType)
    (edge_map edge_map' : ptr Z) (N M E reduce_size : Z)
    (ubcast_off vbcast_off ubcast_off' vbcast_off' : ptr Z)
    (ufeat_len vfeat_len out_len : Z) (gridDim blockDim : dim3.t) :
  launch_ok iw (tx_bits enc) fuel E out_len gridDim blockDim →
  match enc, enc' with
  | Coo row col, Coo row' col' =>
      ∀ e, 0 ≤ e < E → _ldg (row +ₚ e) = _ldg (row' +ₚ e)
                       ∧ _ldg (col +ₚ e) = _ldg (col' +ₚ e)
  | Csr indptr indices, Csr indptr' indices' =>
      indptr = indptr'
      ∧ ∀ e, 0 ≤ e < E → _ldg (indices +ₚ e) = _ldg (indices' +ₚ e)
  | _, _ => False
  end →
  (UseIdx = true →
   ∀ e, 0 ≤ e < E → _ldg (edge_map +ₚ e) = _ldg (edge_map' +ₚ e)) →
  (UseBcast = true →
   ∀ p, 0 ≤ p < out_len → pindex ubcast_off p = pindex ubcast_off' p
                          ∧ pindex vbcast_off p = pindex vbcast_off' p) →
  (∀ u, u ∈ units gridDim blockDim →
     SDDMMKernel iw fuel op UseBcast UseIdx enc ufeat vfeat edge_map
       N M E reduce_size ubcast_off vbcast_off
       ufeat_len vfeat_len out_len gridDim blockDim u.1 u.2
     = SDDMMKernel iw fuel op UseBcast UseIdx enc' ufeat vfeat edge_map'
         N M E reduce_size ubcast_off' vbcast_off'
         ufeat_len vfeat_len out_len gridDim blockDim u.1 u.2)
  ∧ ∀ out,
      launch iw fuel op UseBcast UseIdx enc gridDim blockDim ufeat vfeat out
        edge_map N M E reduce_size ubcast_off vbcast_off
        ufeat_len vfeat_len out_len
      = launch iw fuel op UseBcast UseIdx enc' gridDim blockDim ufeat vfeat
          out edge_map' N M E reduce_size ubcast_off' vbcast_off'
          ufeat_len vfeat_len out_len.
Proof.
  intros ok Henc Hmap Htab.
  assert (Hbits : tx_bits enc' = tx_bits enc).
  { by destruct enc, enc'. }
  assert (Heid : ∀ e, 0 ≤ e < E →
            (if UseIdx then _ldg (edge_map +ₚ e) else Some e)
            = (if UseIdx then _ldg (edge_map' +ₚ e) else Some e)).
  { intros e He. destruct UseIdx; [by apply Hmap|done]. }
  assert (Hk : ∀ u, u ∈ units gridDim blockDim →
     SDDMMKernel iw fuel op UseBcast UseIdx enc ufeat vfeat edge_map
       N M E reduce_size ubcast_off vbcast_off
       ufeat_len vfeat_len out_len gridDim blockDim u.1 u.2
     = SDDMMKernel iw fuel op UseBcast UseIdx enc' ufeat vfeat edge_map'
         N M E reduce_size ubcast_off' vbcast_off'
         ufeat_len vfeat_len out_len gridDim blockDim u.1 u.2).
  { intros [bi ti] Hu. rewrite !SDDMMKernel_shape. rewrite Hbits.
    apply two_level_kernel_ext_in; [done | done | |].
    - intros e He.
      destruct enc as [row col|indptr indices],
               enc' as [row' col'|indptr' indices']; try done; simpl.
      + unfold coo_endpoints. destruct (Henc e He) as [-> ->].
        by rewrite (Heid e He).
      + destruct Henc as [-> Hind]. unfold csr_endpoints.
        by rewrite (Hind e He), (Heid e He).
    - intros e r p He Hp _. unfold cell_of, feature_body.
      destruct UseBcast; [|done]. by destruct (Htab eq_refl p Hp) as [-> ->]. }
  split; [done|]. intros out.
  rewrite !launch_unfold. by rewrite (run_grid_ext_in _ _ _ _ Hk).
Qed.

Lemma kernel_reads_within_extents_witness :
  launch 32 4 functor.Mul true true example.coo
    example.nblks example.nthrs example.ufeat example.vfeat example.zeros
    example.edge_map 2 2 3 1 example.identity_off example.identity_off 2 2 2
  = launch 32 4 functor.Mul true true
      (Coo (ptr_to [0; 0; 1; 7]) (ptr_to [0; 1; 1; 7; 7]))
      example.nblks example.nthrs example.ufeat example.vfeat example.zeros
      (ptr_to [2; 0; 1; 7]) 2 2 3 1 (ptr_to [0; 1; 7]) (ptr_to [0; 1; 7; 7])
      2 2 2.
Proof.
  refine (proj2 (kernel_reads_within_extents 32 4 functor.Mul true true
                   example.coo
                   (Coo (ptr_to [0; 0; 1; 7]) (ptr_to [0; 1; 1; 7; 7]))
                   example.ufeat example.vfeat
                   example.edge_map (ptr_to [2; 0; 1; 7]) 2 2 3 1
                   example.identity_off example.identity_off
                   (ptr_to [0; 1; 7]) (ptr_to [0; 1; 7; 7]) 2 2 2
                   example.nblks example.nthrs example_launch_ok _ _ _)
            example.zeros).
  - simpl. each_in_range; by vm_compute.
  - intros _. each_in_range; by vm_compute.
  - intros _. each_in_range; by vm_compute.
Defined.

(** X12.  The entries of the offset tables are [int64_t] values that the
    kernels narrow to [Idx] before use: two pairs of tables whose entries
    agree after that narrowing give the same stores in every unit and the
    same output, so with a 32-bit [Idx] an entry [2^32 + k] acts as [k].
    The geometry is one in which no counter overflows. *)
Theorem offsets_are_narrowed_to_Idx (iw : Z) (fuel : nat)
    {DType : Type} (op : BinaryOp DType) (UseIdx : bool)
    (enc : encoding) (ufeat vfeat : ptr DType) (edge_map : ptr Z)
    (N M E reduce_size : Z)
    (ubcast_off vbcast_off ubcast_off' vbcast_off' : ptr Z)
    (ufeat_len vfeat_len out_len : Z) (gridDim blockDim : dim3.t) :
  launch_ok iw (tx_bits enc) fuel E out_len gridDim blockDim →
  (∀ p, 0 ≤ p < out_len →
     ∃ a a' b b',
       pindex ubcast_off p = Some a ∧ pindex ubcast_off' p = Some a'
       ∧ pindex vbcast_off p = Some b ∧ pindex vbcast_off' p = Some b'
       ∧ wrap iw a = wrap iw a' ∧ wrap iw b = wrap iw b') →
  (∀ u, u ∈ units gridDim blockDim →
     SDDMMKernel iw fuel op true UseIdx enc ufeat vfeat edge_map
       N M E reduce_size ubcast_off vbcast_off
       ufeat_len vfeat_len out_len gridDim blockDim u.1 u.2
     = SDDMMKernel iw fuel op true UseIdx enc ufeat vfeat edge_map
         N M E reduce_size ubcast_off' vbcast_off'
         ufeat_len vfeat_len out_len gridDim blockDim u.1 u.2)
  ∧ ∀ out,
      launch iw fuel op true UseIdx enc gridDim blockDim ufeat vfeat out
        edge_map N M E reduce_size ubcast_off vbcast_off
        ufeat_len vfeat_len out_len
      = launch iw fuel op true UseIdx enc gridDim blockDim ufeat vfeat out
          edge_map N M E reduce_size ubcast_off' vbcast_off'
          ufeat_len vfeat_len out_len.
Proof.
  intros ok Htab.
  assert (Hk : ∀ u, u ∈ units gridDim blockDim →
     SDDMMKernel iw fuel op true UseIdx enc ufeat vfeat edge_map
       N M E reduce_size ubcast_off vbcast_off
       ufeat_len vfeat_len out_len gridDim blockDim u.1 u.2
     = SDDMMKernel iw fuel op true UseIdx enc ufeat vfeat edge_map
         N M E reduce_size ubcast_off' vbcast_off'
         ufeat_len vfeat_len out_len gridDim blockDim u.1 u.2).
  { intros [bi ti] Hu. rewrite !SDDMMKernel_shape.
    apply two_level_kernel_ext_in; [done | done | done |].
    intros e r p He Hp _. unfold cell_of, feature_body.
    destruct (Htab p Hp) as (a & a' & b & b' & -> & -> & -> & -> & Ha & Hb).
    simpl. by rewrite Ha, Hb. }
  split; [done|]. intros out.
  rewrite !launch_unfold. by rewrite (run_grid_ext_in _ _ _ _ Hk).
Qed.

Lemma offsets_are_narrowed_to_Idx_witness :
  launch 32 4 functor.Mul true false example.coo
    example.nblks example.nthrs example.ufeat example.vfeat example.zeros
    nullptr 2 2 3 1 (ptr_to [0; 1]) (ptr_to [0; 1]) 2 2 2
  = launch 32 4 functor.Mul true false example.coo
      example.nblks example.nthrs example.ufeat example.vfeat example.zeros
      nullptr 2 2 3 1 (ptr_to [4294967296; 4294967297])
      (ptr_to [8589934592; 1]) 2 2 2.
Proof.
  refine (proj2 (offsets_are_narrowed_to_Idx 32 4 functor.Mul false
                   example.coo example.ufeat example.vfeat nullptr 2 2 3 1
                   (ptr_to [0; 1]) (ptr_to [0; 1])
                   (ptr_to [4294967296; 4294967297])
                   (ptr_to [8589934592; 1]) 2 2 2
                   example.nblks example.nthrs example_launch_ok _)
            example.zeros).
  each_in_range.
  - exists 0, 4294967296, 0, 8589934592. by vm_compute.
  - exists 1, 4294967297, 1, 1. by vm_compute.
Defined.

(** Tables with entries beyond 32 bits, run with a 32-bit [Idx]. *)
Example narrowed_offsets_on_example :
  launch 32 4 functor.Mul true false example.coo
    example.nblks example.nthrs example.ufeat example.vfeat example.zeros
    nullptr 2 2 3 1 (ptr_to [4294967296; 4294967297])
    (ptr_to [8589934592; 1]) 2 2 2
  = Some [10; 40; 30; 80; 90; 160].
Proof. by vm_compute. Qed.

(** ** Edges in batches *)

Section Batches.

Lemma _ldg_padd {A : Type} (p : ptr A) (a b : Z) :
  _ldg (p +ₚ a +ₚ b) = _ldg (p +ₚ (a + b)).
Proof. unfold _ldg, padd. simpl. by rewrite Z.add_assoc. Qed.

Lemma store_all_app {A : Type} (ws1 ws2 : list (Z * A)) :
  ∀ b, store_all b (ws1 ++ ws2) = store_all b ws1 ≫= λ b', store_all b' ws2.
Proof.
  induction ws1 as [|[i v] ws1 IH]; intros b; [done|].
  simpl. destruct (store b i v) as [b1|]; [|done]. simpl. apply IH.
Qed.

Lemma all_cells_app (E1 E2 L : Z) :
  0 ≤ E1 → 0 ≤ E2 →
  all_cells (E1 + E2) L
  = all_cells E1 L ++ (all_cells E2 L ≫= λ c, [(E1 + c.1, c.2)]).
Proof.
  intros H1 H2. unfold all_cells.
  rewrite seqZ_app by done. rewrite bind_app. f_equal.
  replace (0 + E1) with (E1 + 0) by lia. rewrite <- fmap_add_seqZ.
  rewrite list_bind_assoc.
  induction (seqZ 0 E2) as [|e es IH]; [done|].
  rewrite fmap_cons, !bind_cons, IH. f_equal.
  rewrite list_bind_assoc. apply list_bind_ext_in. intros p _.
  by rewrite bind_singleton.
Qed.

End Batches.

(** X13.  The coordinate kernel can process the edges in batches: a launch
    over [E1 + E2] edges with an edge map gives the same output buffer as a
    launch over the first [E1] edges followed, on its output, by a launch
    over the remaining [E2] edges with [row], [col] and [edge_map] advanced
    by [E1], whatever the three geometries.  No load and no operator call
    faults, distinct edges have distinct output rows, and no counter
    overflows. *)
Theorem launch_coo_in_two_batches (iw : Z) (fuel : nat) {DType : Type}
    (op : BinaryOp DType) (UseBcast : bool)
    (row col : ptr Z) (ufeat vfeat : ptr DType) (edge_map : ptr Z)
    (N M E1 E2 reduce_size : Z) (ubcast_off vbcast_off : ptr Z)
    (ufeat_len vfeat_len out_len : Z)
    (nblks nthrs nblks1 nthrs1 nblks2 nthrs2 : dim3.t) (out : list DType) :
  let resolve := coo_endpoints true row col edge_map in
  let cellf := cell_of iw op UseBcast ufeat vfeat reduce_size
                 ubcast_off vbcast_off ufeat_len vfeat_len out_len in
  launch_ok iw 32 fuel (E1 + E2) out_len nblks nthrs →
  launch_ok iw 32 fuel E1 out_len nblks1 nthrs1 →
  launch_ok iw 32 fuel E2 out_len nblks2 nthrs2 →
  (∀ e, 0 ≤ e < E1 + E2 → is_Some (resolve e)) →
  (∀ e p r, 0 ≤ e < E1 + E2 → 0 ≤ p < out_len → resolve e = Some r →
     is_Some (cellf r p)) →
  (∀ e src dst eid, 0 ≤ e < E1 + E2 → resolve e = Some (src, dst, eid) →
     fits 64 (eid * out_len)) →
  (∀ e e' r r', 0 ≤ e < E1 + E2 → 0 ≤ e' < E1 + E2 →
     resolve e = Some r → resolve e' = Some r' → r.2 = r'.2 → e = e') →
  launch_coo iw fuel op UseBcast true nblks nthrs ufeat vfeat out
    row col edge_map N M (E1 + E2) reduce_size ubcast_off vbcast_off
    ufeat_len vfeat_len out_len
  = launch_coo iw fuel op UseBcast true nblks1 nthrs1 ufeat vfeat out
      row col edge_map N M E1 reduce_size ubcast_off vbcast_off
      ufeat_len vfeat_len out_len
    ≫= λ out1,
      launch_coo iw fuel op UseBcast true nblks2 nthrs2 ufeat vfeat out1
        (row +ₚ E1) (col +ₚ E1) (edge_map +ₚ E1) N M E2 reduce_size
        ubcast_off vbcast_off ufeat_len vfeat_len out_len.
Proof.
  intros resolve cellf ok ok1 ok2 Hend Hcell Hexact Hdistinct.
  pose proof (edges_nonneg _ _ _ _ _ _ _ ok1) as HE1.
  pose proof (edges_nonneg _ _ _ _ _ _ _ ok2) as HE2.
  assert (Hshift : ∀ e,
    coo_endpoints true (row +ₚ E1) (col +ₚ E1) (edge_map +ₚ E1) e
    = resolve (E1 + e)).
  { intros e. unfold resolve, coo_endpoints. by rewrite !_ldg_padd. }
  pose proof (SDDMM_launch iw fuel op UseBcast true (Coo row col)
                ufeat vfeat edge_map N M (E1 + E2) reduce_size
                ubcast_off vbcast_off ufeat_len vfeat_len out_len
                nblks nthrs ok Hend Hcell Hexact Hdistinct out) as Hall.
  pose proof (SDDMM_launch iw fuel op UseBcast true (Coo row col)
                ufeat vfeat edge_map N M E1 reduce_size
                ubcast_off vbcast_off ufeat_len vfeat_len out_len
                nblks1 nthrs1 ok1) as Hfirst.
  pose proof (SDDMM_launch iw fuel op UseBcast true
                (Coo (row +ₚ E1) (col +ₚ E1))
                ufeat vfeat (edge_map +ₚ E1) N M E2 reduce_size
                ubcast_off vbcast_off ufeat_len vfeat_len out_len
                nblks2 nthrs2 ok2) as Hsecond.
  simpl in Hall, Hfirst, Hsecond.
  rewrite Hall. rewrite Hfirst.
  2: { intros e He. apply Hend. lia. }
  2: { intros e p r He. apply Hcell. lia. }
  2: { intros e src dst eid He. apply Hexact. lia. }
  2: { intros e e' r r' He He'. apply Hdistinct; lia. }
  rewrite all_cells_app by done. rewrite bind_app, store_all_app.
  destruct (store_all out (all_cells E1 out_len ≫= _)) as [out1|]; [|done].
  simpl.
  rewrite Hsecond.
  - f_equal. rewrite list_bind_assoc. apply list_bind_ext_in.
    intros [e p] _. rewrite bind_singleton. simpl.
    unfold cell_stores. simpl. by rewrite Hshift.
  - intros e He. rewrite Hshift. apply Hend. lia.
  - intros e p r He Hp. rewrite Hshift. apply Hcell; lia.
  - intros e src dst eid He. rewrite Hshift. apply Hexact. lia.
  - intros e e' r r' He He'. rewrite !Hshift. intros Hr Hr' Heq.
    assert (E1 + e = E1 + e'); [|lia].
    eapply (Hdistinct (E1 + e) (E1 + e')); [lia | lia | done..].
Qed.

Lemma launch_coo_in_two_batches_witness :
  launch_coo 32 4 functor.Mul false true example.nblks example.nthrs
    example.ufeat example.vfeat example.zeros
    (ptr_to [0; 0; 1]) (ptr_to [0; 1; 1]) example.edge_map 2 2 (1 + 2) 1
    nullptr nullptr 2 2 2
  = launch_coo 32 4 functor.Mul false true example.nblks example.nthrs
      example.ufeat example.vfeat example.zeros
      (ptr_to [0; 0; 1]) (ptr_to [0; 1; 1]) example.edge_map 2 2 1 1
      nullptr nullptr 2 2 2
    ≫= λ out1,
      launch_coo 32 4 functor.Mul false true (dim3.mk 2 1) (dim3.mk 1 2)
        example.ufeat example.vfeat out1
        (ptr_to [0; 0; 1] +ₚ 1) (ptr_to [0; 1; 1] +ₚ 1)
        (example.edge_map +ₚ 1) 2 2 2 1 nullptr nullptr 2 2 2.
Proof.
  apply (launch_coo_in_two_batches 32 4 functor.Mul false
           (ptr_to [0; 0; 1]) (ptr_to [0; 1; 1]) example.ufeat example.vfeat
           example.edge_map 2 2 1 2 1 nullptr nullptr 2 2 2
           example.nblks example.nthrs example.nblks example.nthrs
           (dim3.mk 2 1) (dim3.mk 1 2) example.zeros).
  - exact example_launch_ok.
  - constructor; unfold max_signed; simpl; lia.
  - constructor; unfold max_signed; simpl; lia.
  - exact example_permuted_endpoints_ok.
  - exact example_permuted_cells_ok.
  - exact example_permuted_rows_exact.
  - exact example_permuted_rows_distinct.
Defined.

(** The two batches of the example, evaluated. *)
Example batches_on_example :
  launch_coo 32 4 functor.Mul false true example.nblks example.nthrs
    example.ufeat example.vfeat example.zeros
    (ptr_to [0; 0; 1]) (ptr_to [0; 1; 1]) example.edge_map 2 2 1 1
    nullptr nullptr 2 2 2 = Some [0; 0; 0; 0; 10; 40]
  ∧ launch_coo 32 4 functor.Mul false true (dim3.mk 2 1) (dim3.mk 1 2)
      example.ufeat example.vfeat [0; 0; 0; 0; 10; 40]
      (ptr_to [0; 0; 1] +ₚ 1) (ptr_to [0; 1; 1] +ₚ 1)
      (example.edge_map +ₚ 1) 2 2 2 1 nullptr nullptr 2 2 2
    = Some [30; 80; 90; 160; 10; 40].
Proof. split; by vm_compute. Qed.

(** ** Edges that share an output row *)

(** X14.  When two different edges resolve to the same output row (the edge
    map is not injective), the grid stores twice to every cell of that row,
    once for each of the two edges: the store addresses of a launch are then
    not pairwise distinct.  No load and no operator call faults, and no
    counter overflows. *)
Theorem shared_output_row_collides (iw : Z) (fuel : nat) {DType : Type}
    (op : BinaryOp DType) (UseBcast UseIdx : bool) (enc : encoding)
    (ufeat vfeat : ptr DType) (edge_map : ptr Z) (N M E reduce_size : Z)
    (ubcast_off vbcast_off : ptr Z) (ufeat_len vfeat_len out_len : Z)
    (gridDim blockDim : dim3.t) (e1 e2 : Z) (r1 r2 : Z * Z * Z) :
  let resolve := endpoints iw fuel UseIdx enc edge_map N in
  let cellf := cell_of iw op UseBcast ufeat vfeat reduce_size
                 ubcast_off vbcast_off ufeat_len vfeat_len out_len in
  let kernel := SDDMMKernel iw fuel op UseBcast UseIdx enc ufeat vfeat
                  edge_map N M E reduce_size ubcast_off vbcast_off
                  ufeat_len vfeat_len out_len in
  launch_ok iw (tx_bits enc) fuel E out_len gridDim blockDim →
  (∀ e, 0 ≤ e < E → is_Some (resolve e)) →
  (∀ e p r, 0 ≤ e < E → 0 ≤ p < out_len → resolve e = Some r →
     is_Some (cellf r p)) →
  0 ≤ e1 < E → 0 ≤ e2 < E → e1 ≠ e2 →
  resolve e1 = Some r1 → resolve e2 = Some r2 → r1.2 = r2.2 →
  ∃ ws,
    run_grid kernel gridDim blockDim = Some ws
    ∧ (∀ p, 0 ≤ p < out_len →
         ∃ v1 v2,
           cell_stores resolve cellf (e1, p)
           = [(wrap 64 (r1.2 * out_len) + p, v1)]
           ∧ cell_stores resolve cellf (e2, p)
             = [(wrap 64 (r1.2 * out_len) + p, v2)]
           ∧ (wrap 64 (r1.2 * out_len) + p, v1) ∈ ws
           ∧ (wrap 64 (r1.2 * out_len) + p, v2) ∈ ws)
    ∧ (0 < out_len → ¬ NoDup ws.*1).
Proof.
  intros resolve cellf kernel. subst resolve cellf kernel.
  intros ok Hend Hcell He1 He2 Hne Hr1 Hr2 Heq.
  eexists. split; [by apply SDDMM_grid|].
  set (resolve := endpoints iw fuel UseIdx enc edge_map N) in *.
  set (cellf := cell_of iw op UseBcast ufeat vfeat reduce_size
                  ubcast_off vbcast_off ufeat_len vfeat_len out_len) in *.
  assert (Hcells : ∀ p, 0 ≤ p < out_len →
    ∃ v1 v2,
      cell_stores resolve cellf (e1, p)
      = [(wrap 64 (r1.2 * out_len) + p, v1)]
      ∧ cell_stores resolve cellf (e2, p)
        = [(wrap 64 (r1.2 * out_len) + p, v2)]).
  { intros p Hp. unfold resolve, cellf in *.
    destruct (cell_stores_shape iw fuel op UseBcast UseIdx enc ufeat vfeat
                edge_map N E reduce_size ubcast_off vbcast_off ufeat_len
                vfeat_len out_len Hend Hcell e1 p He1 Hp)
      as (s1 & d1 & i1 & ? & ? & v1 & Hr1' & _ & _ & _ & Hst1).
    destruct (cell_stores_shape iw fuel op UseBcast UseIdx enc ufeat vfeat
                edge_map N E reduce_size ubcast_off vbcast_off ufeat_len
                vfeat_len out_len Hend Hcell e2 p He2 Hp)
      as (s2 & d2 & i2 & ? & ? & v2 & Hr2' & _ & _ & _ & Hst2).
    rewrite Hr1 in Hr1'. rewrite Hr2 in Hr2'.
    simplify_eq. simpl in *. subst i2. by exists v1, v2. }
  assert (Hmem : ∀ e p w, 0 ≤ e < E → 0 ≤ p < out_len →
    cell_stores resolve cellf (e, p) = [w] →
    w ∈ grid_cells E out_len gridDim blockDim ≫= cell_stores resolve cellf).
  { intros e p w He Hp Hst. unfold resolve, cellf in *.
    rewrite (SDDMM_stores_perm _ _ _ _ _ _ _ _ _ _ _ _ _ _ _ _ _ _ _ ok).
    eapply elem_of_SDDMM_stores; [done | done |]. by exists e, p. }
  split.
  - intros p Hp. destruct (Hcells p Hp) as (v1 & v2 & Hst1 & Hst2).
    exists v1, v2. split; [done|]. split; [done|].
    split; [by eapply (Hmem e1 p) | by eapply (Hmem e2 p)].
  - intros Hpos Hnd. unfold resolve, cellf in *.
    rewrite (SDDMM_stores_perm _ _ _ _ _ _ _ _ _ _ _ _ _ _ _ _ _ _ _ ok)
      in Hnd.
    rewrite fmap_list_bind in Hnd.
    destruct (Hcells 0 ltac:(lia)) as (v1 & v2 & Hst1 & Hst2).
    assert ((e1, 0) = (e2, 0)) as Hsame; [|by simplify_eq].
    eapply (NoDup_bind_inj _ _ (e1, 0) (e2, 0) _ Hnd).
    + apply elem_of_all_cells. lia.
    + apply elem_of_all_cells. lia.
    + rewrite Hst1. simpl. apply list_elem_of_singleton. done.
    + rewrite Hst2. simpl. by apply list_elem_of_singleton.
Qed.

Lemma colliding_endpoints_ok (e : Z) :
  0 ≤ e < 3 →
  is_Some (endpoints 32 4 true example.coo (ptr_to [0; 0; 1]) 2 e).
Proof. revert e. each_in_range; by eexists. Qed.

Lemma colliding_cells_ok (e p : Z) (r : Z * Z * Z) :
  0 ≤ e < 3 → 0 ≤ p < 2 →
  endpoints 32 4 true example.coo (ptr_to [0; 0; 1]) 2 e = Some r →
  is_Some (cell_of 32 functor.Mul false example.ufeat example.vfeat 1
             nullptr nullptr 2 2 2 r p).
Proof.
  intros He Hp. revert r. revert p Hp. revert e He.
  each_in_range; each_in_range; intros r Hr; vm_compute in Hr;
    simplify_eq; by eexists.
Qed.

Lemma shared_output_row_collides_witness :
  ∃ ws,
    run_grid
      (SDDMMKernel 32 4 functor.Mul false true example.coo
         example.ufeat example.vfeat (ptr_to [0; 0; 1]) 2 2 3 1
         nullptr nullptr 2 2 2)
      example.nblks example.nthrs = Some ws
    ∧ ¬ NoDup ws.*1.
Proof.
  destruct (shared_output_row_collides 32 4 functor.Mul false true
              example.coo example.ufeat example.vfeat (ptr_to [0; 0; 1])
              2 2 3 1 nullptr nullptr 2 2 2 example.nblks example.nthrs
              0 1 (0, 0, 0) (0, 1, 0)
              example_launch_ok colliding_endpoints_ok colliding_cells_ok
              ltac:(lia) ltac:(lia) ltac:(lia) eq_refl eq_refl eq_refl)
    as (ws & Hrun & _ & Hdup).
  exists ws. split; [exact Hrun|]. apply Hdup. lia.
Defined.

(** The stores of the example with the edge map [[0, 0, 1]], unit after
    unit: the cells 0 and 1 are stored twice. *)
Example colliding_stores_on_example :
  run_grid
    (SDDMMKernel 32 4 functor.Mul false true example.coo
       example.ufeat example.vfeat (ptr_to [0; 0; 1]) 2 2 3 1
       nullptr nullptr 2 2 2)
    example.nblks example.nthrs
  = Some [(0, 10); (1, 40); (2, 90); (3, 160); (0, 30); (1, 80)].
Proof. by vm_compute. Qed.

(** ** The launch geometry of the entry points *)

Section HostGeometry.

Variables (FindNumThreads : Z → Z) (CUDA_MAX_NUM_THREADS : Z)
  (FindNumBlocks_y : Z → Z).
Variables (len nnz : Z).

Local Abbreviation ntx := (FindNumThreads len).
Local Abbreviation geometry :=
  (launch_geometry FindNumThreads CUDA_MAX_NUM_THREADS FindNumBlocks_y
     len nnz).

Hypothesis len_fits : 0 ≤ len ≤ max_signed 32.
Hypothesis ntx_range : 1 ≤ ntx ≤ CUDA_MAX_NUM_THREADS.
Hypothesis max_fits : CUDA_MAX_NUM_THREADS ≤ max_signed 32.





End HostGeometry.


